(** * probeye: the pyro/torch solver and the forward-model base class

    A shallow embedding of [probeye/inference/torch_/solver.py] and
    [probeye/definition/forward_model.py].

    - [Resolver]: the loop of [run_pyro_solver] that orders the latent
      parameters by the dependencies of their priors.
    - [Heap]: objects and references, for the code that copies and
      writes to dicts and to the problem.
    - [ForwardModel]: [ForwardModelBase.__call__], [jacobian] and
      [jacobian_dict_to_array].
    - [Bridge]: [Autograd.forward] and [Autograd.backward].
    - [Solver]: [loglike] and the objects [run_pyro_solver] writes to.
    - [Wrapper]: [only_values].
    - [Sampling]: [get_theta_samples].

    The definitions come first, each module of code followed by the
    properties stated about it and by the concrete inputs used; the
    proofs follow in the second part: first what is stated of the
    ordering loop, of the finite-difference step, of the array of the
    Jacobian, of the round trip through [Autograd] and of the objects
    ([ResolverTheorems] to [SolverTheorems]), then what the loops can end
    in and what follows for the code around them ([ResolverCases] to
    [SolverProperties]).

    Python dicts keep insertion order, so a dict is an association list
    with distinct keys. Numbers are exact rationals, rounding is not
    modelled; the finite-difference step is given in double precision as
    well. *)

From Stdlib Require Import List String Arith Lia Permutation Bool Relations.
From Stdlib Require Import ZArith QArith.
From Stdlib Require Import PrimFloat.
From stdpp Require Import gmap strings list.

Local Open Scope string_scope.
Local Open Scope list_scope.
Local Open Scope nat_scope.

(** ** Exceptions and results shared by all modules *)

Inductive exception :=
| KeyError (k : string)
| ValueError (msg : string)
| IndexError (i : nat)
| RuntimeError (key_idx dependency : string)
| ShapeError (msg : string).

Inductive result (A : Type) :=
| Ret (a : A)
| Raise (e : exception).
Arguments Ret {A} a.
Arguments Raise {A} e.

#[global] Instance result_ret : MRet result := fun A a => Ret a.
#[global] Instance result_bind : MBind result := fun A B f r =>
  match r with
  | Ret a => f a
  | Raise e => Raise e
  end.

(** ** The ordering of the latent parameters in [run_pyro_solver] *)

Module Resolver.

(** [dependency_dict]: latent parameter name -> latent hyperparameters of
    its prior, in insertion order. *)
Abbreviation items := (list (string * list string)).

Definition keys (d : items) : list string := fst <$> d.
Definition values (d : items) : list (list string) := snd <$> d.

(** [d[k]] *)
Fixpoint getitem (d : items) (k : string) : result (list string) :=
  match d with
  | [] => Raise (KeyError k)
  | (k', v) :: d' => if String.eqb k' k then Ret v else getitem d' k
  end.

(** [d[k] = v]: an existing key keeps its place, a new one goes last. *)
Fixpoint setitem (d : items) (k : string) (v : list string) : items :=
  match d with
  | [] => [(k, v)]
  | (k', v') :: d' =>
      if String.eqb k' k then (k', v) :: d' else (k', v') :: setitem d' k v
  end.

(** [dict(tuples)] *)
Definition dict (tuples : items) : items :=
  fold_left (fun d kv => setitem d (fst kv) (snd kv)) tuples [].

(** [l.index(k)] *)
Fixpoint index (l : list string) (k : string) : result nat :=
  match l with
  | [] => Raise (ValueError k)
  | x :: l' => if String.eqb x k then Ret 0 else i ← index l' k; Ret (S i)
  end.

(** [k in l] *)
Definition contains (l : list string) (k : string) : bool :=
  existsb (String.eqb k) l.

(** [tuples[i], tuples[j] = tuples[j], tuples[i]] *)
Definition swap (tuples : items) (i j : nat) : result items :=
  match tuples !! j, tuples !! i with
  | Some b, Some a => Ret (<[j := a]> (<[i := b]> tuples))
  | None, _ => Raise (IndexError j)
  | _, None => Raise (IndexError i)
  end.

Fixpoint enumerate_from {A} (i : nat) (l : list A) : list (nat * A) :=
  match l with
  | [] => []
  | x :: l' => (i, x) :: enumerate_from (S i) l'
  end.

(** [[i for i, v in enumerate(dependency_dict.values()) if len(v) > 0]] *)
Definition idx_latent_from (i : nat) (d : items) : list nat :=
  map fst (List.filter (fun iv => 0 <? length (snd iv))
                       (enumerate_from i (values d))).

Definition idx_latent_dependencies (d : items) : list nat :=
  idx_latent_from 0 d.

(** The loop state: the dict and the flag [consistent]. *)
Definition state := (items * bool)%type.

(** [for dependency in dependency_dict[key_idx]: ...]; the list iterated
    over is the one read before the loop, [idx] and [key_idx] stay what
    they were although a swap moves [key_idx] away from [idx]. *)
Fixpoint for_dependency (idx : nat) (key_idx : string)
         (deps : list string) (st : state) : result state :=
  match deps with
  | [] => Ret st
  | dependency :: rest =>
      v ← getitem (fst st) dependency;
      if contains v key_idx then Raise (RuntimeError key_idx dependency)
      else
        idx_dependency ← index (keys (fst st)) dependency;
        if idx <? idx_dependency then
          tuples ← swap (fst st) idx idx_dependency;
          for_dependency idx key_idx rest (dict tuples, false)
        else for_dependency idx key_idx rest st
  end.

(** [for idx in idx_latent_dependencies: ...] *)
Fixpoint for_idx (idxs : list nat) (st : state) : result state :=
  match idxs with
  | [] => Ret st
  | idx :: rest =>
      key_idx ← match keys (fst st) !! idx with
                | Some k => Ret k
                | None => Raise (IndexError idx)
                end;
      deps ← getitem (fst st) key_idx;
      st' ← for_dependency idx key_idx deps st;
      for_idx rest st'
  end.

(** One turn of [while not consistent]. *)
Definition pass (d : items) : result state :=
  for_idx (idx_latent_dependencies d) (d, true).

(** [while not consistent: ...]; [None] is "still running". *)
Fixpoint while_not_consistent (fuel : nat) (d : items)
  : option (result items) :=
  match fuel with
  | 0 => None
  | S fuel' =>
      match pass d with
      | Raise e => Some (Raise e)
      | Ret (d', true) => Some (Ret d')
      | Ret (d', false) => while_not_consistent fuel' d'
      end
  end.

(** Lines 61-67: the dict is built from the latent parameters and the
    hyperparameters of their priors. *)
Definition build_dependency_dict (latent_prms : list string)
           (hyperparameters : string → list string) : items :=
  fold_left
    (fun d prm_name =>
       setitem d prm_name
               (List.filter (contains latent_prms) (hyperparameters prm_name)))
    latent_prms [].

End Resolver.

(** What the resolution is expected to establish. *)
Module ResolverSpec.
Import Resolver.

(** [k]'s prior refers to the latent parameter [dep]. *)
Definition depends (d : items) (k dep : string) : Prop :=
  ∃ deps, (k, deps) ∈ d ∧ dep ∈ deps.

(** Every dependency is itself a key: the values hold latent parameter
    names only (line 66). *)
Definition closed (d : items) : Prop :=
  ∀ k dep, depends d k dep → dep ∈ keys d.

(** No parameter reaches itself along dependencies. *)
Definition acyclic (d : items) : Prop :=
  ∀ k, ¬ tc (depends d) k k.

(** Every dependency of the key at place [i] sits at a place before [i]. *)
Definition settled (d : items) (i : nat) : Prop :=
  ∀ k deps dep, d !! i = Some (k, deps) → dep ∈ deps →
    ∃ j, keys d !! j = Some dep ∧ j < i.

Definition ordered (d : items) : Prop := ∀ i, settled d i.

(** A ranking of the keys that decreases along dependencies; checked by
    computation, it shows a concrete dict acyclic. *)
Definition ranked (rank : string → nat) (d : items) : bool :=
  forallb (fun kv => forallb (fun dep => rank dep <? rank (fst kv)) (snd kv)) d.

(** What every dict met by the loop satisfies when the first one does. *)
Definition inv (d : items) : Prop :=
  NoDup (keys d) ∧ closed d ∧ ∀ k dep, depends d k dep → ¬ depends d dep k.

(** The first [m] places are settled. *)
Definition prefix_ok (d : items) (m : nat) : Prop :=
  ∀ i, i < m → settled d i.

(** The boolean form of [closed]. *)
Definition closedb (d : items) : bool :=
  forallb (fun kv => forallb (contains (keys d)) (snd kv)) d.

End ResolverSpec.

(** Concrete dependency dicts used further down. *)
Module ResolverInputs.
Import Resolver.

(** The hierarchical prior of the integration test: the location of the
    prior of [b] is the latent parameter [mean_b]. *)
Definition hierarchical : items :=
  [("a", []); ("b", ["mean_b"]); ("sigma", []); ("mean_b", [])].

Definition hierarchical_rank (k : string) : nat :=
  if String.eqb k "b" then 1 else 0.

(** Six latent parameters with at most two latent hyperparameters each;
    [p2] and [p3] refer to each other. *)
Definition six_prms : items :=
  [("p0", ["p3"; "p5"]); ("p1", ["p2"; "p4"]); ("p2", ["p3"]);
   ("p3", ["p5"; "p2"]); ("p4", ["p3"; "p0"]); ("p5", ["p2"; "p1"])].

(** The dicts the loop goes through on [six_prms]. *)
Definition six_prms_1 : items :=
  [("p5", ["p2"; "p1"]); ("p4", ["p3"; "p0"]); ("p2", ["p3"]);
   ("p3", ["p5"; "p2"]); ("p1", ["p2"; "p4"]); ("p0", ["p3"; "p5"])].
Definition six_prms_2 : items :=
  [("p1", ["p2"; "p4"]); ("p0", ["p3"; "p5"]); ("p2", ["p3"]);
   ("p3", ["p5"; "p2"]); ("p5", ["p2"; "p1"]); ("p4", ["p3"; "p0"])].
Definition six_prms_3 : items :=
  [("p4", ["p3"; "p0"]); ("p5", ["p2"; "p1"]); ("p2", ["p3"]);
   ("p3", ["p5"; "p2"]); ("p0", ["p3"; "p5"]); ("p1", ["p2"; "p4"])].

End ResolverInputs.

(** ** Objects and references

    Python objects live in a store and are named by references; copying
    makes a new object, assignment to an attribute or item writes to one. *)

Module Heap.

Abbreviation loc := nat.

Section WithObjects.
Context {O : Type}.

(** A computation on the store that may raise; the store is kept when it
    does. *)
Definition M (A : Type) : Type := gmap loc O → result A * gmap loc O.

Definition ret {A} (a : A) : M A := fun σ => (Ret a, σ).
Definition raise {A} (e : exception) : M A := fun σ => (Raise e, σ).
Definition bind {A B} (m : M A) (f : A → M B) : M B :=
  fun σ => match m σ with
           | (Ret a, σ') => f a σ'
           | (Raise e, σ') => (Raise e, σ')
           end.
Definition lift {A} (r : result A) : M A := fun σ => (r, σ).

Definition deref (l : loc) : M O :=
  fun σ => match σ !! l with
           | Some d => (Ret d, σ)
           | None => (Raise (IndexError l), σ)
           end.

(** A new object and the overwriting of an object *)
Definition alloc (d : O) : M loc :=
  fun σ => let l' := fresh (dom σ) in (Ret l', <[l' := d]> σ).

Definition store (l : loc) (d : O) : M unit :=
  fun σ => (Ret tt, <[l := d]> σ).

End WithObjects.

Arguments M O A : clear implicits.

#[global] Instance M_ret {O} : MRet (M O) := @ret O.
#[global] Instance M_bind {O} : MBind (M O) := fun A B f m => bind m f.

End Heap.

(** How a computation treats the objects of a store [σ0]. *)
Module HeapSpec.
Import Heap.

Section WithObjects.
Context {O : Type}.

(** *** Which objects a computation leaves as they are

    [keeps σ0 m Q]: run from a store that extends [σ0], [m] ends in a
    store that extends [σ0], and what it returns satisfies [Q]. *)
Definition keeps {A} (σ0 : gmap loc O) (m : M O A) (Q : A → Prop) : Prop :=
  ∀ σ, σ0 ⊆ σ →
    σ0 ⊆ snd (m σ) ∧ ∀ a, fst (m σ) = Ret a → Q a.

(** *** What a computation establishes

    [triple σ0 P m Q]: run from a store that extends [σ0] and satisfies
    [P], [m] ends in a store that extends [σ0]; when it returns, [Q]
    holds of what it returns and of the store. *)
Definition triple {A} (σ0 : gmap loc O) (P : gmap loc O → Prop) (m : M O A)
           (Q : A → gmap loc O → Prop) : Prop :=
  ∀ σ, σ0 ⊆ σ → P σ →
    σ0 ⊆ snd (m σ) ∧ ∀ a, fst (m σ) = Ret a → Q a (snd (m σ)).

End WithObjects.

End HeapSpec.

(** ** [ForwardModelBase] *)

Module ForwardModel.
Import Heap.

(** A numeric value: a number or a one-axis array of numbers. *)
Inductive value (A : Type) :=
| Scalar (x : A)
| Array (xs : list A).
Arguments Scalar {A} x.
Arguments Array {A} xs.

Abbreviation pydict V := (list (string * V)).

Definition dict_keys {V} (d : pydict V) : list string := fst <$> d.
Definition dict_values {V} (d : pydict V) : list V := snd <$> d.

Fixpoint dict_get {V} (d : pydict V) (k : string) : result V :=
  match d with
  | [] => Raise (KeyError k)
  | (k', v) :: d' => if String.eqb k' k then Ret v else dict_get d' k
  end.

Fixpoint dict_set {V} (d : pydict V) (k : string) (v : V) : pydict V :=
  match d with
  | [] => [(k, v)]
  | (k', v') :: d' =>
      if String.eqb k' k then (k', v) :: d' else (k', v') :: dict_set d' k v
  end.

(** Modelled from the spec: [len_or_one] of [probeye.subroutines] is not
    among the sources; it is the number of scalar elements of a value,
    one for a number. *)
Definition len_or_one {A} (v : value A) : nat :=
  match v with
  | Scalar _ => 1
  | Array xs => length xs
  end.

Definition elements {A} (v : value A) : list A :=
  match v with
  | Scalar x => [x]
  | Array xs => xs
  end.

Definition vmap {A B} (f : A → B) (v : value A) : value B :=
  match v with
  | Scalar x => Scalar (f x)
  | Array xs => Array (f <$> xs)
  end.

(** numpy's elementwise binary operations: a number or an array of one
    element is stretched to the length of the other operand. *)
Definition broadcast2 {A B C} (f : A → B → C) (a : value A) (b : value B)
  : result (value C) :=
  match a, b with
  | Scalar x, Scalar y => Ret (Scalar (f x y))
  | Scalar x, Array ys => Ret (Array (f x <$> ys))
  | Array xs, Scalar y => Ret (Array ((fun x => f x y) <$> xs))
  | Array xs, Array ys =>
      if length xs =? length ys then Ret (Array (zip_with f xs ys))
      else match xs, ys with
           | [x], _ => Ret (Array (f x <$> ys))
           | _, [y] => Ret (Array ((fun x => f x y) <$> xs))
           | _, _ => Raise (ValueError "operands could not be broadcast together")
           end
  end.

(** [np.sqrt(np.finfo(np.float32).eps)]: the single-precision number
    nearest to the square root of 2^-23, which is 11863283 * 2^-35. *)
Definition sqrt_eps : Q := 11863283 # 34359738368.

(** [h = np.sqrt(eps) * x + np.sqrt(eps)] *)
Definition step (x : Q) : Q := (sqrt_eps * x + sqrt_eps)%Q.

(** The same step in double precision, the arithmetic numpy uses for a
    Python float: [sqrt_eps] is 0x1.6a09e6p-12. *)
Definition sqrt_eps_float : float := 0x1.6a09e6p-12%float.

Definition step_float (x : float) : float :=
  (sqrt_eps_float * x + sqrt_eps_float)%float.

(** [(right - left) / (2 * h)] in double precision *)
Definition quotient_float (right left h : float) : float :=
  ((right - left) / (2 * h))%float.

(** A quotient of numbers; [None] stands for numpy's [inf] or [nan], the
    outcome of a division by zero. *)
Definition divide (a b : Q) : option Q :=
  if Qeq_bool b 0 then None else Some (a / b)%Q.

(** *** The objects [jacobian] works on

    [inp] is a dict object; [cp.copy] makes a new dict object with the same
    bindings, and [d[k] = v] writes to one object. *)
Abbreviation heap := (gmap loc (pydict (value Q))).
Abbreviation M := (Heap.M (pydict (value Q))).

(** [cp.copy(d)] *)
Definition cp_copy (l : loc) : M loc :=
  d ← deref l; alloc d.

(** [d[k]] and [d[k] = v] on a dict object *)
Definition getitem (l : loc) (k : string) : M (value Q) :=
  d ← deref l; lift (dict_get d k).

Definition setitem (l : loc) (k : string) (v : value Q) : M unit :=
  d ← deref l; store l (dict_set d k v).

(** An entry of [jac_dict]: [None] until it is computed. *)
Abbreviation derivative := (value (option Q)).
Abbreviation jac_dict_t := (pydict (pydict (option derivative))).

(** [jac_dict[os_name][prm_name] = v] *)
Definition jac_set (jac_dict : jac_dict_t) (os_name prm_name : string)
           (v : option derivative) : result jac_dict_t :=
  row ← dict_get jac_dict os_name;
  Ret (dict_set jac_dict os_name (dict_set row prm_name v)).

(** Lines 155-160 *)
Definition jac_dict_init (output_sensors prm_names : list string)
  : jac_dict_t :=
  fold_left
    (fun jd os_name =>
       dict_set jd os_name
         (fold_left (fun row prm_name => dict_set row prm_name None)
                    prm_names []))
    output_sensors [].

(** Lines 178-181: the inner loop over the output sensors *)
Fixpoint for_output_sensor (output_sensors : list string) (prm_name : string)
         (response_dict_left response_dict_right : pydict (value Q))
         (dx : value Q) (jac_dict : jac_dict_t) : result jac_dict_t :=
  match output_sensors with
  | [] => Ret jac_dict
  | os_name :: rest =>
      r ← dict_get response_dict_right os_name;
      l ← dict_get response_dict_left os_name;
      diff ← broadcast2 Qminus r l;
      q ← broadcast2 divide diff dx;
      jac_dict' ← jac_set jac_dict os_name prm_name (Some q);
      for_output_sensor rest prm_name response_dict_left response_dict_right
                        dx jac_dict'
  end.

Section Jacobian.

(** [self.response], supplied by the user: it reads the dict it is given
    and returns a new dict. *)
Variable response : pydict (value Q) → result (pydict (value Q)).
Variable output_sensors : list string.

(** Lines 168-181: the loop over [inp.items()] *)
Fixpoint for_prm (inp : loc) (prm_names : list string)
         (jac_dict : jac_dict_t) : M jac_dict_t :=
  match prm_names with
  | [] => ret jac_dict
  | prm_name :: rest =>
      inp_left ← cp_copy inp;
      inp_right ← cp_copy inp;
      x ← getitem inp prm_name;
      h ← ret (vmap step x);
      x_minus_h ← lift (broadcast2 Qminus x h);
      _ ← setitem inp_left prm_name x_minus_h;
      x_plus_h ← lift (broadcast2 Qplus x h);
      _ ← setitem inp_right prm_name x_plus_h;
      dx ← ret (vmap (Qmult 2) h);
      d_left ← deref inp_left;
      response_dict_left ← lift (response d_left);
      d_right ← deref inp_right;
      response_dict_right ← lift (response d_right);
      jac_dict' ← lift (for_output_sensor output_sensors prm_name
                          response_dict_left response_dict_right dx
                          jac_dict);
      for_prm inp rest jac_dict'
  end.

(** [ForwardModelBase.jacobian] *)
Definition jacobian (inp : loc) : M jac_dict_t :=
  d ← deref inp;
  for_prm inp (dict_keys d) (jac_dict_init output_sensors (dict_keys d)).

End Jacobian.

(** *** [jacobian_dict_to_array] *)

(** A three-axis numpy array: its shape and its entries. *)
Record ndarray3 (A : Type) := {
  shape : nat * nat * nat;
  data : list (list (list A))
}.
Arguments shape {A} n.
Arguments data {A} n.
Arguments Build_ndarray3 {A} shape data.

Definition np_zeros {A} (zero : A) (n1 n2 n3 : nat) : ndarray3 A :=
  {| shape := (n1, n2, n3);
     data := replicate n1 (replicate n2 (replicate n3 zero)) |}.

(** numpy's assignment of [v] to a slice of [n] elements *)
Definition broadcast_to {A} (n : nat) (v : value A) : result (list A) :=
  match v with
  | Scalar x => Ret (replicate n x)
  | Array xs =>
      if length xs =? n then Ret xs
      else match xs with
           | [x] => Ret (replicate n x)
           | _ => Raise (ValueError "could not broadcast input array")
           end
  end.

(** [jac[i, j, :] = derivative] *)
Definition assign_row {A} (jac : ndarray3 A) (i j : nat) (v : value A)
  : result (ndarray3 A) :=
  match data jac !! i with
  | None => Raise (IndexError i)
  | Some m =>
      match m !! j with
      | None => Raise (IndexError j)
      | Some _ =>
          row ← broadcast_to (snd (shape jac)) v;
          Ret {| shape := shape jac;
                 data := <[i := <[j := row]> m]> (data jac) |}
      end
  end.

Fixpoint for_derivative {A} (i j : nat) (derivatives : list (value A))
         (jac : ndarray3 A) : result (ndarray3 A) :=
  match derivatives with
  | [] => Ret jac
  | derivative :: rest =>
      jac' ← assign_row jac i j derivative;
      for_derivative i (S j) rest jac'
  end.

Fixpoint for_prm_dict {A} (i : nat) (prm_dicts : list (pydict (value A)))
         (jac : ndarray3 A) : result (ndarray3 A) :=
  match prm_dicts with
  | [] => Ret jac
  | prm_dict :: rest =>
      jac' ← for_derivative i 0 (dict_values prm_dict) jac;
      for_prm_dict (S i) rest jac'
  end.

(** [max(l)], which raises on an empty list *)
Definition py_max (l : list nat) : result nat :=
  match l with
  | [] => Raise (ValueError "max() arg is an empty sequence")
  | x :: l' => Ret (foldr Nat.max x l')
  end.

(** [ForwardModelBase.jacobian_dict_to_array] *)
Definition jacobian_dict_to_array {A B} (zero : A)
           (output_sensors : list string) (inp : pydict (value B))
           (jac_dict : pydict (pydict (value A))) : result (ndarray3 A) :=
  let n1 := length output_sensors in
  let n2 := length inp in
  n3 ← py_max (len_or_one <$> dict_values inp);
  for_prm_dict 0 (dict_values jac_dict) (np_zeros zero n1 n2 n3).

(** *** [__call__] *)

(** What [self.call] returns: the dict of [response], or a numeric vector
    when an inference engine has replaced [call]. *)
Inductive call_result :=
| ResDict (d : pydict (value Q))
| ResVector (v : list Q).

(** Lines 108-113: [res_ori[i:i + n_numbers]] for each key of
    [response_structure] in turn *)
Fixpoint reconstruct (i : nat) (response_structure : pydict nat)
         (res_ori : list Q) : pydict (value Q) :=
  match response_structure with
  | [] => []
  | (key, n_numbers) :: rest =>
      (key, Array (take n_numbers (drop i res_ori)))
        :: reconstruct (i + n_numbers) rest res_ori
  end.

(** [ForwardModelBase.__call__], given what [self.call(inp)] returned *)
Definition call_dunder (response_structure : pydict nat)
           (res_ori : call_result) : pydict (value Q) :=
  match res_ori with
  | ResDict d => d
  | ResVector v => reconstruct 0 response_structure v
  end.

End ForwardModel.

(** What C6 is about. *)
Module ForwardModelSpec.
Import ForwardModel.

(** The row [jac[i, j, :]] *)
Definition row {A} (jac : ndarray3 A) (i j : nat) : option (list A) :=
  m ← data jac !! i; m !! j.

(** The array has the entries its shape announces. *)
Definition dense {A} (jac : ndarray3 A) (n1 n2 n3 : nat) : Prop :=
  shape jac = (n1, n2, n3) ∧
  length (data jac) = n1 ∧
  (∀ i m, data jac !! i = Some m → length m = n2) ∧
  (∀ i j r, row jac i j = Some r → length r = n3).

(** The values of a derivative followed by zeros up to [n] entries. *)
Definition zero_padded {A} (zero : A) (n : nat) (v : value A) : list A :=
  elements v ++ replicate (n - length (elements v)) zero.

(** The values of a derivative stretched to [n] entries: a number, or
    the one element of an array, is repeated. *)
Definition stretched {A} (n : nat) (v : value A) : list A :=
  match v with
  | Scalar x => replicate n x
  | Array xs =>
      if length xs =? n then xs
      else match xs with
           | [x] => replicate n x
           | _ => xs
           end
  end.

(** numpy accepts the assignment of [v] to [n] entries. *)
Definition stretches {A} (n : nat) (v : value A) : Prop :=
  len_or_one v = n ∨ len_or_one v = 1.

End ForwardModelSpec.

(** Concrete forward models and inputs used further down. *)
Module ForwardModelInputs.
Import ForwardModel.

(** The linear model of the tests: [y = a * x + b]. *)
Definition linear (inp : pydict (value Q)) : result (pydict (value Q)) :=
  a ← dict_get inp "a";
  x ← dict_get inp "x";
  b ← dict_get inp "b";
  ax ← broadcast2 Qmult a x;
  y ← broadcast2 Qplus ax b;
  Ret [("y", y)].

(** Two measurement points, slope 3 and intercept -1. *)
Definition linear_inp : pydict (value Q) :=
  [("x", Array [1%Q; 2%Q]); ("a", Scalar 3%Q); ("b", Scalar (-1)%Q)].

Definition linear_heap : gmap nat (pydict (value Q)) := {[ 0 := linear_inp ]}.

(** One output, a vector input of three elements and a scalar parameter;
    the derivative with respect to the parameter is the number 5. *)
Definition summary_inp : pydict (value Q) :=
  [("x", Array [1%Q; 2%Q; 3%Q]); ("a", Scalar 2%Q)].

Definition summary_jac_dict : pydict (pydict (value Q)) :=
  [("y", [("x", Array [2%Q; 2%Q; 2%Q]); ("a", Scalar 5%Q)])].

End ForwardModelInputs.

(** ** [Autograd]: the forward model as a node of torch's graph *)

Module Bridge.
Import ForwardModel.

(** What [Autograd.forward] uses of the forward model it wraps. The
    Jacobian may be the finite-difference one or the user's own. *)
Record forward_model := {
  input_sensors : list string;
  prms_def : pydict string;
  output_sensors : list string;
  response : pydict (value Q) → result (pydict (value Q));
  jacobian : pydict (value Q) → result (pydict (pydict (value (option Q))))
}.

(** numpy's [a[s:e] = v]: the slice is cut to the bounds of [a]. *)
Definition slice_assign (a : list Q) (s e : nat) (v : value Q)
  : result (list Q) :=
  let s' := s `min` length a in
  let e' := e `min` length a in
  xs ← broadcast_to (e' - s') v;
  Ret (take s' a ++ xs ++ drop (s' + (e' - s')) a).

(** Lines 176-181 *)
Fixpoint for_response (i n3 : nat) (response_items : pydict (value Q))
         (st : list Q * pydict nat) : result (list Q * pydict nat) :=
  match response_items with
  | [] => Ret st
  | (key, value) :: rest =>
      let n_elements := len_or_one value in
      let idx_start := i * n3 in
      let idx_end := idx_start + n_elements in
      response_numpy ← slice_assign (fst st) idx_start idx_end value;
      for_response (S i) n3 rest
                   (response_numpy, dict_set (snd st) key n_elements)
  end.

(** Lines 154-161: [inp] from the keys and the positional values *)
Definition make_inp (fm : forward_model) (values : list (value Q))
  : pydict (value Q) :=
  let keys := input_sensors fm ++ dict_values (prms_def fm) in
  fold_left (fun inp kv => dict_set inp (fst kv) (snd kv))
            (zip keys values) [].

(** What a call of [Autograd.forward] leaves behind. *)
Record forward_result := {
  y_torch : list Q;
  saved_jacobian : ndarray3 (option Q);
  response_structure : pydict nat
}.

(** [Autograd.forward]: it returns [y_torch], saves the Jacobian in [ctx]
    and sets [forward_model.response_structure]. *)
Definition forward (fm : forward_model) (values : list (value Q))
  : result forward_result :=
  let inp := make_inp fm values in
  response_dict ← response fm inp;
  jac_dict ← jacobian fm inp;
  jac_numpy ← jacobian_dict_to_array (Some 0%Q) (output_sensors fm) inp
                                     jac_dict;
  let n1 := fst (fst (shape jac_numpy)) in
  let n3 := snd (shape jac_numpy) in
  st ← for_response 0 n3 response_dict (replicate (n1 * n3) 0%Q, []);
  Ret {| y_torch := fst st;
         saved_jacobian := jac_numpy;
         response_structure := snd st |}.

(** The forward model called through the replaced [call]: the vector of
    [forward] goes through [__call__], which reads the
    [response_structure] that [forward] has just set. *)
Definition call_through_autograd (fm : forward_model)
           (values : list (value Q)) : result (pydict (value Q)) :=
  r ← forward fm values;
  Ret (call_dunder (response_structure r) (ResVector (y_torch r))).

(** *** [Autograd.backward] *)

Section Backward.

(** The numbers of the tensors with their sum and product. *)
Context {A : Type} (zero : A) (add mul : A → A → A).

Definition tsum (l : list A) : A := foldr add zero l.

(** [th.reshape(t, (s, 1, e))] of a flat tensor *)
Definition reshape (t : list A) (s e : nat)
  : result (list (list (list A))) :=
  if length t =? s * e
  then Ret ((fun k => [take e (drop (k * e) t)]) <$> seq 0 s)
  else Raise (ShapeError "shape is invalid for input")%string.

(** [th.transpose(t, 1, 2)] of a tensor of shape (s, i, e) *)
Definition transpose (t : list (list (list A))) (i e : nat)
  : list (list (list A)) :=
  (fun m => (fun c => (fun r => nth c (nth r m []) zero) <$> seq 0 i)
              <$> seq 0 e) <$> t.

(** The product of a matrix with [n] columns and a matrix with [n] rows
    and [cols] columns *)
Definition matmul2 (a b : list (list A)) (n cols : nat) : list (list A) :=
  (fun row =>
     (fun c => tsum ((fun k => mul (nth k row zero) (nth c (nth k b []) zero))
                       <$> seq 0 n)) <$> seq 0 cols) <$> a.

(** [th.matmul] of two tensors with three axes: matrix by matrix along
    the first axis *)
Definition matmul (a b : list (list (list A))) (n cols : nat)
  : list (list (list A)) :=
  zip_with (fun x y => matmul2 x y n cols) a b.

(** [th.sum(t, dim=0)] of a tensor of shape (s, rows, cols) *)
Definition sum_dim0 (t : list (list (list A))) (rows cols : nat)
  : list (list A) :=
  (fun r => (fun c => tsum ((fun m => nth c (nth r m []) zero) <$> t))
              <$> seq 0 cols) <$> seq 0 rows.

(** [Autograd.backward] *)
Definition backward (dy_dtheta : ndarray3 A) (dl_dy_0 : list A)
           (needs_input_grad : list bool) : result (list (option A)) :=
  let s := fst (fst (shape dy_dtheta)) in
  let i := snd (fst (shape dy_dtheta)) in
  let e := snd (shape dy_dtheta) in
  dl_dy ← reshape dl_dy_0 s e;
  let dy_dtheta_transposed := transpose (data dy_dtheta) i e in
  let grad_total := matmul dl_dy dy_dtheta_transposed e i in
  let grad_total := sum_dim0 grad_total 1 i in
  Ret (zip_with (fun (required : bool) grad =>
                   if required then Some grad else None)
                needs_input_grad (concat grad_total)).

(** The tensor has the entries its shape announces. *)
Definition well_shaped (t : ndarray3 A) : Prop :=
  length (data t) = fst (fst (shape t)) ∧
  Forall (fun m => length m = snd (fst (shape t)) ∧
                   Forall (fun r => length r = snd (shape t)) m) (data t).

(** The entry [t[s, i, e]] *)
Definition entry (t : ndarray3 A) (s i e : nat) : A :=
  nth e (nth i (nth s (data t) []) []) zero.

(** The chain rule: the sum over the sensors [s] and the elements [e] of
    [dl/dy[s, e] * dy/dtheta[s, i, e]] *)
Definition total_derivative (dy_dtheta : ndarray3 A) (dl_dy_0 : list A)
           (i : nat) : A :=
  let n_s := fst (fst (shape dy_dtheta)) in
  let n_e := snd (shape dy_dtheta) in
  tsum ((fun s =>
           tsum ((fun e => mul (nth (s * n_e + e) dl_dy_0 zero)
                               (entry dy_dtheta s i e)) <$> seq 0 n_e))
          <$> seq 0 n_s).

End Backward.

End Bridge.

(** What the round trip through [forward] and [__call__] needs. *)
Module BridgeSpec.
Import ForwardModel.

(** An output of exactly [n3] values *)
Definition full_row (n3 : nat) (kv : string * value Q) : Prop :=
  ∃ xs, snd kv = Array xs ∧ length xs = n3.

End BridgeSpec.

(** Concrete forward models and tensors used further down. *)
Module BridgeInputs.
Import ForwardModel Bridge.

(** The finite-difference Jacobian as the [jacobian] method of a forward
    model: [inp] is the only object to start with, and an entry that was
    never computed stays [None], which numpy stores as not-a-number. *)
Definition base_jacobian
           (response : pydict (value Q) → result (pydict (value Q)))
           (output_sensors : list string) (inp : pydict (value Q))
  : result (pydict (pydict (value (option Q)))) :=
  match fst (ForwardModel.jacobian response output_sensors 0 {[ 0 := inp ]})
  with
  | Ret jac_dict =>
      Ret ((fun os_row : string * pydict (option derivative) =>
              (fst os_row,
               (fun prm_entry : string * option derivative =>
                  (fst prm_entry, default (Scalar None) (snd prm_entry)))
                 <$> snd os_row)) <$> jac_dict)
  | Raise e => Raise e
  end.

(** A model with three points in time and two output sensors of one
    value each: [S1 = A * (t1 + t2 + t3)] and [S2 = A * A]. *)
Definition summary_response (inp : pydict (value Q))
  : result (pydict (value Q)) :=
  time ← dict_get inp "time";
  a ← dict_get inp "A";
  match a with
  | Scalar a =>
      Ret [("S1", Scalar (a * foldr Qplus 0 (elements time))%Q);
           ("S2", Scalar (a * a)%Q)]
  | Array _ => Raise (ValueError "A must be a number")
  end.

Definition summary_model : forward_model :=
  {| input_sensors := ["time"];
     prms_def := [("A", "A")];
     output_sensors := ["S1"; "S2"];
     response := summary_response;
     jacobian := base_jacobian summary_response ["S1"; "S2"] |}.

Definition summary_values : list (value Q) :=
  [Array [1%Q; 2%Q; 3%Q]; Scalar 2%Q].

(** The linear model with two points in time: both output sensors have
    as many values as the input sensor. *)
Definition two_sensor_response (inp : pydict (value Q))
  : result (pydict (value Q)) :=
  time ← dict_get inp "time";
  a ← dict_get inp "A";
  s1 ← broadcast2 Qmult a time;
  s2 ← broadcast2 Qplus a time;
  Ret [("S1", s1); ("S2", s2)].

Definition two_sensor_model : forward_model :=
  {| input_sensors := ["time"];
     prms_def := [("A", "A")];
     output_sensors := ["S1"; "S2"];
     response := two_sensor_response;
     jacobian := base_jacobian two_sensor_response ["S1"; "S2"] |}.

Definition two_sensor_values : list (value Q) :=
  [Array [1%Q; 2%Q]; Scalar 3%Q].

(** A Jacobian of two sensors, two inputs and two elements, the gradient
    that comes in, and the flags of the inputs: the first input is a
    sensor value, the second a sampled parameter. *)
Definition small_jacobian : ndarray3 Q :=
  {| shape := (2, 2, 2);
     data := [[[1%Q; 2%Q]; [3%Q; 4%Q]]; [[5%Q; 6%Q]; [7%Q; 8%Q]]] |}.

Definition small_dl_dy : list Q := [1%Q; 1%Q; 1%Q; 1%Q].

Definition small_needs_input_grad : list bool := [false; true].

End BridgeInputs.

(** ** [loglike] and the objects of [run_pyro_solver] *)

Module Solver.
Import Heap ForwardModel.

(** *** [loglike] *)

(** pyro's trace: the log-probabilities of the observed sites, which
    [sample_cond_likelihood] adds to. *)
Abbreviation trace := (list Q).

(** What a Python function returns here: a tensor, or [None] when it has
    no [return]. *)
Inductive pyobj :=
| PyNone
| PyTensor (x : Q).

Section Loglike.

Variables Theta Response Prms : Type.

Record noise_model := {
  experiment_names : list string;
  nm_prms_def : pydict string;
  sample_cond_likelihood : Response → Prms → trace → trace
}.

(** Methods of the problem object, which is not among the sources. *)
Variable evaluate_model_response : Theta → list string → Response.
Variable get_parameters : Theta → pydict string → Prms.

(** Lines 317-324 *)
Fixpoint for_noise_model (noise_models : list noise_model) (theta : Theta)
         (tr : trace) : trace :=
  match noise_models with
  | [] => tr
  | nm :: rest =>
      let model_response :=
        evaluate_model_response theta (experiment_names nm) in
      let prms_noise := get_parameters theta (nm_prms_def nm) in
      for_noise_model rest theta
        (sample_cond_likelihood nm model_response prms_noise tr)
  end.

(** [loglike]: the loop and no [return]. *)
Definition loglike (noise_models : list noise_model) (theta : Theta)
           (tr : trace) : pyobj * trace :=
  (PyNone, for_noise_model noise_models theta tr).

End Loglike.

(** *** The objects

    A problem refers to its forward models; a forward model carries the
    attribute [call] and the attribute [response_structure]. *)

Inductive call_method :=
| CallResponse
| CallAutograd (forward_model : loc).

Record forward_model_obj := {
  fm_call : call_method;
  fm_response_structure : pydict nat
}.

Record problem_obj (P E N : Type) := {
  parameters : P;
  experiments : E;
  noise_models : N;
  forward_models : pydict loc
}.
Arguments parameters {P E N} p.
Arguments experiments {P E N} p.
Arguments noise_models {P E N} p.
Arguments forward_models {P E N} p.
Arguments Build_problem_obj {P E N} parameters experiments noise_models
  forward_models.

Inductive obj (P E N : Type) :=
| ProblemObj (p : problem_obj P E N)
| ForwardModelObj (f : forward_model_obj).
Arguments ProblemObj {P E N} p.
Arguments ForwardModelObj {P E N} f.

Section RunPyroSolver.

Variables P E N : Type.

Abbreviation objheap := (gmap loc (obj P E N)).
Abbreviation H := (Heap.M (obj P E N)).

(** Modelled from the spec: [transform_experimental_data] and
    [assign_experiments_to_noise_models] of the problem class are not
    among the sources; they act on the experiments and on the noise
    models of the problem they are called on. *)
Variable from_numpy : E → E.
Variable assign : E → N → N.

(** The response structure a forward model gets from an evaluation. *)
Variable structure_of : string → nat → pydict nat.

Definition deref_problem (l : loc) : H (problem_obj P E N) :=
  o ← deref l;
  match o with
  | ProblemObj p => ret p
  | ForwardModelObj _ => raise (ValueError "not a problem")
  end.

Definition deref_forward_model (l : loc) : H forward_model_obj :=
  o ← deref l;
  match o with
  | ForwardModelObj f => ret f
  | ProblemObj _ => raise (ValueError "not a forward model")
  end.

(** [cp.deepcopy] of the forward models a problem refers to; [memo] maps
    the objects copied so far to their copies. *)
Fixpoint deepcopy_forward_models (fms : pydict loc) (memo : list (loc * loc))
  : H (pydict loc) :=
  match fms with
  | [] => ret []
  | (name, l) :: rest =>
      match list_find (fun m => fst m = l) memo with
      | Some (_, (_, l')) =>
          rest' ← deepcopy_forward_models rest memo;
          ret ((name, l') :: rest')
      | None =>
          f ← deref_forward_model l;
          l' ← alloc (ForwardModelObj f);
          rest' ← deepcopy_forward_models rest ((l, l') :: memo);
          ret ((name, l') :: rest')
      end
  end.

(** [cp.deepcopy(problem)] *)
Definition deepcopy (l : loc) : H loc :=
  p ← deref_problem l;
  fms ← deepcopy_forward_models (forward_models p) [];
  alloc (ProblemObj {| parameters := parameters p;
                       experiments := experiments p;
                       noise_models := noise_models p;
                       forward_models := fms |}).

(** [cp.copy(problem)], for comparison: the copy refers to the same
    forward models. *)
Definition shallow_copy (l : loc) : H loc :=
  p ← deref_problem l;
  alloc (ProblemObj p).

Definition transform_experimental_data (l : loc) : H loc :=
  p ← deref_problem l;
  _ ← store l (ProblemObj {| parameters := parameters p;
                             experiments := from_numpy (experiments p);
                             noise_models := noise_models p;
                             forward_models := forward_models p |});
  ret l.

Definition assign_experiments_to_noise_models (l : loc) : H unit :=
  p ← deref_problem l;
  store l (ProblemObj {| parameters := parameters p;
                         experiments := experiments p;
                         noise_models := assign (experiments p)
                                                (noise_models p);
                         forward_models := forward_models p |}).

(** Lines 270-272: [setattr(forward_model, 'call', ...)]; the new method
    closes over the forward model it is set on. *)
Fixpoint translate_forward_models (fms : list loc) : H unit :=
  match fms with
  | [] => ret tt
  | l :: rest =>
      f ← deref_forward_model l;
      _ ← store l (ForwardModelObj
                     {| fm_call := CallAutograd l;
                        fm_response_structure := fm_response_structure f |});
      translate_forward_models rest
  end.

(** One evaluation of a forward model through [__call__]: with the
    replaced [call], [Autograd.forward] sets [response_structure] on the
    forward model it closes over. *)
Definition evaluate_forward_model (name : string) (step : nat) (l : loc)
  : H unit :=
  f ← deref_forward_model l;
  match fm_call f with
  | CallResponse => ret tt
  | CallAutograd target =>
      g ← deref_forward_model target;
      store target (ForwardModelObj
                      {| fm_call := fm_call g;
                         fm_response_structure := structure_of name step |})
  end.

Fixpoint evaluate_forward_models (fms : pydict loc) (step : nat) : H unit :=
  match fms with
  | [] => ret tt
  | (name, l) :: rest =>
      _ ← evaluate_forward_model name step l;
      evaluate_forward_models rest step
  end.

(** [mcmc.run()]: [n] evaluations of [posterior_model], each of which
    evaluates the forward models of the problem. *)
Fixpoint mcmc_run (problem : loc) (n : nat) : H unit :=
  match n with
  | 0 => ret tt
  | S n' =>
      p ← deref_problem problem;
      _ ← evaluate_forward_models (forward_models p) n';
      mcmc_run problem n'
  end.

(** The statements of [run_pyro_solver] that touch objects. *)
Definition run_pyro_solver_with
           (copy : loc → H loc) (problem_ori : loc) (n_evaluations : nat)
  : H unit :=
  problem ← copy problem_ori;
  problem ← transform_experimental_data problem;
  _ ← assign_experiments_to_noise_models problem;
  p ← deref_problem problem;
  _ ← translate_forward_models (dict_values (forward_models p));
  mcmc_run problem n_evaluations.

Definition run_pyro_solver : loc → nat → H unit :=
  run_pyro_solver_with deepcopy.

End RunPyroSolver.

End Solver.

(** What the statements of [run_pyro_solver] establish about the objects
    that are not among those of the store [σ0] it was called on. *)
Module SolverSpec.
Import Heap ForwardModel Solver.

Section WithProblem.
Context {P E N : Type}.
Variable σ0 : gmap loc (obj P E N).

(** The forward models referred to are new objects. *)
Definition fresh_fms (fms : pydict loc) : Prop :=
  Forall (fun nl : string * loc => σ0 !! snd nl = None) fms.

(** The copy: a new problem object that refers to new forward models. *)
Definition copied (problem : loc) (σ : gmap loc (obj P E N)) : Prop :=
  σ0 !! problem = None ∧
  ∃ p, σ !! problem = Some (ProblemObj p) ∧ fresh_fms (forward_models p).

(** The closures of the forward models in [S] are over new objects. *)
Definition closures_fresh (S : loc → Prop) (σ : gmap loc (obj P E N))
  : Prop :=
  ∀ l f t, S l → σ !! l = Some (ForwardModelObj f) →
           fm_call f = CallAutograd t → σ0 !! t = None.

Definition problem_at (problem : loc) (p : problem_obj P E N)
           (σ : gmap loc (obj P E N)) : Prop :=
  σ !! problem = Some (ProblemObj p).

(** The problem object is in place and the closures of its forward models
    are over new objects. *)
Definition ready (problem : loc) (p : problem_obj P E N)
           (σ : gmap loc (obj P E N)) : Prop :=
  problem_at problem p σ ∧
  closures_fresh (fun l => l ∈ dict_values (forward_models p)) σ.

End WithProblem.

End SolverSpec.

(** A concrete problem used further down. *)
Module SolverInputs.
Import Heap ForwardModel Solver.

(** Parameters are names, experiments are named data, a noise model has
    the names of its experiments. *)
Abbreviation P := (list string).
Abbreviation E := (pydict (list Q)).
Abbreviation N := (pydict (list string)).

(** [th.from_numpy] keeps the numbers. *)
Definition from_numpy (e : E) : E := e.

(** Every noise model gets every experiment. *)
Definition assign (e : E) (n : N) : N :=
  (fun nm : string * list string => (fst nm, dict_keys e)) <$> n.

Definition structure_of (name : string) (step : nat) : pydict nat :=
  [("y", 2)].

(** The problem of the linear regression test and its forward model. *)
Definition problem_ori : problem_obj P E N :=
  {| parameters := ["a"; "b"; "sigma"];
     experiments := [("Tests", [1%Q; 2%Q])];
     noise_models := [("noise", [])];
     forward_models := [("LinRe", 1)] |}.

Definition lin_re : forward_model_obj :=
  {| fm_call := CallResponse; fm_response_structure := [] |}.

Definition store_ori : gmap loc (obj P E N) :=
  {[ 0 := ProblemObj problem_ori; 1 := ForwardModelObj lin_re ]}.

(** One noise model whose likelihood adds the log-probability -3/2 to
    the trace. *)
Definition one_noise_model : noise_model unit unit :=
  {| experiment_names := ["Tests"];
     nm_prms_def := [("sigma", "sigma")];
     sample_cond_likelihood := fun _ _ tr => tr ++ [(-3 # 2)%Q] |}.

End SolverInputs.

(** The latent parameters of a calibration with a prior on a prior: the
    location of the prior of [a] is the latent parameter [loc_a], which is
    listed after [a]. *)
Module CalibrationInputs.
Import Resolver.

Definition latent_prms : list string := ["a"; "loc_a"; "b"; "sigma"].

Definition hyperparameters (prm_name : string) : list string :=
  if String.eqb prm_name "a" then ["loc_a"; "scale_a"]
  else if String.eqb prm_name "loc_a" then ["low_loc_a"; "high_loc_a"]
  else if String.eqb prm_name "b" then ["loc_b"; "scale_b"]
  else ["low_sigma"; "high_sigma"].

(** Two latent parameters whose priors refer to each other. *)
Definition mutual_prms : list string := ["a"; "b"].

Definition mutual_hyperparameters (prm_name : string) : list string :=
  if String.eqb prm_name "a" then ["b"; "scale_a"] else ["a"; "scale_b"].

End CalibrationInputs.

(** The wrapper that [translate_forward_model] puts around
    [Autograd.apply]. *)
Module Wrapper.
Import ForwardModel.

(** Lines 105-116: the wrapper calls [func] on the values of [inp], in
    their order, as positional arguments. *)
Definition only_values {A} (func : list (value Q) → A)
           (inp : pydict (value Q)) : A :=
  func (dict_values inp).

End Wrapper.

(** ** [get_theta_samples] *)

Module Sampling.
Import ForwardModel.

Section GetThetaSamples.

(** Tensors, and what pyro keeps from one sample to the next: the state
    of its random number generator and its trace. *)
Variables T S : Type.

(** A prior object of the solver, which is not among the sources: the
    names of its hyperparameters, in the order of the keys of
    [prior_obj.hyperparameters], and its method [sample]. *)
Record prior_obj := {
  hyperparameters : list string;
  sample : pydict T → S → T * S
}.

(** [problem.parameters[name].value] *)
Variable value_of : string → result T.

(** Lines 289-295: the loop over the names of the hyperparameters *)
Fixpoint for_name (names : list string)
         (pyro_parameter_samples hyperprms_dict : pydict T)
  : result (pydict T) :=
  match names with
  | [] => Ret hyperprms_dict
  | name :: rest =>
      v ← (if Resolver.contains (dict_keys pyro_parameter_samples) name
           then dict_get pyro_parameter_samples name
           else value_of name);
      for_name rest pyro_parameter_samples (dict_set hyperprms_dict name v)
  end.

(** Lines 287-297: the loop over [priors.items()] *)
Fixpoint for_prior (priors : pydict prior_obj)
         (pyro_parameter_samples : pydict T) (s : S)
  : result (pydict T) * S :=
  match priors with
  | [] => (Ret pyro_parameter_samples, s)
  | (ref_prm, prior) :: rest =>
      match for_name (hyperparameters prior) pyro_parameter_samples [] with
      | Raise e => (Raise e, s)
      | Ret hyperprms_dict =>
          let vs := sample prior hyperprms_dict s in
          for_prior rest (dict_set pyro_parameter_samples ref_prm (fst vs))
                    (snd vs)
      end
  end.

(** [get_theta_samples] *)
Definition get_theta_samples (priors : pydict prior_obj) (s : S)
  : result (list T) * S :=
  match for_prior priors [] s with
  | (Ret pyro_parameter_samples, s') =>
      (Ret (dict_values pyro_parameter_samples), s')
  | (Raise e, s') => (Raise e, s')
  end.

End GetThetaSamples.

Arguments hyperparameters {T S} p.
Arguments sample {T S} p.
Arguments Build_prior_obj {T S} hyperparameters sample.

End Sampling.

(** A prior on a prior: [loc_a] is sampled between 0 and 1 and [a]
    around it; the state counts the samples drawn. *)
Module SamplingInputs.
Import ForwardModel Sampling.

Definition value_of (name : string) : result Q :=
  if String.eqb name "low_loc_a" then Ret 0%Q
  else if String.eqb name "high_loc_a" then Ret 1%Q
  else if String.eqb name "scale_a" then Ret 2%Q
  else Raise (KeyError name).

(** A draw that returns the middle of the interval *)
Definition uniform : prior_obj Q nat :=
  {| hyperparameters := ["low_loc_a"; "high_loc_a"];
     sample := fun hyperprms_dict n =>
       (match dict_get hyperprms_dict "low_loc_a",
              dict_get hyperprms_dict "high_loc_a" with
        | Ret low, Ret high => ((low + high) / 2)%Q
        | _, _ => 0%Q
        end, S n) |}.

(** A draw that returns the location plus the scale *)
Definition normal : prior_obj Q nat :=
  {| hyperparameters := ["loc_a"; "scale_a"];
     sample := fun hyperprms_dict n =>
       (match dict_get hyperprms_dict "loc_a",
              dict_get hyperprms_dict "scale_a" with
        | Ret loc, Ret scale => (loc + scale)%Q
        | _, _ => 0%Q
        end, S n) |}.

Definition priors : pydict (prior_obj Q nat) :=
  [("loc_a", uniform); ("a", normal)].


End SamplingInputs.

(** The loop of [jacobian] as a function of the contents of [inp]. *)
Module JacobianSpec.
Import ForwardModel.

Section WithModel.
Variable response : pydict (value Q) → result (pydict (value Q)).
Variable output_sensors : list string.

(** One turn of the loop of lines 168-181 on the dict [d] that [inp]
    refers to *)
Definition turn (d : pydict (value Q)) (prm_name : string)
           (jac_dict : jac_dict_t) : result jac_dict_t :=
  x ← dict_get d prm_name;
  x_minus_h ← broadcast2 Qminus x (vmap step x);
  x_plus_h ← broadcast2 Qplus x (vmap step x);
  response_dict_left ← response (dict_set d prm_name x_minus_h);
  response_dict_right ← response (dict_set d prm_name x_plus_h);
  for_output_sensor output_sensors prm_name response_dict_left
                    response_dict_right (vmap (Qmult 2) (vmap step x))
                    jac_dict.

Fixpoint turns (d : pydict (value Q)) (prm_names : list string)
         (jac_dict : jac_dict_t) : result jac_dict_t :=
  match prm_names with
  | [] => Ret jac_dict
  | prm_name :: rest =>
      jac_dict' ← turn d prm_name jac_dict;
      turns d rest jac_dict'
  end.

(** The derivative of the output [os_name] with respect to [prm_name]
    at [d]: the central difference of the responses at [d] with
    [prm_name] alone moved by the step. *)
Definition central_difference (d : pydict (value Q))
           (os_name prm_name : string) (q : derivative) : Prop :=
  ∃ x x_minus_h x_plus_h response_dict_left response_dict_right r l diff,
    dict_get d prm_name = Ret x ∧
    broadcast2 Qminus x (vmap step x) = Ret x_minus_h ∧
    broadcast2 Qplus x (vmap step x) = Ret x_plus_h ∧
    response (dict_set d prm_name x_minus_h) = Ret response_dict_left ∧
    response (dict_set d prm_name x_plus_h) = Ret response_dict_right ∧
    dict_get response_dict_right os_name = Ret r ∧
    dict_get response_dict_left os_name = Ret l ∧
    broadcast2 Qminus r l = Ret diff ∧
    broadcast2 divide diff (vmap (Qmult 2) (vmap step x)) = Ret q.

End WithModel.

End JacobianSpec.

(** The vector of [forward], row by row. *)
Module LayoutSpec.
Import ForwardModel.

(** The values of an output followed by zeros up to [n3] entries *)
Definition padded (n3 : nat) (kv : string * value Q) : list Q :=
  elements (snd kv) ++ replicate (n3 - len_or_one (snd kv)) 0%Q.

(** An output as [__call__] gives it back: a slice of the vector *)
Definition as_array (kv : string * value Q) : string * value Q :=
  (fst kv, Array (elements (snd kv))).

End LayoutSpec.

(** * Proofs *)

Module ResolverFacts.
Import Resolver ResolverSpec.

Lemma elem_of_keys (d : items) k :
  k ∈ keys d ↔ ∃ v, (k, v) ∈ d.
Proof.
  unfold keys. rewrite list_elem_of_fmap. split.
  - intros [[k' v] [-> H]]. by exists v.
  - intros [v H]. by exists (k, v).
Qed.

Lemma getitem_elem_of (d : items) k v :
  NoDup (keys d) → (k, v) ∈ d → getitem d k = Ret v.
Proof.
  induction d as [|[k' v'] d IH]; intros Hnd Hin.
  - by apply elem_of_nil in Hin.
  - simpl in *. apply NoDup_cons in Hnd as [Hk' Hnd].
    apply elem_of_cons in Hin as [Heq|Hin].
    + inversion Heq; subst. by rewrite String.eqb_refl.
    + destruct (String.eqb_spec k' k) as [->|Hne].
      * exfalso. apply Hk'. apply elem_of_keys. by exists v.
      * by apply IH.
Qed.

Lemma index_lookup (l : list string) j k :
  NoDup l → l !! j = Some k → index l k = Ret j.
Proof.
  revert j. induction l as [|x l IH]; intros j Hnd Hj; [done|].
  apply NoDup_cons in Hnd as [Hx Hnd]. destruct j as [|j]; simpl in *.
  - inversion Hj; subst. by rewrite String.eqb_refl.
  - destruct (String.eqb_spec x k) as [->|Hne].
    + exfalso. apply Hx. by eapply list_elem_of_lookup_2.
    + by rewrite (IH j Hnd Hj).
Qed.

Lemma setitem_fresh (d : items) k v :
  k ∉ keys d → setitem d k v = d ++ [(k, v)].
Proof.
  induction d as [|[k' v'] d IH]; intros Hk; [done|]. simpl in *.
  apply not_elem_of_cons in Hk as [Hne Hk].
  destruct (String.eqb_spec k' k) as [->|_]; [done|]. by rewrite IH.
Qed.

Lemma dict_fold_nodup (t acc : items) :
  NoDup (keys (acc ++ t)) →
  fold_left (fun d kv => setitem d (fst kv) (snd kv)) t acc = acc ++ t.
Proof.
  revert acc. induction t as [|[k v] t IH]; intros acc Hnd; simpl.
  - by rewrite app_nil_r.
  - assert (Hk : k ∉ keys acc).
    { unfold keys in Hnd. rewrite fmap_app in Hnd.
      apply NoDup_app in Hnd as (_ & Hdis & _). intros Hin.
      apply (Hdis k Hin). simpl. left. }
    rewrite (setitem_fresh _ _ _ Hk).
    replace (acc ++ (k, v) :: t) with ((acc ++ [(k, v)]) ++ t) in *
      by (by rewrite <- app_assoc).
    by apply IH.
Qed.

(** [dict] of a list of tuples with distinct keys is that list. *)
Lemma dict_nodup (t : items) : NoDup (keys t) → dict t = t.
Proof. intros H. unfold dict. by rewrite (dict_fold_nodup t []). Qed.

Lemma contains_elem_of (l : list string) k : contains l k = true ↔ k ∈ l.
Proof.
  unfold contains. rewrite existsb_exists. split.
  - intros (x & Hx & Heq). apply String.eqb_eq in Heq. subst.
    by apply list_elem_of_In.
  - intros H. exists k. split; [by apply list_elem_of_In|apply String.eqb_refl].
Qed.

Lemma swap_one_perm {A} (l : list A) j a b :
  l !! j = Some b → b :: <[j:=a]> l ≡ₚ a :: l.
Proof.
  revert j. induction l as [|x l IH]; intros [|j] H; simplify_eq/=.
  - apply Permutation_swap.
  - etrans; [apply Permutation_swap|].
    etrans; [|apply Permutation_swap]. constructor. by apply IH.
Qed.

Lemma insert_swap_perm {A} (l : list A) i j a b :
  l !! i = Some a → l !! j = Some b → <[j:=a]> (<[i:=b]> l) ≡ₚ l.
Proof.
  revert i j. induction l as [|x l IH]; intros [|i] [|j] Hi Hj;
    simplify_eq/=; try done.
  - by apply swap_one_perm.
  - by apply swap_one_perm.
  - constructor. by apply IH.
Qed.

Lemma swap_lt (d : items) i j a b :
  d !! i = Some a → d !! j = Some b → i < j →
  ∃ d', swap d i j = Ret d' ∧ d' ≡ₚ d ∧ take i d' = take i d ∧
        d' !! i = Some b.
Proof.
  intros Hi Hj Hlt. exists (<[j:=a]> (<[i:=b]> d)). unfold swap.
  rewrite Hi, Hj. split_and!; [done| |..].
  - by apply insert_swap_perm.
  - rewrite take_insert_ge by lia. by rewrite take_insert_ge by lia.
  - rewrite list_lookup_insert_ne by lia.
    apply list_lookup_insert_eq. by eapply lookup_lt_Some.
Qed.

Lemma depends_perm (d d' : items) k dep :
  d' ≡ₚ d → depends d' k dep ↔ depends d k dep.
Proof.
  intros Hp. unfold depends. split; intros (deps & H1 & H2); exists deps;
    split; try done; [by rewrite <- Hp | by rewrite Hp].
Qed.

Lemma keys_perm (d d' : items) : d' ≡ₚ d → keys d' ≡ₚ keys d.
Proof. intros Hp. unfold keys. by rewrite Hp. Qed.

Lemma inv_perm (d d' : items) : d' ≡ₚ d → inv d → inv d'.
Proof.
  intros Hp (Hnd & Hcl & Hmut). split_and!.
  - by rewrite (keys_perm _ _ Hp).
  - intros k dep H. rewrite (keys_perm _ _ Hp). apply (Hcl k).
    by apply (depends_perm d d').
  - intros k dep H1 H2. apply (Hmut k dep); by apply (depends_perm d d').
Qed.

Lemma key_position (d : items) k :
  k ∈ keys d → ∃ j v, d !! j = Some (k, v) ∧ keys d !! j = Some k.
Proof.
  intros H. apply list_elem_of_lookup_1 in H as [j Hj]. exists j.
  unfold keys in *. rewrite list_lookup_fmap in Hj.
  destruct (d !! j) as [[k' v]|] eqn:E; simplify_eq/=.
  exists v. split; [done|]. by rewrite list_lookup_fmap, E.
Qed.

Lemma keys_lookup (d : items) j k v :
  d !! j = Some (k, v) → keys d !! j = Some k.
Proof. intros H. unfold keys. by rewrite list_lookup_fmap, H. Qed.

Lemma for_dependency_cons idx K dep rest (st : state) :
  for_dependency idx K (dep :: rest) st =
  match getitem (fst st) dep with
  | Ret v =>
      if contains v K then Raise (RuntimeError K dep)
      else match index (keys (fst st)) dep with
           | Ret j =>
               if idx <? j then
                 match swap (fst st) idx j with
                 | Ret t => for_dependency idx K rest (dict t, false)
                 | Raise e => Raise e
                 end
               else for_dependency idx K rest st
           | Raise e => Raise e
           end
  | Raise e => Raise e
  end.
Proof.
  simpl. unfold mbind, result_bind.
  destruct (getitem (fst st) dep); [|done].
  destruct (contains a K); [done|].
  destruct (index (keys (fst st)) dep); [|done].
  by destruct (idx <? a0).
Qed.

(** The loop over the dependencies of [K], started at place [idx], never
    raises on a dict without mutual dependencies; it leaves the places
    before [idx] alone and either changes nothing, all dependencies being
    at [idx] or before, or it ends with a dependency of [K] at [idx]. *)
Lemma for_dependency_spec idx K depsK deps : ∀ d c,
  inv d → idx < length d → (K, depsK) ∈ d → deps ⊆ depsK →
  ∃ d' c', for_dependency idx K deps (d, c) = Ret (d', c') ∧
    d' ≡ₚ d ∧ take idx d' = take idx d ∧
    ((d' = d ∧ c' = c ∧
      ∀ dep, dep ∈ deps → ∃ j, keys d !! j = Some dep ∧ j ≤ idx)
     ∨ (c' = false ∧
        (∃ dep deps', dep ∈ deps ∧ d' !! idx = Some (dep, deps')) ∧
        (∃ dep j, dep ∈ deps ∧ keys d !! j = Some dep ∧ idx < j))).
Proof.
  induction deps as [|dep rest IH]; intros d c Hinv Hidx HK Hsub.
  - exists d, c. split_and!; try done. left. split_and!; try done.
    intros dep H. by apply elem_of_nil in H.
  - assert (Hdep : depends d K dep).
    { exists depsK. split; [done|]. apply Hsub. left. }
    assert (Hrest : rest ⊆ depsK).
    { intros x Hx. apply Hsub. by right. }
    destruct Hinv as (Hnd & Hcl & Hmut).
    destruct (key_position d dep (Hcl _ _ Hdep)) as (j & deps' & Hj & Hkj).
    rewrite for_dependency_cons. simpl fst.
    rewrite (getitem_elem_of d dep deps' Hnd)
      by (by eapply list_elem_of_lookup_2).
    destruct (contains deps' K) eqn:Hc.
    { exfalso. apply (Hmut K dep Hdep). exists deps'.
      split; [by eapply list_elem_of_lookup_2|by apply contains_elem_of]. }
    rewrite (index_lookup _ _ _ Hnd Hkj).
    destruct (Nat.ltb_spec idx j) as [Hlt|Hge].
    + destruct (lookup_lt_is_Some_2 d idx Hidx) as [a Ha].
      destruct (swap_lt d idx j a (dep, deps') Ha Hj Hlt)
        as (d1 & -> & Hp1 & Ht1 & Hi1).
      assert (Hinv1 : inv d1) by (by apply (inv_perm d)).
      rewrite (dict_nodup d1) by apply Hinv1.
      destruct (IH d1 false Hinv1) as (d' & c' & -> & Hp & Ht & Hcase).
      { by rewrite Hp1. } { by rewrite Hp1. } { done. }
      exists d', c'. split_and!; [done|by rewrite Hp|by rewrite Ht|].
      right. destruct Hcase as [(-> & -> & _)|(-> & (x & dx & Hx & Hlx) & _)].
      * split_and!; [done| |].
        -- exists dep, deps'. split; [left|done].
        -- exists dep, j. split_and!; [left|done|done].
      * split_and!; [done| |].
        -- exists x, dx. split; [by right|done].
        -- exists dep, j. split_and!; [left|done|done].
    + destruct (IH d c) as (d' & c' & -> & Hp & Ht & Hcase); try done.
      exists d', c'. split_and!; try done.
      destruct Hcase as [(-> & -> & Hall)|(-> & (x & dx & Hx & Hlx) & (y & jy & Hy & Hjy & Hlt))].
      * left. split_and!; try done. intros x Hx.
        apply elem_of_cons in Hx as [->|Hx]; [|by apply Hall].
        exists j. split; [done|lia].
      * right. split_and!; [done| |].
        -- exists x, dx. split; [by right|done].
        -- exists y, jy. split_and!; [by right|done|done].
Qed.

Lemma for_idx_cons idx rest (st : state) :
  for_idx (idx :: rest) st =
  match keys (fst st) !! idx with
  | Some K =>
      match getitem (fst st) K with
      | Ret deps =>
          match for_dependency idx K deps st with
          | Ret st' => for_idx rest st'
          | Raise e => Raise e
          end
      | Raise e => Raise e
      end
  | None => Raise (IndexError idx)
  end.
Proof.
  simpl. unfold mbind, result_bind.
  destruct (keys (fst st) !! idx); [|done].
  by destruct (getitem (fst st) s).
Qed.

Lemma for_idx_app l1 l2 : ∀ st,
  for_idx (l1 ++ l2) st =
  match for_idx l1 st with
  | Ret st' => for_idx l2 st'
  | Raise e => Raise e
  end.
Proof.
  induction l1 as [|idx l1 IH]; intros st; [done|].
  rewrite <- app_comm_cons, !for_idx_cons.
  destruct (keys (fst st) !! idx); [|done].
  destruct (getitem (fst st) s); [|done].
  destruct (for_dependency idx s a st); [|done]. apply IH.
Qed.

(** The loop over places that are all [b] or later leaves the places
    before [b] alone. *)
Lemma for_idx_frame b idxs : ∀ d c,
  inv d → Forall (fun i => b ≤ i < length d) idxs →
  ∃ d' c', for_idx idxs (d, c) = Ret (d', c') ∧ d' ≡ₚ d ∧
           take b d' = take b d ∧ (c = false → c' = false).
Proof.
  induction idxs as [|idx idxs IH]; intros d c Hinv Hall.
  - by exists d, c.
  - apply Forall_cons in Hall as [[Hb Hidx] Hall].
    destruct (lookup_lt_is_Some_2 d idx Hidx) as [[K depsK] HK].
    rewrite for_idx_cons. simpl fst. rewrite (keys_lookup _ _ _ _ HK).
    rewrite (getitem_elem_of d K depsK)
      by (apply Hinv || by eapply list_elem_of_lookup_2).
    destruct (for_dependency_spec idx K depsK depsK d c)
      as (d1 & c1 & -> & Hp1 & Ht1 & Hcase); try done.
    { by eapply list_elem_of_lookup_2. }
    destruct (IH d1 c1) as (d' & c' & -> & Hp & Ht & Hc).
    { by apply (inv_perm d). }
    { eapply Forall_impl; [exact Hall|]. intros i Hi. simpl in Hi.
      by rewrite (Permutation_length Hp1). }
    exists d', c'. split_and!; [done|by rewrite Hp| |].
    + rewrite Ht.
      replace b with (b `min` idx) by lia. by rewrite <- !take_take, Ht1.
    + intros ->. apply Hc. by destruct Hcase as [(_ & -> & _)|(-> & _)].
Qed.

(** At places that are settled the loop changes nothing. *)
Lemma for_idx_settled idxs d c :
  inv d → Forall (fun i => i < length d ∧ settled d i) idxs →
  for_idx idxs (d, c) = Ret (d, c).
Proof.
  intros Hinv. induction idxs as [|idx idxs IH]; intros Hall; [done|].
  apply Forall_cons in Hall as [[Hidx Hset] Hall].
  destruct (lookup_lt_is_Some_2 d idx Hidx) as [[K depsK] HK].
  rewrite for_idx_cons. simpl fst. rewrite (keys_lookup _ _ _ _ HK).
  rewrite (getitem_elem_of d K depsK)
    by (apply Hinv || by eapply list_elem_of_lookup_2).
  destruct (for_dependency_spec idx K depsK depsK d c)
    as (d1 & c1 & -> & Hp1 & Ht1 & Hcase); try done.
  { by eapply list_elem_of_lookup_2. }
  destruct Hcase as [(-> & -> & _)|(_ & _ & (dep & j & Hdep & Hj & Hlt))].
  - by apply IH.
  - exfalso. destruct (Hset K depsK dep HK Hdep) as (j' & Hj' & Hlt').
    assert (j = j') by (eapply NoDup_lookup; [apply Hinv|done..]). lia.
Qed.

Lemma enumerate_from_app {A} (l1 l2 : list A) i :
  enumerate_from i (l1 ++ l2)
  = enumerate_from i l1 ++ enumerate_from (i + length l1) l2.
Proof.
  revert i. induction l1 as [|x l1 IH]; intros i; simpl.
  - by rewrite Nat.add_0_r.
  - rewrite IH. by replace (S i + length l1) with (i + S (length l1)) by lia.
Qed.

Lemma idx_latent_from_app i (d1 d2 : items) :
  idx_latent_from i (d1 ++ d2)
  = idx_latent_from i d1 ++ idx_latent_from (i + length d1) d2.
Proof.
  unfold idx_latent_from, values.
  rewrite fmap_app, enumerate_from_app, List.filter_app, map_app.
  by rewrite length_fmap.
Qed.

Lemma idx_latent_from_bounds (d : items) : ∀ i,
  Forall (fun x => i ≤ x < i + length d) (idx_latent_from i d).
Proof.
  induction d as [|[k v] d IH]; intros i; [constructor|].
  unfold idx_latent_from in *. simpl.
  destruct (0 <? length v); simpl.
  - constructor; [lia|]. eapply Forall_impl; [apply (IH (S i))|].
    intros x Hx. simpl in Hx. lia.
  - eapply Forall_impl; [apply (IH (S i))|]. intros x Hx. simpl in Hx. lia.
Qed.

Lemma idx_latent_from_head i k dep deps (d : items) :
  idx_latent_from i ((k, dep :: deps) :: d) = i :: idx_latent_from (S i) d.
Proof. done. Qed.

Lemma prefix_ok_take (d d' : items) m :
  take m d' = take m d → prefix_ok d m → prefix_ok d' m.
Proof.
  intros Ht Hok i Hi k deps dep Hlk Hdep.
  assert (Hlk' : d !! i = Some (k, deps)).
  { by rewrite <- (lookup_take_lt d m i), <- Ht, lookup_take_lt. }
  destruct (Hok i Hi k deps dep Hlk' Hdep) as (j & Hj & Hlt).
  exists j. split; [|done]. unfold keys in *.
  rewrite list_lookup_fmap in Hj |- *.
  by rewrite <- (lookup_take_lt d' m j), Ht, lookup_take_lt by lia.
Qed.

(** A turn of the while loop on an ordered dict changes nothing and
    leaves [consistent] true. *)
Lemma pass_ordered (d : items) :
  inv d → ordered d → pass d = Ret (d, true).
Proof.
  intros Hinv Hord. unfold pass. apply for_idx_settled; [done|].
  eapply Forall_impl; [apply (idx_latent_from_bounds d 0)|].
  intros i Hi. simpl in Hi. split; [lia|apply Hord].
Qed.

(** A turn of the while loop when the first [m] places are settled and
    place [m] is not: the first [m] places stay, a dependency of the key
    at place [m] takes that place, and [consistent] is false. *)
Lemma pass_unsettled (d : items) m K depsK dep j :
  inv d → prefix_ok d m → d !! m = Some (K, depsK) →
  dep ∈ depsK → keys d !! j = Some dep → m < j →
  ∃ d' D depsD, pass d = Ret (d', false) ∧ d' ≡ₚ d ∧
    take m d' = take m d ∧ d' !! m = Some (D, depsD) ∧ D ∈ depsK.
Proof.
  intros Hinv Hok HK Hdep Hj Hlt.
  assert (Hm : m < length d) by (by eapply lookup_lt_Some).
  unfold pass, idx_latent_dependencies.
  replace (idx_latent_from 0 d)
    with (idx_latent_from 0 (take m d ++ drop m d)) by (by rewrite take_drop).
  rewrite idx_latent_from_app.
  rewrite for_idx_app, length_take, Nat.min_l, Nat.add_0_l by lia.
  rewrite for_idx_settled; [|done|].
  2:{ eapply Forall_impl; [apply (idx_latent_from_bounds (take m d) 0)|].
      intros i Hi. simpl in Hi. rewrite length_take in Hi.
      split; [lia|apply Hok; lia]. }
  rewrite (drop_S d (K, depsK) m HK).
  destruct depsK as [|dep0 depsK0] eqn:EdepsK; [by apply elem_of_nil in Hdep|].
  rewrite idx_latent_from_head, for_idx_cons. simpl fst.
  rewrite (keys_lookup _ _ _ _ HK).
  rewrite (getitem_elem_of d K (dep0 :: depsK0))
    by (apply Hinv || by eapply list_elem_of_lookup_2).
  destruct (for_dependency_spec m K (dep0 :: depsK0) (dep0 :: depsK0) d true)
    as (d1 & c1 & -> & Hp1 & Ht1 & Hcase); try done.
  { by eapply list_elem_of_lookup_2. }
  destruct Hcase as [(_ & _ & Hall)|(-> & (D & depsD & HD & HlD) & _)].
  { exfalso. destruct (Hall dep Hdep) as (j' & Hj' & Hle).
    assert (j = j') by (eapply NoDup_lookup; [apply Hinv|done..]). lia. }
  destruct (for_idx_frame (S m) (idx_latent_from (S m) (drop (S m) d)) d1 false)
    as (d' & c' & -> & Hp & Ht & Hc).
  { by apply (inv_perm d). }
  { eapply Forall_impl; [apply idx_latent_from_bounds|].
    intros i Hi. simpl in Hi. rewrite length_drop in Hi.
    rewrite (Permutation_length Hp1). lia. }
  rewrite (Hc eq_refl). exists d', D, depsD. split_and!; try done.
  - by rewrite Hp.
  - rewrite <- Ht1. replace m with (m `min` S m) by lia.
    by rewrite <- !take_take, Ht.
  - by rewrite <- (lookup_take_lt d' (S m) m), Ht, lookup_take_lt by lia.
Qed.

Lemma acyclic_no_mutual (d : items) :
  acyclic d → ∀ k dep, depends d k dep → ¬ depends d dep k.
Proof.
  intros Hac k dep H1 H2. apply (Hac k).
  eapply tc_l; [exact H1|by apply tc_once].
Qed.

(** On a finite acyclic dict, going from a key to one of its dependencies
    cannot go on for ever: [anc] collects the keys already left behind. *)
Lemma acyclic_acc_aux (d : items) :
  acyclic d → ∀ n K anc,
  NoDup anc → (∀ a, a ∈ anc → a ∈ keys d ∧ tc (depends d) a K) →
  length (keys d) < length anc + n →
  Acc (fun D K => depends d K D) K.
Proof.
  intros Hac. induction n as [|n IH]; intros K anc Hnd Hanc Hlen.
  - exfalso. assert (length anc ≤ length (keys d)); [|lia].
    apply submseteq_length, NoDup_submseteq; [done|].
    intros a Ha. by apply Hanc.
  - constructor. intros D HD. apply (IH D (K :: anc)).
    + constructor; [|done]. intros HK. apply (Hac K). by apply Hanc.
    + intros a Ha. apply elem_of_cons in Ha as [->|Ha].
      * split; [|by apply tc_once]. destruct HD as (deps & Hin & _).
        apply elem_of_keys. by exists deps.
      * destruct (Hanc a Ha) as [Hk Htc]. split; [done|]. by eapply tc_r.
    + simpl. lia.
Qed.

Lemma acyclic_acc (d : items) :
  acyclic d → ∀ K, Acc (fun D K => depends d K D) K.
Proof.
  intros Hac K. apply (acyclic_acc_aux d Hac (S (length (keys d))) K []).
  - constructor.
  - intros a Ha. by apply elem_of_nil in Ha.
  - simpl. lia.
Qed.

(** The dependencies of the key at place [m] are all before [m], or one
    of them is after [m]. *)
Lemma deps_split (d : items) m K depsK :
  inv d → d !! m = Some (K, depsK) →
  (∀ dep, dep ∈ depsK → ∃ j, keys d !! j = Some dep ∧ j < m)
  ∨ (∃ dep j, dep ∈ depsK ∧ keys d !! j = Some dep ∧ m < j).
Proof.
  intros (Hnd & Hcl & Hmut) HK.
  assert (Hgen : ∀ deps, deps ⊆ depsK →
    (∀ dep, dep ∈ deps → ∃ j, keys d !! j = Some dep ∧ j < m)
    ∨ (∃ dep j, dep ∈ deps ∧ keys d !! j = Some dep ∧ m < j)).
  { induction deps as [|dep deps IH]; intros Hsub.
    - left. intros dep H. by apply elem_of_nil in H.
    - assert (Hdep : depends d K dep).
      { exists depsK. split; [by eapply list_elem_of_lookup_2|].
        apply Hsub. left. }
      destruct (key_position d dep (Hcl _ _ Hdep)) as (j & v & Hj & Hkj).
      destruct (lt_eq_lt_dec j m) as [[Hlt|Heq]|Hgt].
      + destruct IH as [Hall|(x & jx & Hx & Hjx & Hlx)].
        { intros x Hx. apply Hsub. by right. }
        * left. intros x Hx. apply elem_of_cons in Hx as [->|Hx]; [|by apply Hall].
          by exists j.
        * right. exists x, jx. split_and!; [by right|done..].
      + exfalso. subst j. rewrite HK in Hj. simplify_eq.
        by apply (Hmut dep dep).
      + right. exists dep, j. split_and!; [left|done..]. }
  by apply Hgen.
Qed.

(** The while loop ends: each turn either finds one more place settled or
    puts a dependency of its key at the first place that is not. *)
Lemma while_settles (d0 : items) :
  inv d0 → (∀ K, Acc (fun D K => depends d0 K D) K) →
  ∀ k d m, d ≡ₚ d0 → prefix_ok d m → m + k = length d →
  ∃ n d', (∀ fuel, n ≤ fuel → while_not_consistent fuel d = Some (Ret d')) ∧
          d' ≡ₚ d0 ∧ ordered d'.
Proof.
  intros Hinv0 Hacc. induction k as [|k IHk]; intros d m Hp Hok Hlen.
  - assert (Hord : ordered d).
    { intros i. destruct (lt_dec i m) as [Hi|Hi]; [by apply Hok|].
      intros K deps dep HK. apply lookup_lt_Some in HK. lia. }
    exists 1, d. split_and!; try done. intros [|fuel] Hf; [lia|]. simpl.
    rewrite pass_ordered; [done|by apply (inv_perm d0)|done].
  - destruct (lookup_lt_is_Some_2 d m) as [[K depsK] HK]; [lia|].
    revert d depsK Hp Hok Hlen HK.
    induction (Hacc K) as [K _ IHK]. intros d depsK Hp Hok Hlen HK.
    assert (Hinv : inv d) by (by apply (inv_perm d0)).
    destruct (deps_split d m K depsK Hinv HK)
      as [Hall|(dep & j & Hdep & Hj & Hlt)].
    + apply (IHk d (S m)); [done| |lia].
      intros i Hi. destruct (decide (i = m)) as [->|Hne]; [|apply Hok; lia].
      intros K' deps' dep' HK'. rewrite HK in HK'. simplify_eq. apply Hall.
    + destruct (pass_unsettled d m K depsK dep j Hinv Hok HK Hdep Hj Hlt)
        as (d' & D & depsD & Hpass & Hp' & Ht & HD & HDin).
      destruct (IHK D) with (d := d') (depsK := depsD)
        as (n & d'' & Hrun & Hp'' & Hord); try done.
      * exists depsK. split; [|done]. rewrite <- Hp.
        by eapply list_elem_of_lookup_2.
      * by rewrite Hp'.
      * by eapply prefix_ok_take.
      * by rewrite (Permutation_length Hp').
      * exists (S n), d''. split_and!; try done.
        intros [|fuel] Hf; [lia|]. simpl. rewrite Hpass. apply Hrun. lia.
Qed.

(** A ranking that decreases along dependencies excludes cycles. *)
Lemma ranked_acyclic (rank : string → nat) (d : items) :
  ranked rank d = true → acyclic d.
Proof.
  intros Hr.
  assert (Hstep : ∀ k dep, depends d k dep → rank dep < rank k).
  { intros k dep (deps & Hin & Hdep). unfold ranked in Hr.
    rewrite forallb_forall in Hr.
    specialize (Hr (k, deps) (proj1 (list_elem_of_In _ _) Hin)).
    simpl in Hr. rewrite forallb_forall in Hr.
    apply Nat.ltb_lt, Hr. by apply list_elem_of_In. }
  assert (Htc : ∀ a b, tc (depends d) a b → rank b < rank a).
  { induction 1 as [a b H|a b c H _ IH].
    - by apply Hstep.
    - apply Hstep in H. lia. }
  intros k Hk. apply Htc in Hk. lia.
Qed.

Lemma closedb_closed (d : items) : closedb d = true → closed d.
Proof.
  intros Hc k dep (deps & Hin & Hdep). unfold closedb in Hc.
  rewrite forallb_forall in Hc.
  specialize (Hc (k, deps) (proj1 (list_elem_of_In _ _) Hin)).
  simpl in Hc. rewrite forallb_forall in Hc.
  apply contains_elem_of, Hc. by apply list_elem_of_In.
Qed.

Lemma build_fold_nodup (latent_prms : list string)
      (hyperparameters : string → list string) (all : list string) :
  ∀ acc : items,
  NoDup (keys acc ++ latent_prms) →
  fold_left
    (fun d prm_name =>
       setitem d prm_name
               (List.filter (contains all) (hyperparameters prm_name)))
    latent_prms acc
  = acc ++ ((fun prm_name =>
               (prm_name,
                List.filter (contains all) (hyperparameters prm_name)))
              <$> latent_prms).
Proof.
  induction latent_prms as [|k l IH]; intros acc Hnd; simpl.
  - by rewrite app_nil_r.
  - assert (Hk : k ∉ keys acc).
    { apply NoDup_app in Hnd as (_ & Hdis & _). intros Hin.
      apply (Hdis k Hin). left. }
    rewrite (setitem_fresh _ _ _ Hk), IH.
    + by rewrite <- app_assoc.
    + unfold keys. rewrite fmap_app. simpl. by rewrite <- app_assoc.
Qed.

(** Lines 61-67 build a dict whose keys are the latent parameters, in
    their order, and whose values are the hyperparameters that are latent:
    its keys are distinct and every dependency is a key. *)
Lemma build_dependency_dict_wf (latent_prms : list string)
      (hyperparameters : string → list string) :
  NoDup latent_prms →
  keys (build_dependency_dict latent_prms hyperparameters) = latent_prms ∧
  closed (build_dependency_dict latent_prms hyperparameters) ∧
  ∀ k dep, depends (build_dependency_dict latent_prms hyperparameters) k dep
           ↔ k ∈ latent_prms ∧ dep ∈ latent_prms ∧ dep ∈ hyperparameters k.
Proof.
  intros Hnd. unfold build_dependency_dict.
  rewrite (build_fold_nodup latent_prms hyperparameters latent_prms []) by done.
  simpl.
  assert (Hkeys : ∀ all l, keys ((fun prm_name =>
            (prm_name, List.filter (contains all)
                                   (hyperparameters prm_name)))
            <$> l) = l).
  { intros all l. unfold keys.
    induction l as [|x l IH]; [done|]. cbn. f_equal. exact IH. }
  assert (Hdep : ∀ k dep,
    depends ((fun prm_name =>
                (prm_name, List.filter (contains latent_prms)
                                       (hyperparameters prm_name)))
               <$> latent_prms) k dep
    ↔ k ∈ latent_prms ∧ dep ∈ latent_prms ∧ dep ∈ hyperparameters k).
  { intros k dep. unfold depends. split.
    - intros (deps & Hin & Hd). apply list_elem_of_fmap in Hin as (x & [= -> ->] & Hx).
      apply list_elem_of_In, filter_In in Hd as [Hd Hc].
      split_and!; [done| |by apply list_elem_of_In].
      by apply contains_elem_of.
    - intros (Hk & Hd & Hh). eexists. split.
      + apply list_elem_of_fmap. by exists k.
      + apply list_elem_of_In, filter_In. split; [by apply list_elem_of_In|].
        by apply contains_elem_of. }
  split_and!; [apply Hkeys| |exact Hdep].
  intros k dep H. rewrite Hkeys. by apply Hdep in H as (_ & ? & _).
Qed.

End ResolverFacts.

Module ResolverTheorems.
Import Resolver ResolverSpec ResolverFacts.

(** C1. For every dependency dict with distinct keys whose values name
    keys only and which has no cycle, the while loop of [run_pyro_solver]
    ends without raising: from some number of turns on it returns a dict
    [d'] that holds the same items as [d] and in which every dependency of
    a key sits at a place strictly before that key. *)
Theorem resolution_orders_acyclic (d : items) :
  NoDup (keys d) → closed d → acyclic d →
  ∃ n d',
    (∀ fuel, n ≤ fuel → while_not_consistent fuel d = Some (Ret d')) ∧
    d' ≡ₚ d ∧ ordered d'.
Proof.
  intros Hnd Hcl Hac.
  apply (while_settles d) with (k := length d) (m := 0).
  - split; [exact Hnd|]. split; [exact Hcl|]. by apply acyclic_no_mutual.
  - by apply acyclic_acc.
  - reflexivity.
  - intros i Hi. lia.
  - reflexivity.
Qed.

(** The hypotheses of C1 hold of the hierarchical prior of the integration
    test, which the loop therefore orders. *)
Lemma resolution_orders_acyclic_witness :
  NoDup (keys ResolverInputs.hierarchical) ∧
  closed ResolverInputs.hierarchical ∧
  acyclic ResolverInputs.hierarchical ∧
  ∃ n d',
    (∀ fuel, n ≤ fuel →
       while_not_consistent fuel ResolverInputs.hierarchical = Some (Ret d')) ∧
    d' ≡ₚ ResolverInputs.hierarchical ∧ ordered d'.
Proof.
  assert (Hnd : NoDup (keys ResolverInputs.hierarchical)).
  { apply (bool_decide_unpack _). vm_compute. exact I. }
  assert (Hcl : closed ResolverInputs.hierarchical).
  { apply closedb_closed. vm_compute. reflexivity. }
  assert (Hac : acyclic ResolverInputs.hierarchical).
  { apply (ranked_acyclic ResolverInputs.hierarchical_rank).
    vm_compute. reflexivity. }
  split; [exact Hnd|]. split; [exact Hcl|]. split; [exact Hac|].
  exact (resolution_orders_acyclic ResolverInputs.hierarchical Hnd Hcl Hac).
Defined.

Example hierarchical_order :
  while_not_consistent 3 ResolverInputs.hierarchical
  = Some (Ret [("a", []); ("mean_b", []); ("sigma", []); ("b", ["mean_b"])]).
Proof. reflexivity. Qed.

Example three_deps_order :
  while_not_consistent 5 [("A", ["B"; "C"]); ("B", []); ("C", ["B"])]
  = Some (Ret [("B", []); ("C", ["B"]); ("A", ["B"; "C"])]).
Proof. reflexivity. Qed.

(** X8. With two parameters whose priors refer to each other and nothing else,
    the first turn of the loop raises the error that names both. *)
Lemma two_parameters_detected (a b : string) (fuel : nat) :
  a ≠ b →
  while_not_consistent (S fuel) [(a, [b]); (b, [a])]
  = Some (Raise (RuntimeError a b)).
Proof.
  intros Hne. cbn [while_not_consistent].
  unfold pass, idx_latent_dependencies. cbn.
  assert (Hab : (a =? b)%string = false) by (by apply String.eqb_neq).
  assert (Hba : (b =? a)%string = false)
    by (apply String.eqb_neq; congruence).
  unfold mbind, result_bind, contains. cbn.
  rewrite !String.eqb_refl, ?Hba, ?Hab. cbn.
  rewrite ?String.eqb_refl, ?Hab. cbn. by rewrite ?String.eqb_refl.
Qed.

(** The four turns of the loop on [six_prms]. *)
Lemma six_prms_turns :
  pass ResolverInputs.six_prms = Ret (ResolverInputs.six_prms_1, false) ∧
  pass ResolverInputs.six_prms_1 = Ret (ResolverInputs.six_prms_2, false) ∧
  pass ResolverInputs.six_prms_2 = Ret (ResolverInputs.six_prms_3, false) ∧
  pass ResolverInputs.six_prms_3 = Ret (ResolverInputs.six_prms, false).
Proof. repeat split; vm_compute; reflexivity. Qed.

(** C4 on [six_prms]: [p2] and [p3] refer to each other, the keys are
    distinct and every dependency is a key, yet the loop neither raises
    nor ends, whatever the number of turns it is given. *)
Theorem six_prms_cycle_undetected :
  NoDup (keys ResolverInputs.six_prms) ∧
  closed ResolverInputs.six_prms ∧
  depends ResolverInputs.six_prms "p2" "p3" ∧
  depends ResolverInputs.six_prms "p3" "p2" ∧
  ∀ fuel, while_not_consistent fuel ResolverInputs.six_prms = None.
Proof.
  split; [apply (bool_decide_unpack _); vm_compute; exact I|].
  split; [apply closedb_closed; vm_compute; reflexivity|].
  split; [exists ["p3"]; split; apply list_elem_of_In; simpl; auto 10|].
  split; [exists ["p5"; "p2"]; split; apply list_elem_of_In; simpl; auto 10|].
  destruct six_prms_turns as (H0 & H1 & H2 & H3).
  assert (Hall : ∀ fuel,
    while_not_consistent fuel ResolverInputs.six_prms = None ∧
    while_not_consistent fuel ResolverInputs.six_prms_1 = None ∧
    while_not_consistent fuel ResolverInputs.six_prms_2 = None ∧
    while_not_consistent fuel ResolverInputs.six_prms_3 = None).
  { induction fuel as [|fuel (IH0 & IH1 & IH2 & IH3)]; [done|].
    cbn [while_not_consistent]. rewrite H0, H1, H2, H3. done. }
  intros fuel. apply Hall.
Qed.

End ResolverTheorems.

Module HeapFacts.
Import Heap HeapSpec.

Section WithObjects.
Context {O : Type}.
Implicit Types (σ : gmap loc O).

Lemma keeps_bind {A B} (σ0 : gmap loc O) (m : M O A) (f : A → M O B) Q R :
  keeps σ0 m Q → (∀ a, Q a → keeps σ0 (f a) R) → keeps σ0 (m ≫= f) R.
Proof.
  intros Hm Hf σ Hσ. unfold mbind, M_bind, bind.
  destruct (Hm σ Hσ) as [Hsub HQ].
  destruct (m σ) as [[a|e] σ'] eqn:E; simpl in *; [|done].
  apply Hf; [by apply HQ|done].
Qed.

Lemma keeps_weaken {A} (σ0 : gmap loc O) (m : M O A) (Q R : A → Prop) :
  keeps σ0 m Q → (∀ a, Q a → R a) → keeps σ0 m R.
Proof.
  intros Hm HQR σ Hσ. destruct (Hm σ Hσ) as [Hsub HQ].
  split; [done|]. intros a Ha. by apply HQR, HQ.
Qed.

Lemma keeps_ret {A} (σ0 : gmap loc O) (a : A) (Q : A → Prop) : Q a → keeps σ0 (ret a) Q.
Proof. intros HQ σ Hσ. split; [done|]. intros a' [= <-]. done. Qed.

Lemma keeps_lift {A} (σ0 : gmap loc O) (r : result A) : keeps σ0 (lift r) (fun _ => True).
Proof. intros σ Hσ. done. Qed.

Lemma keeps_deref (σ0 : gmap loc O) l : keeps σ0 (deref l) (fun _ => True).
Proof.
  intros σ Hσ. unfold deref. by destruct (σ !! l).
Qed.

Lemma fresh_not_in (σ0 : gmap loc O) σ : σ0 ⊆ σ → σ0 !! fresh (dom σ) = None.
Proof.
  intros Hσ.
  assert (Hfresh : σ !! fresh (dom σ) = None).
  { apply not_elem_of_dom. apply is_fresh. }
  destruct (σ0 !! fresh (dom σ)) eqn:E; [|done].
  rewrite (lookup_weaken _ _ _ _ E Hσ) in Hfresh. done.
Qed.

(** A new object is none of the objects of [σ0]. *)
Lemma keeps_alloc (σ0 : gmap loc O) d : keeps σ0 (alloc d) (fun l => σ0 !! l = None).
Proof.
  intros σ Hσ. unfold alloc. simpl. split.
  - etrans; [exact Hσ|]. apply insert_subseteq.
    apply not_elem_of_dom. apply is_fresh.
  - intros a [= <-]. by apply fresh_not_in.
Qed.

(** Writing to an object that is none of the objects of [σ0]. *)
Lemma keeps_store (σ0 : gmap loc O) l d :
  σ0 !! l = None → keeps σ0 (store l d) (fun _ => True).
Proof.
  intros Hl σ Hσ. unfold store. simpl. split; [|done].
  by apply insert_subseteq_r.
Qed.

Lemma triple_bind {A B} (σ0 : gmap loc O) P (m : M O A) (f : A → M O B) Q R :
  triple σ0 P m Q → (∀ a, triple σ0 (Q a) (f a) R) →
  triple σ0 P (m ≫= f) R.
Proof.
  intros Hm Hf σ Hσ HP. unfold mbind, M_bind, bind.
  destruct (Hm σ Hσ HP) as [Hsub HQ].
  destruct (m σ) as [[a|e] σ'] eqn:E; simpl in *; [|done].
  apply Hf; [done|by apply HQ].
Qed.

Lemma triple_conseq {A} (σ0 : gmap loc O) (P P' : gmap loc O → Prop) (m : M O A)
      (Q Q' : A → gmap loc O → Prop) :
  (∀ σ, P' σ → P σ) → triple σ0 P m Q → (∀ a σ, Q a σ → Q' a σ) →
  triple σ0 P' m Q'.
Proof.
  intros HP Hm HQ σ Hσ HP'. destruct (Hm σ Hσ (HP σ HP')) as [Hsub H].
  split; [done|]. intros a Ha. by apply HQ, H.
Qed.

(** A fact that follows from the precondition may be used. *)
Lemma triple_pre {A} (σ0 : gmap loc O) (P : gmap loc O → Prop) (φ : Prop) (m : M O A) Q :
  (∀ σ, P σ → φ) → (φ → triple σ0 P m Q) → triple σ0 P m Q.
Proof. intros Hφ Hm σ Hσ HP. by apply Hm; [eapply Hφ|..]. Qed.

Lemma triple_ret {A} (σ0 : gmap loc O) (a : A) (Q : A → gmap loc O → Prop) :
  triple σ0 (Q a) (ret a) Q.
Proof. intros σ Hσ HQ. split; [done|]. by intros a' [= <-]. Qed.

Lemma triple_raise {A} (σ0 : gmap loc O) P e (Q : A → gmap loc O → Prop) :
  triple σ0 P (raise e) Q.
Proof. intros σ Hσ HP. done. Qed.

Lemma triple_deref (σ0 : gmap loc O) P l :
  triple σ0 P (deref l) (fun d σ => P σ ∧ σ !! l = Some d).
Proof.
  intros σ Hσ HP. unfold deref. destruct (σ !! l) eqn:E; simpl; [|done].
  split; [done|]. by intros a [= <-].
Qed.

Lemma triple_alloc (σ0 : gmap loc O) P d :
  triple σ0 P (alloc d)
         (fun l σ' => σ0 !! l = None ∧
                      ∃ σ, P σ ∧ σ !! l = None ∧ σ' = <[l := d]> σ).
Proof.
  intros σ Hσ HP. unfold alloc. simpl.
  assert (Hfresh : σ !! fresh (dom σ) = None).
  { apply not_elem_of_dom. apply is_fresh. }
  split.
  - etrans; [exact Hσ|]. by apply insert_subseteq.
  - intros a [= <-]. split; [by apply fresh_not_in|]. by exists σ.
Qed.

Lemma triple_store (σ0 : gmap loc O) P l d :
  σ0 !! l = None →
  triple σ0 P (store l d) (fun _ σ' => ∃ σ, P σ ∧ σ' = <[l := d]> σ).
Proof.
  intros Hl σ Hσ HP. unfold store. simpl. split.
  - by apply insert_subseteq_r.
  - intros _ _. by exists σ.
Qed.

End WithObjects.

End HeapFacts.

Module ForwardModelFacts.
Import Heap HeapSpec HeapFacts ForwardModel.

(** *** The finite-difference step *)

Lemma sqrt_eps_nonzero : ¬ (sqrt_eps == 0)%Q.
Proof. unfold sqrt_eps, Qeq. simpl. lia. Qed.

(** The step vanishes at [-1] and nowhere else. *)
Lemma step_zero_iff (x : Q) : (step x == 0)%Q ↔ (x == -1)%Q.
Proof.
  unfold step. split; intros H.
  - assert (H' : (sqrt_eps * (x + 1) == 0)%Q) by (rewrite <- H; ring).
    apply Qmult_integral in H' as [H'|H'].
    + by destruct sqrt_eps_nonzero.
    + rewrite <- (Qplus_0_r x), <- (Qplus_opp_r 1), Qplus_assoc, H'. ring.
  - rewrite H. ring.
Qed.

Lemma divide_None (a b : Q) : divide a b = None ↔ (b == 0)%Q.
Proof.
  unfold divide. destruct (Qeq_bool b 0) eqn:E.
  - split; [intros _; by apply Qeq_bool_eq|done].
  - split; [done|]. intros H. apply Qeq_eq_bool in H. congruence.
Qed.

Lemma keeps_cp_copy σ0 l : keeps σ0 (cp_copy l) (fun l' => σ0 !! l' = None).
Proof.
  unfold cp_copy. eapply keeps_bind; [apply keeps_deref|].
  intros d _. apply keeps_alloc.
Qed.

Lemma keeps_getitem σ0 l k : keeps σ0 (getitem l k) (fun _ => True).
Proof.
  unfold getitem. eapply keeps_bind; [apply keeps_deref|].
  intros d _. apply keeps_lift.
Qed.

Lemma keeps_setitem σ0 l k v :
  σ0 !! l = None → keeps σ0 (setitem l k v) (fun _ => True).
Proof.
  intros Hl. unfold setitem. eapply keeps_bind; [apply keeps_deref|].
  intros d _. by apply keeps_store.
Qed.

(** The loop of [jacobian] writes to the copies only. *)
Lemma keeps_for_prm response output_sensors σ0 inp prm_names : ∀ jac_dict,
  keeps σ0 (for_prm response output_sensors inp prm_names jac_dict)
        (fun _ => True).
Proof.
  induction prm_names as [|prm_name rest IH]; intros jac_dict.
  - by apply keeps_ret.
  - cbn [for_prm].
    eapply keeps_bind; [apply keeps_cp_copy|]. intros inp_left Hleft.
    eapply keeps_bind; [apply keeps_cp_copy|]. intros inp_right Hright.
    eapply keeps_bind; [apply keeps_getitem|]. intros x _.
    eapply keeps_bind; [by apply (keeps_ret _ _ (fun _ => True))|].
    intros h _.
    eapply keeps_bind; [apply keeps_lift|]. intros x_minus_h _.
    eapply keeps_bind; [by apply keeps_setitem|]. intros _ _.
    eapply keeps_bind; [apply keeps_lift|]. intros x_plus_h _.
    eapply keeps_bind; [by apply keeps_setitem|]. intros _ _.
    eapply keeps_bind; [by apply (keeps_ret _ _ (fun _ => True))|].
    intros dx _.
    eapply keeps_bind; [apply keeps_deref|]. intros d_left _.
    eapply keeps_bind; [apply keeps_lift|]. intros response_dict_left _.
    eapply keeps_bind; [apply keeps_deref|]. intros d_right _.
    eapply keeps_bind; [apply keeps_lift|]. intros response_dict_right _.
    eapply keeps_bind; [apply keeps_lift|]. intros jac_dict' _.
    apply IH.
Qed.

Lemma keeps_jacobian response output_sensors σ0 inp :
  keeps σ0 (jacobian response output_sensors inp) (fun _ => True).
Proof.
  unfold jacobian. eapply keeps_bind; [apply keeps_deref|].
  intros d _. apply keeps_for_prm.
Qed.

End ForwardModelFacts.

Module ForwardModelTheorems.
Import Heap HeapSpec HeapFacts ForwardModel ForwardModelFacts.

(** C5 at the input value [-1]: the step [h] is zero there, so that the
    quotient by [2 h] of the central difference is not a number. *)
Theorem step_vanishes_at_minus_one :
  (step (-1) == 0)%Q ∧ ∀ a, divide a (2 * step (-1)) = None.
Proof.
  split; [by apply step_zero_iff|].
  intros a. apply divide_None. unfold step. ring.
Qed.

(** In double precision as well the step is exactly zero at [-1], and the
    quotient is infinite or not a number. *)
Example step_float_at_minus_one :
  step_float (-1) = 0%float ∧
  quotient_float 3 1 (step_float (-1)) = infinity ∧
  PrimFloat.is_nan (quotient_float 1 1 (step_float (-1))) = true.
Proof. repeat split; vm_compute; reflexivity. Qed.

(** The Jacobian of the linear model at intercept [-1]: the derivatives
    with respect to [b] are not numbers. *)
Example linear_jacobian_at_minus_one :
  ∃ jac_dict row,
    fst (jacobian ForwardModelInputs.linear ["y"] 0
                  ForwardModelInputs.linear_heap) = Ret jac_dict ∧
    dict_get jac_dict "y" = Ret row ∧
    dict_get row "b" = Ret (Some (Array [None; None])).
Proof. eexists _, _. vm_compute. repeat split. Qed.

(** C10. After [jacobian(inp)], having returned or raised, [inp] and
    every other object that existed before the call is bound to what it
    was bound to before. *)
Theorem jacobian_keeps_inp response output_sensors (inp : loc) (σ : heap)
        (d : pydict (value Q)) :
  σ !! inp = Some d →
  snd (jacobian response output_sensors inp σ) !! inp = Some d.
Proof.
  intros Hinp.
  destruct (keeps_jacobian response output_sensors σ inp σ) as [Hsub _];
    [done|].
  by eapply lookup_weaken.
Qed.

Lemma jacobian_keeps_inp_witness :
  snd (jacobian ForwardModelInputs.linear ["y"] 0
                ForwardModelInputs.linear_heap) !! 0
  = Some ForwardModelInputs.linear_inp.
Proof.
  apply (jacobian_keeps_inp ForwardModelInputs.linear ["y"] 0
                            ForwardModelInputs.linear_heap).
  vm_compute. reflexivity.
Defined.

End ForwardModelTheorems.

Module ArrayFacts.
Import ForwardModel ForwardModelSpec.

Section WithNumbers.
Context {A : Type}.
Implicit Types (jac : ndarray3 A) (v : value A).

Lemma broadcast_to_stretched n v :
  stretches n v → broadcast_to n v = Ret (stretched n v).
Proof.
  intros Hs. destruct v as [x|xs]; simpl; [done|].
  destruct (Nat.eqb_spec (length xs) n) as [_|Hne]; [done|].
  destruct Hs as [Hs|Hs]; simpl in Hs; [done|].
  by destruct xs as [|x [|y xs]].
Qed.

Lemma length_stretched n v : stretches n v → length (stretched n v) = n.
Proof.
  intros Hs. destruct v as [x|xs]; simpl; [by rewrite length_replicate|].
  destruct (Nat.eqb_spec (length xs) n) as [Heq|Hne]; [done|].
  destruct Hs as [Hs|Hs]; simpl in Hs; [done|].
  destruct xs as [|x [|y xs]]; try done. by rewrite length_replicate.
Qed.

Lemma row_insert jac i j m r i' j' :
  data jac !! i = Some m → j < length m →
  row {| shape := shape jac; data := <[i := <[j := r]> m]> (data jac) |} i' j'
  = if decide (i' = i ∧ j' = j) then Some r else row jac i' j'.
Proof.
  intros Hm Hj. unfold row. simpl.
  destruct (decide (i' = i)) as [->|Hi].
  - rewrite list_lookup_insert_eq by (by eapply lookup_lt_Some).
    rewrite Hm. simpl. destruct (decide (j' = j)) as [->|Hj'].
    + rewrite decide_True by done. by apply list_lookup_insert_eq.
    + rewrite decide_False by (intros [_ ?]; done).
      by apply list_lookup_insert_ne.
  - rewrite list_lookup_insert_ne by done.
    by rewrite decide_False by (intros [? _]; done).
Qed.

(** [jac[i, j, :] = v] on a dense array: the row becomes [v] stretched,
    the other rows stay. *)
Lemma assign_row_spec jac n1 n2 n3 i j v :
  dense jac n1 n2 n3 → i < n1 → j < n2 → stretches n3 v →
  ∃ jac', assign_row jac i j v = Ret jac' ∧ dense jac' n1 n2 n3 ∧
    ∀ i' j', row jac' i' j'
             = if decide (i' = i ∧ j' = j) then Some (stretched n3 v)
               else row jac i' j'.
Proof.
  intros (Hsh & Hlen & Hm & Hr) Hi Hj Hs.
  destruct (lookup_lt_is_Some_2 (data jac) i) as [m Hmi]; [lia|].
  assert (Hlm : length m = n2) by (by eapply Hm).
  destruct (lookup_lt_is_Some_2 m j) as [r0 Hr0]; [lia|].
  unfold assign_row. rewrite Hmi, Hr0, Hsh. simpl.
  rewrite (broadcast_to_stretched n3 v Hs). simpl.
  eexists. split; [reflexivity|].
  assert (Hrow : ∀ i' j',
    row {| shape := (n1, n2, n3);
           data := <[i := <[j := stretched n3 v]> m]> (data jac) |} i' j'
    = if decide (i' = i ∧ j' = j) then Some (stretched n3 v)
      else row jac i' j').
  { intros i' j'. rewrite <- Hsh. apply row_insert; [done|lia]. }
  split; [|exact Hrow]. split_and!; simpl.
  - done.
  - by rewrite length_insert.
  - intros i' m' Hm'. destruct (decide (i' = i)) as [->|Hne].
    + rewrite list_lookup_insert_eq in Hm' by lia. simplify_eq.
      by rewrite length_insert.
    + rewrite list_lookup_insert_ne in Hm' by done. by eapply Hm.
  - intros i' j' r Hr'. rewrite Hrow in Hr'.
    destruct (decide (i' = i ∧ j' = j)); simplify_eq.
    + by apply length_stretched.
    + by eapply Hr.
Qed.

(** The loop over the derivatives of one output sensor. *)
Lemma for_derivative_spec n1 n2 n3 i derivatives : ∀ j0 jac,
  dense jac n1 n2 n3 → i < n1 → j0 + length derivatives ≤ n2 →
  Forall (stretches n3) derivatives →
  ∃ jac', for_derivative i j0 derivatives jac = Ret jac' ∧
    dense jac' n1 n2 n3 ∧
    ∀ i' j', row jac' i' j'
      = if decide (i' = i ∧ j0 ≤ j')
        then match derivatives !! (j' - j0) with
             | Some v => Some (stretched n3 v)
             | None => row jac i' j'
             end
        else row jac i' j'.
Proof.
  induction derivatives as [|v rest IH]; intros j0 jac Hd Hi Hj Hall.
  - exists jac. split_and!; try done. intros i' j'. by case_decide.
  - apply Forall_cons in Hall as [Hv Hall]. simpl in Hj.
    destruct (assign_row_spec jac n1 n2 n3 i j0 v) as (jac1 & E1 & Hd1 & Hr1);
      [done|done|lia|done|].
    destruct (IH (S j0) jac1) as (jac' & E & Hd' & Hr'); [done|done|lia|done|].
    exists jac'. simpl. rewrite E1. simpl. split_and!; try done.
    intros i' j'. rewrite Hr', Hr1.
    destruct (decide (i' = i ∧ j0 ≤ j')) as [[-> Hle]|Hn].
    + destruct (decide (j' = j0)) as [->|Hne].
      * rewrite decide_False by lia. rewrite decide_True by done.
        by rewrite Nat.sub_diag.
      * rewrite decide_True by lia.
        replace (j' - j0) with (S (j' - S j0)) by lia. simpl.
        destruct (rest !! (j' - S j0)); [done|].
        by rewrite decide_False by (intros [_ ?]; done).
    + rewrite decide_False by (intros [? ?]; apply Hn; split; [done|lia]).
      by rewrite decide_False by (intros [? ?]; apply Hn; split; [done|lia]).
Qed.

(** The loop over the output sensors. *)
Lemma for_prm_dict_spec n1 n2 n3 prm_dicts : ∀ i0 jac,
  dense jac n1 n2 n3 → i0 + length prm_dicts ≤ n1 →
  Forall (fun pd : pydict (value A) =>
            length pd ≤ n2 ∧ Forall (stretches n3) (dict_values pd))
         prm_dicts →
  ∃ jac', for_prm_dict i0 prm_dicts jac = Ret jac' ∧
    dense jac' n1 n2 n3 ∧
    ∀ i' j', row jac' i' j'
      = if decide (i0 ≤ i')
        then match prm_dicts !! (i' - i0) with
             | Some pd =>
                 match dict_values pd !! j' with
                 | Some v => Some (stretched n3 v)
                 | None => row jac i' j'
                 end
             | None => row jac i' j'
             end
        else row jac i' j'.
Proof.
  induction prm_dicts as [|pd rest IH]; intros i0 jac Hd Hi Hall.
  - exists jac. split_and!; try done. intros i' j'. by case_decide.
  - apply Forall_cons in Hall as [[Hlen Hpd] Hall]. simpl in Hi.
    destruct (for_derivative_spec n1 n2 n3 i0 (dict_values pd) 0 jac)
      as (jac1 & E1 & Hd1 & Hr1); [done|lia| |done|].
    { unfold dict_values. rewrite length_fmap. lia. }
    destruct (IH (S i0) jac1) as (jac' & E & Hd' & Hr'); [done|lia|done|].
    exists jac'. simpl. rewrite E1. simpl. split_and!; try done.
    intros i' j'. rewrite Hr', Hr1.
    destruct (decide (i0 ≤ i')) as [Hle|Hn].
    + destruct (decide (i' = i0)) as [->|Hne].
      * rewrite decide_False by lia. rewrite decide_True by (split; [done|lia]).
        by rewrite Nat.sub_diag, Nat.sub_0_r.
      * rewrite decide_True by lia.
        replace (i' - i0) with (S (i' - S i0)) by lia. simpl.
        destruct (rest !! (i' - S i0)) as [pd'|].
        -- destruct (dict_values pd' !! j'); [done|].
           by rewrite decide_False by (intros [? _]; done).
        -- by rewrite decide_False by (intros [? _]; done).
    + rewrite decide_False by lia.
      by rewrite decide_False by (intros [? _]; lia).
Qed.

Lemma np_zeros_dense (zero : A) n1 n2 n3 :
  dense (np_zeros zero n1 n2 n3) n1 n2 n3 ∧
  ∀ i j, i < n1 → j < n2 →
         row (np_zeros zero n1 n2 n3) i j = Some (replicate n3 zero).
Proof.
  assert (Hrow : ∀ i j r, row (np_zeros zero n1 n2 n3) i j = Some r →
                          r = replicate n3 zero ∧ i < n1 ∧ j < n2).
  { intros i j r. unfold row, np_zeros. simpl. intros H.
    destruct (replicate n1 (replicate n2 (replicate n3 zero)) !! i)
      as [m|] eqn:Em; simplify_eq/=.
    apply lookup_replicate in Em as [-> Hi].
    by apply lookup_replicate in H as [-> Hj]. }
  split.
  - split_and!; simpl.
    + done.
    + by rewrite length_replicate.
    + intros i m Hm. apply lookup_replicate in Hm as [-> _].
      by rewrite length_replicate.
    + intros i j r Hr. apply Hrow in Hr as (-> & _ & _).
      by rewrite length_replicate.
  - intros i j Hi Hj. unfold row, np_zeros. simpl.
    rewrite lookup_replicate_2 by done. simpl.
    by rewrite lookup_replicate_2.
Qed.

End WithNumbers.

End ArrayFacts.

Module ArrayTheorems.
Import ForwardModel ForwardModelSpec ArrayFacts.

Lemma py_max_spec (l : list nat) n :
  py_max l = Ret n → n ∈ l ∧ ∀ x, x ∈ l → x ≤ n.
Proof.
  destruct l as [|x l]; [done|]. simpl. intros [= <-].
  induction l as [|y l [IHin IHle]]; simpl.
  - split; [left|]. intros z Hz. apply list_elem_of_singleton in Hz. lia.
  - split.
    + destruct (Nat.max_spec y (foldr Nat.max x l)) as [[_ ->]|[_ ->]].
      * apply elem_of_cons in IHin as [->|Hin]; [left|]. by do 2 right.
      * right. left.
    + intros z Hz. apply elem_of_cons in Hz as [->|Hz].
      * specialize (IHle x (list_elem_of_here _ _)). lia.
      * apply elem_of_cons in Hz as [->|Hz]; [lia|].
        specialize (IHle z (list_elem_of_further _ _ _ Hz)). lia.
Qed.

(** C6, refuted: the derivative with respect to the scalar parameter [a]
    fills all three entries of its row; the row is not the derivative
    followed by zeros. *)
Lemma zero_padding_refuted :
  ∃ jac,
    jacobian_dict_to_array 0%Q ["y"] ForwardModelInputs.summary_inp
                           ForwardModelInputs.summary_jac_dict = Ret jac ∧
    shape jac = (1, 2, 3) ∧
    row jac 0 1 = Some [5%Q; 5%Q; 5%Q] ∧
    zero_padded 0%Q 3 (Scalar 5%Q) = [5%Q; 0%Q; 0%Q] ∧
    row jac 0 1 ≠ Some (zero_padded 0%Q 3 (Scalar 5%Q)).
Proof. eexists. vm_compute. repeat split. discriminate. Qed.

(** C6, amended. Let [n3] be the greatest element count of the input
    channels, and let the Jacobian dict have no more output sensors than
    the model, no more derivatives per sensor than there are input
    channels, and derivatives of [n3] elements or of one element. Then
    [jacobian_dict_to_array] returns a dense array of shape (output
    sensors, input channels, [n3]); the row of a derivative of [n3]
    elements holds its values, the row of a number or of an array of one
    element holds that value [n3] times, and a row for which the dict has
    no derivative holds zeros. *)
Theorem jacobian_dict_to_array_stretches {A B} (zero : A)
        (output_sensors : list string) (inp : pydict (value B))
        (jac_dict : pydict (pydict (value A))) (n3 : nat) :
  py_max (len_or_one <$> dict_values inp) = Ret n3 →
  length jac_dict ≤ length output_sensors →
  Forall (fun pd : pydict (value A) =>
            length pd ≤ length inp ∧ Forall (stretches n3) (dict_values pd))
         (dict_values jac_dict) →
  ∃ jac,
    jacobian_dict_to_array zero output_sensors inp jac_dict = Ret jac ∧
    dense jac (length output_sensors) (length inp) n3 ∧
    (∀ i j pd v, dict_values jac_dict !! i = Some pd →
                 dict_values pd !! j = Some v →
                 row jac i j = Some (stretched n3 v)) ∧
    (∀ i j, i < length output_sensors → j < length inp →
            (∀ pd, dict_values jac_dict !! i = Some pd →
                   dict_values pd !! j = None) →
            row jac i j = Some (replicate n3 zero)).
Proof.
  intros Hmax Hlen Hall. unfold jacobian_dict_to_array. rewrite Hmax. simpl.
  destruct (np_zeros_dense zero (length output_sensors) (length inp) n3)
    as [Hd0 Hz0].
  destruct (for_prm_dict_spec (length output_sensors) (length inp) n3
              (dict_values jac_dict) 0 _ Hd0) as (jac & E & Hd & Hr).
  { unfold dict_values. rewrite length_fmap. lia. }
  { done. }
  exists jac. split_and!; try done.
  - intros i j pd v Hpd Hv. rewrite Hr. rewrite decide_True by lia.
    by rewrite Nat.sub_0_r, Hpd, Hv.
  - intros i j Hi Hj Hnone. rewrite Hr. rewrite decide_True by lia.
    rewrite Nat.sub_0_r.
    destruct (dict_values jac_dict !! i) as [pd|] eqn:Epd.
    + rewrite (Hnone pd eq_refl). by apply Hz0.
    + by apply Hz0.
Qed.

Lemma jacobian_dict_to_array_stretches_witness :
  ∃ jac,
    jacobian_dict_to_array 0%Q ["y"] ForwardModelInputs.summary_inp
                           ForwardModelInputs.summary_jac_dict = Ret jac ∧
    dense jac 1 2 3 ∧
    (∀ i j pd v,
       dict_values ForwardModelInputs.summary_jac_dict !! i = Some pd →
       dict_values pd !! j = Some v →
       row jac i j = Some (stretched 3 v)) ∧
    (∀ i j, i < 1 → j < 2 →
            (∀ pd, dict_values ForwardModelInputs.summary_jac_dict !! i
                   = Some pd →
                   dict_values pd !! j = None) →
            row jac i j = Some (replicate 3 0%Q)).
Proof.
  apply (jacobian_dict_to_array_stretches 0%Q ["y"]
           ForwardModelInputs.summary_inp
           ForwardModelInputs.summary_jac_dict 3).
  - vm_compute. reflexivity.
  - simpl. lia.
  - repeat constructor; simpl; lia.
Defined.

End ArrayTheorems.

Module BridgeFacts.
Import ForwardModel Bridge BridgeSpec.

Section WithNumbers.
Context {A : Type} (zero : A).

Lemma nth_fmap_seq {B} (f : nat → B) n c d :
  c < n → nth c (f <$> seq 0 n) d = f c.
Proof.
  intros Hc. by rewrite nth_lookup, list_lookup_fmap, lookup_seq_lt by done.
Qed.

Lemma nth_take_drop (l : list A) k e k' :
  k' < e → nth k' (take e (drop (k * e) l)) zero = nth (k * e + k') l zero.
Proof.
  intros Hk. rewrite !nth_lookup, lookup_take_lt by done.
  by rewrite lookup_drop.
Qed.

Lemma nth_fmap_lt {B C} (h : B → C) (l : list B) k d d' :
  k < length l → nth k (h <$> l) d' = h (nth k l d).
Proof.
  intros Hk. rewrite !nth_lookup, list_lookup_fmap.
  by destruct (lookup_lt_is_Some_2 l k Hk) as [x ->].
Qed.

Lemma fmap_seq_ext {B} (f g : nat → B) n :
  (∀ k, k < n → f k = g k) → f <$> seq 0 n = g <$> seq 0 n.
Proof.
  intros H. apply list_fmap_ext. intros i k Hk.
  apply lookup_seq in Hk as [-> Hlt]. by apply H.
Qed.

Lemma zip_with_fmap_seq {B C D} (f : B → C → D) (g : nat → B)
      (l : list C) d n :
  length l = n →
  zip_with f (g <$> seq 0 n) l = (fun k => f (g k) (nth k l d)) <$> seq 0 n.
Proof.
  intros <-. apply list_eq. intros k.
  rewrite lookup_zip_with, !list_lookup_fmap.
  destruct (decide (k < length l)) as [Hk|Hk].
  - rewrite lookup_seq_lt by done. simpl.
    destruct (lookup_lt_is_Some_2 l k Hk) as [x Hx]. rewrite Hx. simpl.
    by rewrite nth_lookup, Hx.
  - by rewrite lookup_seq_ge by lia.
Qed.

End WithNumbers.

(** *** The vector of [forward] and its reading by [__call__] *)

Lemma dict_set_fresh {V} (d : pydict V) k v :
  k ∉ dict_keys d → dict_set d k v = d ++ [(k, v)].
Proof.
  induction d as [|[k' v'] d IH]; intros Hk; [done|]. simpl in *.
  apply not_elem_of_cons in Hk as [Hne Hk].
  destruct (String.eqb_spec k' k) as [->|_]; [done|]. by rewrite IH.
Qed.

Lemma for_response_full n3 (response_items : pydict (value Q)) :
  ∀ i pre (rs : pydict nat),
  length pre = i * n3 →
  NoDup (dict_keys rs ++ dict_keys response_items) →
  Forall (full_row n3) response_items →
  for_response i n3 response_items
               (pre ++ replicate (length response_items * n3) 0%Q, rs)
  = Ret (pre ++ concat ((fun kv => elements (snd kv)) <$> response_items),
         rs ++ ((fun kv => (fst kv, n3)) <$> response_items)).
Proof.
  induction response_items as [|[k v] rest IH]; intros i pre rs Hpre Hnd Hall.
  - simpl. by rewrite !app_nil_r.
  - apply Forall_cons in Hall as [(xs & Hv & Hxs) Hall]. simpl in Hv. subst v.
    cbn [for_response]. unfold slice_assign. cbn [fst snd len_or_one].
    assert (Hlen : length (pre ++ replicate (length ((k, Array xs) :: rest) * n3) 0%Q)
                   = i * n3 + (n3 + length rest * n3)).
    { rewrite length_app, length_replicate. simpl. lia. }
    rewrite Hlen, Hxs.
    replace ((i * n3) `min` (i * n3 + (n3 + length rest * n3))) with (i * n3) by lia.
    replace ((i * n3 + n3) `min` (i * n3 + (n3 + length rest * n3)))
      with (i * n3 + n3) by lia.
    replace (i * n3 + n3 - i * n3) with n3 by lia.
    simpl broadcast_to. rewrite Hxs, Nat.eqb_refl. simpl.
    assert (Hk : k ∉ dict_keys rs).
    { apply NoDup_app in Hnd as (_ & Hdis & _). intros Hin.
      apply (Hdis k Hin). left. }
    rewrite (dict_set_fresh rs k n3 Hk).
    rewrite <- Hpre, take_app_length.
    rewrite replicate_add, (app_assoc pre (replicate n3 0%Q)).
    replace (length pre + n3) with (length (pre ++ replicate n3 0%Q))
      by (rewrite length_app, length_replicate; done).
    rewrite drop_app_length.
    rewrite (app_assoc pre xs).
    rewrite (IH (S i) (pre ++ xs) (rs ++ [(k, n3)])).
    + simpl. by rewrite <- !app_assoc.
    + rewrite length_app. simpl. lia.
    + unfold dict_keys in *. rewrite fmap_app. simpl. by rewrite <- app_assoc.
    + done.
Qed.

Lemma reconstruct_full n3 (response_items : pydict (value Q)) :
  ∀ pre post,
  Forall (full_row n3) response_items →
  reconstruct (length pre) ((fun kv => (fst kv, n3)) <$> response_items)
              (pre ++ concat ((fun kv => elements (snd kv)) <$> response_items)
                   ++ post)
  = response_items.
Proof.
  induction response_items as [|[k v] rest IH]; intros pre post Hall; [done|].
  apply Forall_cons in Hall as [(xs & Hv & Hxs) Hall]. simpl in Hv. subst v.
  simpl. rewrite drop_app_length, <- app_assoc, <- Hxs, take_app_length.
  f_equal.
  replace (length pre + length xs) with (length (pre ++ xs))
    by (by rewrite length_app).
  rewrite (app_assoc pre xs). rewrite Hxs in *. by apply IH.
Qed.

End BridgeFacts.

Module BridgeTheorems.
Import ForwardModel Bridge BridgeSpec BridgeFacts.

(** C3. For a cached Jacobian of shape (sensors, inputs, elements) and an
    incoming gradient with one entry per sensor and element, [backward]
    returns one entry per input: the sum over the sensors [s] and the
    elements [e] of [dl/dy[s, e] * dy/dtheta[s, i, e]] for an input [i]
    flagged in [needs_input_grad], and [None] for an input that is not. *)
Theorem backward_chain_rule {A} (zero : A) (add mul : A → A → A)
        (dy_dtheta : ndarray3 A) (dl_dy_0 : list A)
        (needs_input_grad : list bool) (n_s n_i n_e : nat) :
  shape dy_dtheta = (n_s, n_i, n_e) →
  well_shaped dy_dtheta →
  length dl_dy_0 = n_s * n_e →
  length needs_input_grad = n_i →
  ∃ grads,
    backward zero add mul dy_dtheta dl_dy_0 needs_input_grad = Ret grads ∧
    length grads = n_i ∧
    ∀ i (required : bool), needs_input_grad !! i = Some required →
      grads !! i
      = Some (if required
              then Some (total_derivative zero add mul dy_dtheta dl_dy_0 i)
              else None).
Proof.
  intros Hsh [Hlen _] Hdl Hneeds. unfold backward, reshape.
  rewrite Hsh in *. simpl in *.
  rewrite Hdl, Nat.eqb_refl. simpl.
  eexists. split; [reflexivity|].
  unfold sum_dim0. simpl. rewrite app_nil_r.
  split.
  - rewrite length_zip_with, length_fmap, length_seq. lia.
  - intros i required Hi.
    assert (Hlt : i < n_i) by (rewrite <- Hneeds; by eapply lookup_lt_Some).
    rewrite lookup_zip_with, Hi. simpl.
    rewrite list_lookup_fmap, lookup_seq_lt by done. simpl.
    destruct required; [|done]. do 2 f_equal.
    unfold total_derivative, matmul, transpose. rewrite Hsh. simpl.
    f_equal.
    rewrite (zip_with_fmap_seq _ _ _ [] n_s) by (by rewrite length_fmap).
    rewrite <- list_fmap_compose. apply fmap_seq_ext. intros k Hk. simpl.
    rewrite (nth_fmap_seq _ n_i i zero Hlt).
    f_equal. apply fmap_seq_ext. intros k' Hk'.
    rewrite (nth_take_drop zero) by done. f_equal.
    unfold entry.
    rewrite (nth_fmap_lt _ _ _ [] []) by lia.
    rewrite (nth_fmap_seq _ n_e k' []) by done.
    by rewrite (nth_fmap_seq _ n_i i zero).
Qed.

Lemma backward_chain_rule_witness :
  ∃ grads,
    backward 0%Q Qplus Qmult BridgeInputs.small_jacobian
             BridgeInputs.small_dl_dy BridgeInputs.small_needs_input_grad
    = Ret grads ∧
    length grads = 2 ∧
    ∀ i (required : bool),
      BridgeInputs.small_needs_input_grad !! i = Some required →
      grads !! i
      = Some (if required
              then Some (total_derivative 0%Q Qplus Qmult
                           BridgeInputs.small_jacobian
                           BridgeInputs.small_dl_dy i)
              else None).
Proof.
  apply (backward_chain_rule 0%Q Qplus Qmult BridgeInputs.small_jacobian
           BridgeInputs.small_dl_dy BridgeInputs.small_needs_input_grad
           2 2 2).
  - reflexivity.
  - split; [reflexivity|]. repeat constructor.
  - reflexivity.
  - reflexivity.
Defined.

(** The sensor value gets no gradient, the parameter gets 3+4+7+8. *)
Example backward_small :
  backward 0%Q Qplus Qmult BridgeInputs.small_jacobian
           BridgeInputs.small_dl_dy BridgeInputs.small_needs_input_grad
  = Ret [None; Some 22%Q].
Proof. vm_compute. reflexivity. Qed.

(** C2 on a model whose output sensors have one value each while its
    input sensor has three: [forward] puts the values three entries
    apart, [__call__] reads them one after the other, and what comes
    back for [S2] is the zero next to the value of [S1]. *)
Theorem round_trip_loses_second_sensor :
  response BridgeInputs.summary_model
           (make_inp BridgeInputs.summary_model BridgeInputs.summary_values)
  = Ret [("S1", Scalar 12%Q); ("S2", Scalar 4%Q)] ∧
  (∃ r, forward BridgeInputs.summary_model BridgeInputs.summary_values
        = Ret r ∧
        y_torch r = [12%Q; 0%Q; 0%Q; 4%Q; 0%Q; 0%Q] ∧
        response_structure r = [("S1", 1); ("S2", 1)]) ∧
  call_through_autograd BridgeInputs.summary_model BridgeInputs.summary_values
  = Ret [("S1", Array [12%Q]); ("S2", Array [0%Q])].
Proof.
  split; [vm_compute; reflexivity|]. split.
  - eexists. split; [vm_compute; reflexivity|]. split; reflexivity.
  - vm_compute. reflexivity.
Qed.

(** When every output is an array of exactly [n3] values, the stride of
    [forward], the two ways of counting agree: the loop of [forward]
    succeeds and [__call__] gives back the named outputs. *)
Lemma round_trip_full_rows n3 (response_dict : pydict (value Q)) :
  NoDup (dict_keys response_dict) →
  Forall (full_row n3) response_dict →
  ∃ y rs,
    for_response 0 n3 response_dict
                 (replicate (length response_dict * n3) 0%Q, [])
    = Ret (y, rs) ∧
    call_dunder rs (ResVector y) = response_dict.
Proof.
  intros Hnd Hall. eexists _, _. split.
  - by apply (for_response_full n3 response_dict 0 [] []).
  - simpl.
    pose proof (reconstruct_full n3 response_dict [] [] Hall) as H.
    simpl in H. by rewrite app_nil_r in H.
Qed.

(** The linear model with two output sensors of as many values as the
    input sensor: the named outputs come back as they were. *)
Example round_trip_two_sensors :
  call_through_autograd BridgeInputs.two_sensor_model
                        BridgeInputs.two_sensor_values
  = response BridgeInputs.two_sensor_model
             (make_inp BridgeInputs.two_sensor_model
                       BridgeInputs.two_sensor_values).
Proof. vm_compute. reflexivity. Qed.

End BridgeTheorems.

Module SolverFacts.
Import Heap HeapSpec HeapFacts ForwardModel Solver SolverSpec.

Section WithProblem.
Context {P E N : Type}.
Variable from_numpy : E → E.
Variable assign : E → N → N.
Variable structure_of : string → nat → pydict nat.
Variable σ0 : gmap loc (obj P E N).

Local Abbreviation fresh_fms := (fresh_fms σ0).
Local Abbreviation copied := (copied σ0).
Local Abbreviation closures_fresh := (closures_fresh σ0).
Local Abbreviation ready := (ready σ0).

Lemma keeps_triple {A} (m : Heap.M (obj P E N) A) (φ : A → Prop) Pre :
  keeps σ0 m φ → triple σ0 Pre m (fun a _ => φ a).
Proof.
  intros Hm σ Hσ _. by apply Hm.
Qed.

Lemma triple_deref_problem Pre l :
  triple σ0 Pre (deref_problem P E N l)
         (fun p σ => Pre σ ∧ σ !! l = Some (ProblemObj p)).
Proof.
  unfold deref_problem. eapply triple_bind; [apply triple_deref|].
  intros [p|f].
  - apply (triple_ret σ0 p (fun p σ => Pre σ ∧ σ !! l = Some (ProblemObj p))).
  - apply triple_raise.
Qed.

Lemma triple_deref_forward_model Pre l :
  triple σ0 Pre (deref_forward_model P E N l)
         (fun f σ => Pre σ ∧ σ !! l = Some (ForwardModelObj f)).
Proof.
  unfold deref_forward_model. eapply triple_bind; [apply triple_deref|].
  intros [p|f].
  - apply triple_raise.
  - apply (triple_ret σ0 f
             (fun f σ => Pre σ ∧ σ !! l = Some (ForwardModelObj f))).
Qed.

Lemma keeps_deref_forward_model l :
  keeps σ0 (deref_forward_model P E N l) (fun _ => True).
Proof.
  unfold deref_forward_model. eapply keeps_bind; [apply keeps_deref|].
  intros [p|f] _; [|by apply keeps_ret].
  intros σ Hσ. done.
Qed.

Lemma keeps_deepcopy_forward_models fms : ∀ memo,
  Forall (fun m : loc * loc => σ0 !! snd m = None) memo →
  keeps σ0 (deepcopy_forward_models P E N fms memo) fresh_fms.
Proof.
  induction fms as [|[name l] fms IH]; intros memo Hmemo.
  - apply keeps_ret. constructor.
  - cbn [deepcopy_forward_models].
    destruct (list_find (fun m => fst m = l) memo) as [[i [l0 l']]|] eqn:Ef.
    + apply list_find_Some in Ef as (Hi & _ & _).
      assert (Hl' : σ0 !! l' = None).
      { rewrite Forall_forall in Hmemo.
        apply (Hmemo (l0, l')). by eapply list_elem_of_lookup_2. }
      eapply keeps_bind; [by apply IH|]. intros rest' Hrest.
      apply keeps_ret. by constructor.
    + eapply keeps_bind; [apply keeps_deref_forward_model|]. intros f _.
      eapply keeps_bind; [apply keeps_alloc|]. intros l' Hl'.
      eapply keeps_bind; [apply IH; by constructor|]. intros rest' Hrest.
      apply keeps_ret. by constructor.
Qed.

Lemma triple_deepcopy Pre l :
  triple σ0 Pre (deepcopy P E N l) copied.
Proof.
  unfold deepcopy.
  eapply triple_bind; [apply (triple_deref_problem Pre)|]. intros p.
  eapply triple_bind.
  { apply keeps_triple. by apply (keeps_deepcopy_forward_models _ []). }
  intros fms. simpl.
  apply (triple_pre _ _ (fresh_fms fms)); [done|]. intros Hfms.
  eapply triple_conseq; [|apply triple_alloc|]; [intros σ H; exact H|].
  intros l' σ' (Hl' & σ & _ & _ & ->). split; [done|].
  eexists. rewrite lookup_insert_eq. split; [done|]. done.
Qed.

Lemma copied_update problem σ p p' :
  copied problem σ → σ !! problem = Some (ProblemObj p) →
  forward_models p' = forward_models p →
  copied problem (<[problem := ProblemObj p']> σ).
Proof.
  intros (Hfresh & p0 & Hp0 & Hfms) Hp Heq. split; [done|].
  exists p'. rewrite lookup_insert_eq. split; [done|].
  rewrite Heq. by simplify_eq.
Qed.

Lemma triple_transform l :
  triple σ0 (copied l) (transform_experimental_data P E N from_numpy l)
         (fun l' σ => copied l' σ).
Proof.
  unfold transform_experimental_data.
  eapply triple_bind; [apply triple_deref_problem|]. intros p. simpl.
  apply (triple_pre _ _ (σ0 !! l = None)); [intros σ [[H1 H2] H3]; exact H1|].
  intros Hl.
  eapply triple_bind; [by apply triple_store|]. intros ?. simpl.
  eapply triple_conseq; [|apply (triple_ret σ0 l (fun l' σ => copied l' σ))|];
    [|done].
  intros σ' (σ & [Hc Hp] & ->). by eapply copied_update.
Qed.

Lemma triple_assign l :
  triple σ0 (copied l) (assign_experiments_to_noise_models P E N assign l)
         (fun _ σ => copied l σ).
Proof.
  unfold assign_experiments_to_noise_models.
  eapply triple_bind; [apply triple_deref_problem|]. intros p. simpl.
  apply (triple_pre _ _ (σ0 !! l = None)); [intros σ [[H1 H2] H3]; exact H1|].
  intros Hl.
  eapply triple_conseq; [|by apply triple_store|]; [intros σ H; exact H|].
  intros _ σ' (σ & [Hc Hp] & ->). by eapply copied_update.
Qed.

Lemma triple_translate problem p ls : ∀ (S : loc → Prop),
  Forall (fun l => σ0 !! l = None) ls →
  triple σ0 (fun σ => problem_at problem p σ ∧ closures_fresh S σ)
         (translate_forward_models P E N ls)
         (fun _ σ => problem_at problem p σ ∧
                     closures_fresh (fun l => l ∈ ls ∨ S l) σ).
Proof.
  induction ls as [|l ls IH]; intros S Hls.
  - eapply triple_conseq; [|apply (triple_ret σ0 tt (fun _ σ =>
      problem_at problem p σ ∧ closures_fresh S σ))|].
    + intros σ H. exact H.
    + intros _ σ [Hp Hc]. split; [done|].
      intros l f t [Hl|Hl]; [by apply elem_of_nil in Hl|]. by apply Hc.
  - apply Forall_cons in Hls as [Hl Hls]. cbn [translate_forward_models].
    eapply triple_bind; [apply triple_deref_forward_model|]. intros f.
    eapply triple_bind; [by apply triple_store|]. intros ?. simpl.
    eapply triple_conseq; [|apply (IH (fun x => x = l ∨ S x) Hls)|].
    + intros σ' (σ & [[Hp Hc] Hf] & ->). split.
      * unfold problem_at in *. rewrite lookup_insert_ne; [done|].
        intros ->. rewrite Hf in Hp. done.
      * intros l0 f0 t [->|HS] Hl0 Hcall.
        -- rewrite lookup_insert_eq in Hl0. simplify_eq/=. done.
        -- destruct (decide (l0 = l)) as [->|Hne].
           ++ rewrite lookup_insert_eq in Hl0. simplify_eq/=. done.
           ++ rewrite lookup_insert_ne in Hl0 by done. by eapply Hc.
    + intros _ σ [Hp Hc]. split; [done|].
      intros l0 f0 t [Hin|HS]; [|apply Hc; by right; right].
      apply elem_of_cons in Hin as [->|Hin]; apply Hc; [right; by left|by left].
Qed.

Lemma triple_evaluate_forward_model problem p name step l :
  l ∈ dict_values (forward_models p) →
  triple σ0 (ready problem p)
         (evaluate_forward_model P E N structure_of name step l)
         (fun _ σ => ready problem p σ).
Proof.
  intros Hl. unfold evaluate_forward_model.
  eapply triple_bind; [apply triple_deref_forward_model|]. intros f.
  destruct (fm_call f) as [|target] eqn:Ecall.
  - eapply triple_conseq;
      [|apply (triple_ret σ0 tt (fun _ σ => ready problem p σ))|]; [|done].
    by intros σ [H _].
  - apply (triple_pre _ _ (σ0 !! target = None)).
    { intros σ [[_ Hc] Hf]. by eapply Hc. }
    intros Htarget.
    eapply triple_bind; [apply triple_deref_forward_model|]. intros g.
    eapply triple_conseq; [|by apply triple_store|]; [intros σ H; exact H|].
    intros _ σ' (σ & [[[Hp Hc] Hf] Hg] & ->). split.
    + unfold problem_at in *. rewrite lookup_insert_ne; [done|].
      intros ->. rewrite Hg in Hp. done.
    + intros l0 f0 t HS Hl0 Hcall.
      destruct (decide (l0 = target)) as [->|Hne].
      * rewrite lookup_insert_eq in Hl0. simplify_eq/=. by eapply Hc.
      * rewrite lookup_insert_ne in Hl0 by done. by eapply Hc.
Qed.

Lemma triple_evaluate_forward_models problem p step fms :
  (∀ nl, nl ∈ fms → snd nl ∈ dict_values (forward_models p)) →
  triple σ0 (ready problem p)
         (evaluate_forward_models P E N structure_of fms step)
         (fun _ σ => ready problem p σ).
Proof.
  induction fms as [|[name l] fms IH]; intros Hsub.
  - apply (triple_ret σ0 tt (fun _ σ => ready problem p σ)).
  - cbn [evaluate_forward_models].
    eapply triple_bind.
    { apply triple_evaluate_forward_model. apply (Hsub (name, l)). left. }
    intros ?. apply IH. intros nl Hnl. apply Hsub. by right.
Qed.

Lemma triple_mcmc_run problem p n :
  triple σ0 (ready problem p) (mcmc_run P E N structure_of problem n)
         (fun _ σ => ready problem p σ).
Proof.
  induction n as [|n IH].
  - apply (triple_ret σ0 tt (fun _ σ => ready problem p σ)).
  - cbn [mcmc_run].
    eapply triple_bind; [apply triple_deref_problem|]. intros p'.
    apply (triple_pre _ _ (p' = p)).
    { intros σ [[Hp _] Hp']. unfold problem_at in Hp. by simplify_eq. }
    intros ->.
    eapply triple_bind.
    { eapply triple_conseq; [|apply (triple_evaluate_forward_models problem p)|].
      - by intros σ [H _].
      - intros nl Hnl. unfold dict_values. apply list_elem_of_fmap.
        by exists nl.
      - intros x σ H. exact H. }
    intros ?. apply IH.
Qed.

Lemma triple_run_pyro_solver problem_ori n :
  triple σ0 (fun _ => True)
         (run_pyro_solver P E N from_numpy assign structure_of problem_ori n)
         (fun _ _ => True).
Proof.
  unfold run_pyro_solver, run_pyro_solver_with.
  eapply triple_bind; [apply triple_deepcopy|]. intros problem.
  eapply triple_bind; [apply triple_transform|]. intros problem'. simpl.
  eapply triple_bind.
  { eapply triple_conseq; [|apply (triple_assign problem')|];
      [intros σ H; exact H|]. intros x σ H. exact H. }
  intros ?. simpl.
  eapply triple_bind; [apply triple_deref_problem|]. intros p.
  apply (triple_pre _ _ (fresh_fms (forward_models p))).
  { intros σ [(_ & p0 & Hp0 & Hfms) Hp]. by simplify_eq. }
  intros Hfms.
  eapply triple_bind.
  { eapply triple_conseq;
      [|apply (triple_translate problem' p _ (fun _ => False))|].
    - intros σ [_ Hp]. split; [exact Hp|]. by intros l f t [].
    - unfold dict_values. apply Forall_fmap.
      eapply Forall_impl; [exact Hfms|]. by intros [name l].
    - intros x σ H. exact H. }
  intros ?. simpl.
  eapply triple_conseq; [|apply (triple_mcmc_run problem' p)|]; [|done].
  intros σ [Hp Hc]. split; [done|].
  intros l f t Hl. apply Hc. by left.
Qed.
End WithProblem.

End SolverFacts.

Module SolverTheorems.
Import Heap HeapSpec HeapFacts ForwardModel Solver SolverFacts.

(** C7 on any parameter vector and any noise models: [loglike] returns
    [None], not the sum of the contributions. *)
Theorem loglike_returns_none {Theta Response Prms : Type}
        (evaluate_model_response : Theta → list string → Response)
        (get_parameters : Theta → pydict string → Prms)
        (noise_models : list (noise_model Response Prms))
        (theta : Theta) (tr : trace) :
  fst (loglike Theta Response Prms evaluate_model_response get_parameters
               noise_models theta tr) = PyNone.
Proof. reflexivity. Qed.

(** What [loglike] does do: when every noise model adds its
    log-probability to the trace, the trace ends with the contributions
    of all noise models, in their order. *)
Lemma loglike_trace {Theta Response Prms : Type}
      (evaluate_model_response : Theta → list string → Response)
      (get_parameters : Theta → pydict string → Prms)
      (ll : noise_model Response Prms → Response → Prms → Q)
      (noise_models : list (noise_model Response Prms))
      (theta : Theta) (tr : trace) :
  (∀ nm r p tr', sample_cond_likelihood _ _ nm r p tr' = tr' ++ [ll nm r p]) →
  snd (loglike Theta Response Prms evaluate_model_response get_parameters
               noise_models theta tr)
  = tr ++ ((fun nm => ll nm (evaluate_model_response theta
                               (experiment_names _ _ nm))
                         (get_parameters theta (nm_prms_def _ _ nm)))
             <$> noise_models).
Proof.
  intros Hll. unfold loglike. simpl. revert tr.
  induction noise_models as [|nm rest IH]; intros tr; simpl.
  - by rewrite app_nil_r.
  - rewrite IH, Hll. by rewrite <- app_assoc.
Qed.

Example loglike_one_noise_model :
  loglike unit unit unit (fun _ _ => tt) (fun _ _ => tt)
          [SolverInputs.one_noise_model] tt []
  = (PyNone, [(-3 # 2)%Q]).
Proof. reflexivity. Qed.

(** C9. Every object that exists when [run_pyro_solver] is called, the
    problem passed to it and its forward models among them, is after the
    run what it was before, whether the run returned or raised. *)
Theorem run_pyro_solver_keeps_problem_ori {P E N : Type}
        (from_numpy : E → E) (assign : E → N → N)
        (structure_of : string → nat → pydict nat)
        (problem_ori : loc) (n_evaluations : nat)
        (σ : gmap loc (obj P E N)) (l : loc) (o : obj P E N) :
  σ !! l = Some o →
  snd (run_pyro_solver P E N from_numpy assign structure_of problem_ori
                       n_evaluations σ) !! l = Some o.
Proof.
  intros Hl.
  destruct (triple_run_pyro_solver from_numpy assign structure_of σ
              problem_ori n_evaluations σ) as [Hsub _]; [done..|].
  by eapply lookup_weaken.
Qed.

Lemma run_pyro_solver_keeps_problem_ori_witness :
  snd (run_pyro_solver SolverInputs.P SolverInputs.E SolverInputs.N
         SolverInputs.from_numpy SolverInputs.assign
         SolverInputs.structure_of 0 3 SolverInputs.store_ori) !! 1
  = Some (ForwardModelObj SolverInputs.lin_re).
Proof.
  apply (run_pyro_solver_keeps_problem_ori
           SolverInputs.from_numpy SolverInputs.assign
           SolverInputs.structure_of 0 3 SolverInputs.store_ori 1).
  vm_compute. reflexivity.
Defined.

(** The run on the concrete problem returns; the original problem and
    forward model are as before, and the copies carry the replaced [call]
    and the response structure. *)
Example run_pyro_solver_concrete :
  let r := run_pyro_solver SolverInputs.P SolverInputs.E SolverInputs.N
             SolverInputs.from_numpy SolverInputs.assign
             SolverInputs.structure_of 0 3 SolverInputs.store_ori in
  fst r = Ret tt ∧
  snd r !! 0 = Some (ProblemObj SolverInputs.problem_ori) ∧
  snd r !! 1 = Some (ForwardModelObj SolverInputs.lin_re) ∧
  size (snd r) = 4 ∧
  ∃ l, l ≠ 1 ∧
       snd r !! l = Some (ForwardModelObj
                            {| fm_call := CallAutograd l;
                               fm_response_structure := [("y", 2)] |}).
Proof.
  vm_compute. repeat split. exists 2. vm_compute. split; [discriminate|done].
Qed.

(** With [cp.copy] in the place of [cp.deepcopy] the same statements
    would replace [call] on the forward model of the original problem. *)
Example shallow_copy_would_mutate :
  snd (run_pyro_solver_with SolverInputs.P SolverInputs.E SolverInputs.N
         SolverInputs.from_numpy SolverInputs.assign
         SolverInputs.structure_of
         (shallow_copy SolverInputs.P SolverInputs.E SolverInputs.N)
         0 3 SolverInputs.store_ori) !! 1
  = Some (ForwardModelObj {| fm_call := CallAutograd 1;
                             fm_response_structure := [("y", 2)] |}).
Proof. vm_compute. reflexivity. Qed.

End SolverTheorems.

(** ** What the loops of the resolution can end in *)

Module ResolverCases.
Import Resolver ResolverSpec ResolverFacts.

Lemma getitem_cases (d : items) k :
  match getitem d k with
  | Ret v => (k, v) ∈ d
  | Raise e => e = KeyError k ∧ k ∉ keys d
  end.
Proof.
  induction d as [|[k' v'] d IH]; simpl.
  - split; [done|]. apply not_elem_of_nil.
  - destruct (String.eqb_spec k' k) as [->|Hne]; [left|].
    destruct (getitem d k) as [v|e].
    + by right.
    + destruct IH as [-> Hk]. split; [done|].
      apply not_elem_of_cons. split; [congruence|done].
Qed.

Lemma settled_from_loop (d : items) idx K depsK :
  NoDup (keys d) → d !! idx = Some (K, depsK) →
  (∀ dep, dep ∈ depsK →
     ∃ j v, d !! j = Some (dep, v) ∧ j ≤ idx ∧ K ∉ v) →
  settled d idx.
Proof.
  intros Hnd HK Hall k deps dep Hk Hdep. rewrite HK in Hk. simplify_eq.
  destruct (Hall dep Hdep) as (j & v & Hj & Hle & HKv).
  exists j. split; [by eapply keys_lookup|].
  destruct (decide (j = idx)) as [->|Hne]; [|lia].
  rewrite HK in Hj. simplify_eq. done.
Qed.

(** What the loop over the dependencies of [K] can end in. *)
Lemma for_dependency_cases idx K deps : ∀ d c,
  NoDup (keys d) → idx < length d →
  match for_dependency idx K deps (d, c) with
  | Ret (d', c') =>
      d' ≡ₚ d ∧
      (c' = true → c = true ∧ d' = d ∧
         ∀ dep, dep ∈ deps →
           ∃ j v, d !! j = Some (dep, v) ∧ j ≤ idx ∧ K ∉ v)
  | Raise (RuntimeError a b) => a = K ∧ b ∈ deps ∧ ∃ v, (b, v) ∈ d ∧ K ∈ v
  | Raise (KeyError k) => k ∈ deps ∧ k ∉ keys d
  | Raise _ => False
  end.
Proof.
  induction deps as [|dep rest IH]; intros d c Hnd Hidx.
  - simpl. split; [done|]. intros ->. split_and!; try done.
    intros dep H. by apply elem_of_nil in H.
  - rewrite for_dependency_cons. simpl fst.
    pose proof (getitem_cases d dep) as Hget.
    destruct (getitem d dep) as [v|e];
      [|destruct Hget as [-> Hk]; split; [left|done]].
    destruct (contains v K) eqn:Hc.
    { split_and!; [done|left|]. exists v. split; [done|].
      by apply contains_elem_of. }
    assert (HKv : K ∉ v).
    { intros HK. apply contains_elem_of in HK. congruence. }
    assert (Hkey : dep ∈ keys d) by (apply elem_of_keys; by exists v).
    destruct (key_position d dep Hkey) as (j & v' & Hj & Hkj).
    assert (v' = v) as ->.
    { pose proof (getitem_elem_of d dep v' Hnd
                    (list_elem_of_lookup_2 _ _ _ Hj)) as H1.
      pose proof (getitem_elem_of d dep v Hnd Hget) as H2. congruence. }
    rewrite (index_lookup _ _ _ Hnd Hkj).
    destruct (Nat.ltb_spec idx j) as [Hlt|Hge].
    + destruct (lookup_lt_is_Some_2 d idx Hidx) as [a Ha].
      destruct (swap_lt d idx j a (dep, v) Ha Hj Hlt)
        as (d1 & -> & Hp1 & Ht1 & Hi1).
      assert (Hnd1 : NoDup (keys d1)) by (by rewrite (keys_perm _ _ Hp1)).
      rewrite (dict_nodup d1 Hnd1).
      specialize (IH d1 false Hnd1).
      rewrite (Permutation_length Hp1) in IH. specialize (IH Hidx).
      destruct (for_dependency idx K rest (d1, false)) as [[d' c']|e].
      * destruct IH as [Hp Hcc]. split; [by rewrite Hp|].
        intros ->. by destruct (Hcc eq_refl) as [? _].
      * destruct e as [k| | |a' b|]; try done.
        -- destruct IH as [Hin Hk]. split; [by right|].
           by rewrite <- (keys_perm _ _ Hp1).
        -- destruct IH as (-> & Hin & v0 & Hv0 & HK).
           split_and!; [done|by right|].
           exists v0. split; [by rewrite <- Hp1|done].
    + specialize (IH d c Hnd Hidx).
      destruct (for_dependency idx K rest (d, c)) as [[d' c']|e].
      * destruct IH as [Hp Hcc]. split; [done|].
        intros ->. destruct (Hcc eq_refl) as (-> & -> & Hall).
        split_and!; try done. intros x Hx.
        apply elem_of_cons in Hx as [->|Hx]; [|by apply Hall].
        exists j, v. split_and!; [done|lia|done].
      * destruct e as [k| | |a' b|]; try done.
        -- destruct IH as [Hin Hk]. split; [by right|done].
        -- destruct IH as (-> & Hin & Hrest).
           split_and!; [done|by right|done].
Qed.

(** What the loop over the places can end in. *)
Lemma for_idx_cases idxs : ∀ d c,
  NoDup (keys d) → Forall (fun i => i < length d) idxs →
  match for_idx idxs (d, c) with
  | Ret (d', c') =>
      d' ≡ₚ d ∧
      (c' = true → c = true ∧ d' = d ∧ Forall (settled d) idxs)
  | Raise (RuntimeError a b) => depends d a b ∧ depends d b a
  | Raise (KeyError k) => (∃ a, depends d a k) ∧ k ∉ keys d
  | Raise _ => False
  end.
Proof.
  induction idxs as [|idx idxs IH]; intros d c Hnd Hall.
  - simpl. split; [done|]. by intros ->.
  - apply Forall_cons in Hall as [Hidx Hall].
    destruct (lookup_lt_is_Some_2 d idx Hidx) as [[K depsK] HK].
    assert (HKin : (K, depsK) ∈ d) by (by eapply list_elem_of_lookup_2).
    rewrite for_idx_cons. simpl fst. rewrite (keys_lookup _ _ _ _ HK).
    rewrite (getitem_elem_of d K depsK Hnd HKin).
    pose proof (for_dependency_cases idx K depsK d c Hnd Hidx) as Hdep.
    destruct (for_dependency idx K depsK (d, c)) as [[d1 c1]|e].
    + destruct Hdep as [Hp1 Hc1].
      assert (Hnd1 : NoDup (keys d1)) by (by rewrite (keys_perm _ _ Hp1)).
      specialize (IH d1 c1 Hnd1).
      rewrite (Permutation_length Hp1) in IH. specialize (IH Hall).
      destruct (for_idx idxs (d1, c1)) as [[d' c']|e].
      * destruct IH as [Hp Hcc]. split; [by rewrite Hp|].
        intros ->. destruct (Hcc eq_refl) as (-> & -> & Hset).
        destruct (Hc1 eq_refl) as (-> & -> & Hdeps).
        split_and!; try done. constructor; [|done].
        by eapply settled_from_loop.
      * destruct e as [k| | |a b|]; try done.
        -- destruct IH as [[a Ha] Hk]. split.
           ++ exists a. by apply (depends_perm d d1).
           ++ by rewrite <- (keys_perm _ _ Hp1).
        -- destruct IH as [H1 H2]. split; by apply (depends_perm d d1).
    + destruct e as [k| | |a b|]; try done.
      * destruct Hdep as [Hin Hk]. split; [|done]. exists K. by exists depsK.
      * destruct Hdep as (-> & Hin & v & Hv & HKv). split.
        -- by exists depsK.
        -- by exists v.
Qed.

Lemma elem_of_idx_latent_from (d : items) : ∀ i0 i,
  i ∈ idx_latent_from i0 d ↔
  i0 ≤ i ∧ ∃ k dep deps, d !! (i - i0) = Some (k, dep :: deps).
Proof.
  induction d as [|[k v] d IH]; intros i0 i.
  - unfold idx_latent_from. simpl. split; [by intros H%elem_of_nil|].
    by intros (_ & k & dep & deps & H).
  - destruct v as [|dep deps].
    + change (idx_latent_from i0 ((k, []) :: d))
        with (idx_latent_from (S i0) d).
      rewrite IH. split.
      * intros (Hle & k' & dep' & deps' & H). split; [lia|].
        exists k', dep', deps'.
        by replace (i - i0) with (S (i - S i0)) by lia.
      * intros (Hle & k' & dep' & deps' & H).
        destruct (decide (i = i0)) as [->|Hne].
        { rewrite Nat.sub_diag in H. done. }
        split; [lia|]. exists k', dep', deps'.
        by replace (i - i0) with (S (i - S i0)) in H by lia.
    + rewrite idx_latent_from_head, elem_of_cons, IH. split.
      * intros [->|(Hle & k' & dep' & deps' & H)].
        -- split; [lia|]. rewrite Nat.sub_diag. by exists k, dep, deps.
        -- split; [lia|]. exists k', dep', deps'.
           by replace (i - i0) with (S (i - S i0)) by lia.
      * intros (Hle & k' & dep' & deps' & H).
        destruct (decide (i = i0)) as [->|Hne]; [by left|right].
        split; [lia|]. exists k', dep', deps'.
        by replace (i - i0) with (S (i - S i0)) in H by lia.
Qed.

(** What a turn of the while loop can end in. *)
Lemma pass_cases (d : items) :
  NoDup (keys d) →
  match pass d with
  | Ret (d', c') => d' ≡ₚ d ∧ (c' = true → d' = d ∧ ordered d)
  | Raise (RuntimeError a b) => depends d a b ∧ depends d b a
  | Raise (KeyError k) => (∃ a, depends d a k) ∧ k ∉ keys d
  | Raise _ => False
  end.
Proof.
  intros Hnd. unfold pass, idx_latent_dependencies.
  pose proof (for_idx_cases (idx_latent_from 0 d) d true Hnd) as H.
  assert (Hb : Forall (fun i => i < length d) (idx_latent_from 0 d)).
  { eapply Forall_impl; [apply (idx_latent_from_bounds d 0)|].
    intros i Hi. simpl in Hi. lia. }
  specialize (H Hb).
  destruct (for_idx (idx_latent_from 0 d) (d, true)) as [[d' c']|e]; [|done].
  destruct H as [Hp Hc]. split; [done|]. intros ->.
  destruct (Hc eq_refl) as (_ & -> & Hset). split; [done|].
  intros i k deps dep Hi Hdep.
  rewrite Forall_forall in Hset. refine (Hset i _ k deps dep Hi Hdep).
  apply elem_of_idx_latent_from. split; [lia|].
  rewrite Nat.sub_0_r. destruct deps as [|dep0 deps0].
  - by apply elem_of_nil in Hdep.
  - by exists k, dep0, deps0.
Qed.

(** What the while loop can end in. *)
Lemma while_cases fuel : ∀ (d : items),
  NoDup (keys d) →
  match while_not_consistent fuel d with
  | None => True
  | Some (Ret d') => d' ≡ₚ d ∧ ordered d'
  | Some (Raise (RuntimeError a b)) => depends d a b ∧ depends d b a
  | Some (Raise (KeyError k)) => (∃ a, depends d a k) ∧ k ∉ keys d
  | Some (Raise _) => False
  end.
Proof.
  induction fuel as [|fuel IH]; intros d Hnd; [done|].
  cbn [while_not_consistent].
  pose proof (pass_cases d Hnd) as Hpass.
  destruct (pass d) as [[d1 [|]]|e].
  - destruct Hpass as [Hp Hc]. by destruct (Hc eq_refl) as [-> Hord].
  - destruct Hpass as [Hp _].
    assert (Hnd1 : NoDup (keys d1)) by (by rewrite (keys_perm _ _ Hp)).
    specialize (IH d1 Hnd1).
    destruct (while_not_consistent fuel d1) as [[d'|e]|]; [| |done].
    + destruct IH as [Hp' Hord]. split; [by rewrite Hp'|done].
    + destruct e as [k| | |a b|]; try done.
      * destruct IH as [[a Ha] Hk]. split.
        -- exists a. by apply (depends_perm d d1).
        -- by rewrite <- (keys_perm _ _ Hp).
      * destruct IH as [H1 H2]. split; by apply (depends_perm d d1).
  - done.
Qed.

(** In an ordered dict with distinct keys dependencies go to earlier
    places, so that no key reaches itself. *)
Lemma ordered_acyclic (d : items) :
  NoDup (keys d) → ordered d → acyclic d.
Proof.
  intros Hnd Hord.
  assert (Htc : ∀ a b, tc (depends d) a b →
    ∃ ja jb, keys d !! ja = Some a ∧ keys d !! jb = Some b ∧ jb < ja).
  { induction 1 as [a b (deps & Hin & Hdep)|a b c (deps & Hin & Hdep) _ IH].
    - apply list_elem_of_lookup_1 in Hin as [ja Hja].
      destruct (Hord ja a deps b Hja Hdep) as (jb & Hjb & Hlt).
      exists ja, jb. split_and!; [by eapply keys_lookup|done..].
    - apply list_elem_of_lookup_1 in Hin as [ja Hja].
      destruct (Hord ja a deps b Hja Hdep) as (jb & Hjb & Hlt).
      destruct IH as (jb' & jc & Hjb' & Hjc & Hlt').
      assert (jb = jb') by (by eapply NoDup_lookup). subst jb'.
      exists ja, jc. split_and!; [by eapply keys_lookup|done|lia]. }
  intros k Hk. destruct (Htc k k Hk) as (ja & jb & Hja & Hjb & Hlt).
  assert (ja = jb) by (by eapply NoDup_lookup). lia.
Qed.

Lemma acyclic_perm (d d' : items) : d' ≡ₚ d → acyclic d' → acyclic d.
Proof.
  intros Hp Hac k Hk. apply (Hac k).
  eapply tc_congruence with (f := id); [|exact Hk].
  intros a b H. by apply (depends_perm d d').
Qed.

Lemma ordered_inv (d : items) : NoDup (keys d) → ordered d → inv d.
Proof.
  intros Hnd Hord. split_and!; [done| |].
  - intros k dep (deps & Hin & Hdep).
    apply list_elem_of_lookup_1 in Hin as [i Hi].
    destruct (Hord i k deps dep Hi Hdep) as (j & Hj & _).
    by eapply list_elem_of_lookup_2.
  - apply acyclic_no_mutual. by apply ordered_acyclic.
Qed.

End ResolverCases.

Module ResolverProperties.
Import Resolver ResolverSpec ResolverFacts ResolverCases.

(** X1. Whatever dict the while loop returns holds the items of the dict
    it started from, and every dependency of a key sits at a place
    strictly before that key; this needs distinct keys only. *)
Theorem loop_result_ordered (d d' : items) (fuel : nat) :
  NoDup (keys d) →
  while_not_consistent fuel d = Some (Ret d') →
  d' ≡ₚ d ∧ ordered d'.
Proof.
  intros Hnd Hrun. pose proof (while_cases fuel d Hnd) as H.
  by rewrite Hrun in H.
Qed.

Lemma loop_result_ordered_witness :
  [("a", []); ("mean_b", []); ("sigma", []); ("b", ["mean_b"])]
    ≡ₚ ResolverInputs.hierarchical ∧
  ordered [("a", []); ("mean_b", []); ("sigma", []); ("b", ["mean_b"])].
Proof.
  apply (loop_result_ordered ResolverInputs.hierarchical _ 3).
  - apply (bool_decide_unpack _). vm_compute. exact I.
  - vm_compute. reflexivity.
Defined.

(** X2. The while loop returns only on a dict without a cycle whose
    dependencies are all keys. *)
Theorem loop_returns_only_without_cycle (d d' : items) (fuel : nat) :
  NoDup (keys d) →
  while_not_consistent fuel d = Some (Ret d') →
  closed d ∧ acyclic d.
Proof.
  intros Hnd Hrun. pose proof (while_cases fuel d Hnd) as H.
  rewrite Hrun in H. destruct H as [Hp Hord].
  assert (Hnd' : NoDup (keys d')) by (by rewrite (keys_perm _ _ Hp)).
  split.
  - assert (Hinv : inv d).
    { apply (inv_perm d'); [done|]. by apply ordered_inv. }
    apply Hinv.
  - apply (acyclic_perm d d' Hp). by apply ordered_acyclic.
Qed.

Lemma loop_returns_only_without_cycle_witness :
  closed ResolverInputs.hierarchical ∧ acyclic ResolverInputs.hierarchical.
Proof.
  apply (loop_returns_only_without_cycle ResolverInputs.hierarchical
           [("a", []); ("mean_b", []); ("sigma", []); ("b", ["mean_b"])] 3).
  - apply (bool_decide_unpack _). vm_compute. exact I.
  - vm_compute. reflexivity.
Defined.

(** X3. The error of line 82 is never a false alarm: the two parameters
    it names refer to each other in the dict the loop started from. *)
Theorem circular_error_names_mutual_pair (d : items) (fuel : nat)
        (key_idx dependency : string) :
  NoDup (keys d) →
  while_not_consistent fuel d = Some (Raise (RuntimeError key_idx dependency)) →
  depends d key_idx dependency ∧ depends d dependency key_idx ∧ ¬ acyclic d.
Proof.
  intros Hnd Hrun. pose proof (while_cases fuel d Hnd) as H.
  rewrite Hrun in H. destruct H as [H1 H2]. split_and!; [done..|].
  intros Hac. by apply (acyclic_no_mutual d Hac key_idx dependency).
Qed.

Lemma circular_error_names_mutual_pair_witness :
  depends [("a", ["b"]); ("b", ["a"])] "a" "b" ∧
  depends [("a", ["b"]); ("b", ["a"])] "b" "a" ∧
  ¬ acyclic [("a", ["b"]); ("b", ["a"])].
Proof.
  apply (circular_error_names_mutual_pair [("a", ["b"]); ("b", ["a"])] 1).
  - apply (bool_decide_unpack _). vm_compute. exact I.
  - vm_compute. reflexivity.
Defined.

(** X4. On an ordered dict with distinct keys the first turn of the loop
    finds nothing to swap: the dict is returned as it is. *)
Theorem ordered_dict_returned_unchanged (d : items) (fuel : nat) :
  NoDup (keys d) → ordered d →
  while_not_consistent (S fuel) d = Some (Ret d).
Proof.
  intros Hnd Hord. cbn [while_not_consistent].
  rewrite pass_ordered; [done|by apply ordered_inv|done].
Qed.

(** X5. Lines 61-67 on distinct latent parameters: the keys of the dict
    are the latent parameters in their order, the value of a latent
    parameter is the list of its hyperparameters that are latent, and
    any other name is not a key. *)
Theorem dependency_dict_lookup (latent_prms : list string)
        (hyperparameters : string → list string) :
  NoDup latent_prms →
  keys (build_dependency_dict latent_prms hyperparameters) = latent_prms ∧
  ∀ k, getitem (build_dependency_dict latent_prms hyperparameters) k
       = if contains latent_prms k
         then Ret (List.filter (contains latent_prms) (hyperparameters k))
         else Raise (KeyError k).
Proof.
  intros Hnd.
  destruct (build_dependency_dict_wf latent_prms hyperparameters Hnd)
    as (Hkeys & _ & _).
  split; [done|]. intros k.
  assert (Hnd' : NoDup (keys (build_dependency_dict latent_prms
                                                    hyperparameters)))
    by (by rewrite Hkeys).
  destruct (contains latent_prms k) eqn:Hc.
  - apply getitem_elem_of; [done|]. unfold build_dependency_dict.
    rewrite (build_fold_nodup latent_prms hyperparameters latent_prms [])
      by done.
    simpl. apply list_elem_of_fmap. exists k. split; [done|].
    by apply contains_elem_of.
  - pose proof (getitem_cases (build_dependency_dict latent_prms
                                                     hyperparameters) k) as H.
    destruct (getitem _ k) as [v|e].
    + assert (Hk : k ∈ latent_prms).
      { rewrite <- Hkeys. apply elem_of_keys. by exists v. }
      apply contains_elem_of in Hk. congruence.
    + by destruct H as [-> _].
Qed.

Lemma dependency_dict_lookup_witness :
  keys (build_dependency_dict CalibrationInputs.latent_prms
                              CalibrationInputs.hyperparameters)
  = CalibrationInputs.latent_prms ∧
  ∀ k, getitem (build_dependency_dict CalibrationInputs.latent_prms
                                      CalibrationInputs.hyperparameters) k
       = if contains CalibrationInputs.latent_prms k
         then Ret (List.filter (contains CalibrationInputs.latent_prms)
                               (CalibrationInputs.hyperparameters k))
         else Raise (KeyError k).
Proof.
  apply (dependency_dict_lookup CalibrationInputs.latent_prms
                                CalibrationInputs.hyperparameters).
  apply (bool_decide_unpack _). vm_compute. exact I.
Defined.

(** X6. On the dict of lines 61-67 the loop raises nothing but the error
    of line 82, and that only for two latent parameters each of which is
    a hyperparameter of the other: no lookup, [index] or swap fails. *)
Theorem built_dict_raises_circular_only (latent_prms : list string)
        (hyperparameters : string → list string) (fuel : nat)
        (e : exception) :
  NoDup latent_prms →
  while_not_consistent fuel
    (build_dependency_dict latent_prms hyperparameters) = Some (Raise e) →
  ∃ a b, e = RuntimeError a b ∧
         a ∈ latent_prms ∧ b ∈ latent_prms ∧
         b ∈ hyperparameters a ∧ a ∈ hyperparameters b.
Proof.
  intros Hnd Hrun.
  destruct (build_dependency_dict_wf latent_prms hyperparameters Hnd)
    as (Hkeys & Hcl & Hdep).
  assert (Hnd' : NoDup (keys (build_dependency_dict latent_prms
                                                    hyperparameters)))
    by (by rewrite Hkeys).
  pose proof (while_cases fuel _ Hnd') as H. rewrite Hrun in H.
  destruct e as [k| | |a b|]; try done.
  - destruct H as [[a Ha] Hk]. destruct Hk. by apply (Hcl a).
  - destruct H as [H1 H2]. apply Hdep in H1 as (Ha & Hb & Hba).
    apply Hdep in H2 as (_ & _ & Hab). by exists a, b.
Qed.

Lemma built_dict_raises_circular_only_witness :
  ∃ a b, RuntimeError "a" "b" = RuntimeError a b ∧
         a ∈ CalibrationInputs.mutual_prms ∧
         b ∈ CalibrationInputs.mutual_prms ∧
         b ∈ CalibrationInputs.mutual_hyperparameters a ∧
         a ∈ CalibrationInputs.mutual_hyperparameters b.
Proof.
  apply (built_dict_raises_circular_only CalibrationInputs.mutual_prms
           CalibrationInputs.mutual_hyperparameters 1).
  - apply (bool_decide_unpack _). vm_compute. exact I.
  - vm_compute. reflexivity.
Defined.

(** X7. From the latent parameters to the order of sampling: when the
    loop returns on the dict of lines 61-67, the keys of what it returns
    are the latent parameters in some order, and every latent
    hyperparameter of a parameter sits at a place strictly before it. *)
Theorem resolved_order_of_latent_prms (latent_prms : list string)
        (hyperparameters : string → list string) (fuel : nat) (d' : items) :
  NoDup latent_prms →
  while_not_consistent fuel
    (build_dependency_dict latent_prms hyperparameters) = Some (Ret d') →
  keys d' ≡ₚ latent_prms ∧
  ∀ i prm_name prior_prm_name,
    keys d' !! i = Some prm_name →
    prior_prm_name ∈ hyperparameters prm_name →
    prior_prm_name ∈ latent_prms →
    ∃ j, keys d' !! j = Some prior_prm_name ∧ j < i.
Proof.
  intros Hnd Hrun.
  destruct (build_dependency_dict_wf latent_prms hyperparameters Hnd)
    as (Hkeys & Hcl & Hdep).
  assert (Hnd' : NoDup (keys (build_dependency_dict latent_prms
                                                    hyperparameters)))
    by (by rewrite Hkeys).
  pose proof (while_cases fuel _ Hnd') as H. rewrite Hrun in H.
  destruct H as [Hp Hord]. split.
  - by rewrite (keys_perm _ _ Hp), Hkeys.
  - intros i k h Hi Hh Hlat.
    unfold keys in Hi. rewrite list_lookup_fmap in Hi.
    destruct (d' !! i) as [[k' deps]|] eqn:Ei; [|done].
    simpl in Hi. injection Hi as ->.
    apply (Hord i k deps h Ei).
    assert (Hd : depends d' k h).
    { apply (depends_perm _ _ k h Hp). apply Hdep. split_and!; try done.
      rewrite <- Hkeys, <- (keys_perm _ _ Hp).
      apply elem_of_keys. exists deps. by eapply list_elem_of_lookup_2. }
    destruct Hd as (deps' & Hin & Hh').
    assert (Hnd'' : NoDup (keys d')) by (by rewrite (keys_perm _ _ Hp)).
    pose proof (getitem_elem_of d' k deps' Hnd'' Hin) as G1.
    pose proof (getitem_elem_of d' k deps Hnd''
                  (list_elem_of_lookup_2 _ _ _ Ei)) as G2.
    congruence.
Qed.

Lemma resolved_order_of_latent_prms_witness :
  keys [("loc_a", []); ("a", ["loc_a"]); ("b", []); ("sigma", [])]
    ≡ₚ CalibrationInputs.latent_prms ∧
  ∀ i prm_name prior_prm_name,
    keys [("loc_a", []); ("a", ["loc_a"]); ("b", []); ("sigma", [])] !! i
      = Some prm_name →
    prior_prm_name ∈ CalibrationInputs.hyperparameters prm_name →
    prior_prm_name ∈ CalibrationInputs.latent_prms →
    ∃ j, keys [("loc_a", []); ("a", ["loc_a"]); ("b", []); ("sigma", [])] !! j
           = Some prior_prm_name ∧ j < i.
Proof.
  apply (resolved_order_of_latent_prms CalibrationInputs.latent_prms
           CalibrationInputs.hyperparameters 2).
  - apply (bool_decide_unpack _). vm_compute. exact I.
  - vm_compute. reflexivity.
Defined.

Lemma ordered_dict_returned_unchanged_witness :
  while_not_consistent 1
    [("a", []); ("mean_b", []); ("sigma", []); ("b", ["mean_b"])]
  = Some (Ret [("a", []); ("mean_b", []); ("sigma", []); ("b", ["mean_b"])]).
Proof.
  apply (ordered_dict_returned_unchanged
           [("a", []); ("mean_b", []); ("sigma", []); ("b", ["mean_b"])] 0).
  - apply (bool_decide_unpack _). vm_compute. exact I.
  - assert (Hnd : NoDup (keys ResolverInputs.hierarchical))
      by (apply (bool_decide_unpack _); vm_compute; exact I).
    exact (proj2 (while_cases 3 ResolverInputs.hierarchical Hnd)).
Defined.

Lemma two_parameters_detected_witness :
  while_not_consistent 1 [("a", ["b"]); ("b", ["a"])]
  = Some (Raise (RuntimeError "a" "b")).
Proof.
  apply (ResolverTheorems.two_parameters_detected "a" "b" 0).
  discriminate.
Defined.

End ResolverProperties.

(** ** Lookup and assignment on dicts *)

Module DictFacts.
Import ForwardModel.

Lemma dict_get_set {V} (d : pydict V) k k' v :
  dict_get (dict_set d k v) k'
  = if String.eqb k k' then Ret v else dict_get d k'.
Proof.
  induction d as [|[k0 v0] d IH]; simpl.
  - done.
  - destruct (String.eqb_spec k0 k) as [->|Hne]; simpl.
    + by destruct (String.eqb_spec k k').
    + rewrite IH. destruct (String.eqb_spec k0 k') as [->|Hne'].
      * by destruct (String.eqb_spec k k') as [->|_].
      * done.
Qed.

Lemma dict_get_lookup {V} (d : pydict V) j k v :
  NoDup (dict_keys d) → d !! j = Some (k, v) → dict_get d k = Ret v.
Proof.
  revert j. induction d as [|[k0 v0] d IH]; intros j Hnd Hj; [done|].
  simpl in *. apply NoDup_cons in Hnd as [Hk0 Hnd].
  destruct j as [|j]; simpl in Hj.
  - simplify_eq. by rewrite String.eqb_refl.
  - destruct (String.eqb_spec k0 k) as [->|_]; [|by eapply IH].
    destruct Hk0. apply list_elem_of_fmap. exists (k, v).
    split; [done|]. by eapply list_elem_of_lookup_2.
Qed.

Lemma dict_get_Ret {V} (d : pydict V) k v :
  dict_get d k = Ret v → (k, v) ∈ d.
Proof.
  induction d as [|[k0 v0] d IH]; [done|]. simpl.
  destruct (String.eqb_spec k0 k) as [->|_].
  - intros [= ->]. left.
  - intros H. right. by apply IH.
Qed.

Lemma dict_get_Raise {V} (d : pydict V) k e :
  dict_get d k = Raise e → e = KeyError k ∧ k ∉ dict_keys d.
Proof.
  induction d as [|[k0 v0] d IH]; simpl.
  - intros [= <-]. split; [done|]. apply not_elem_of_nil.
  - destruct (String.eqb_spec k0 k) as [->|Hne]; [done|].
    intros H. destruct (IH H) as [-> Hk]. split; [done|].
    apply not_elem_of_cons. split; [congruence|done].
Qed.

Lemma dict_get_in {V} (d : pydict V) k :
  k ∈ dict_keys d → ∃ v, dict_get d k = Ret v.
Proof.
  intros Hk. destruct (dict_get d k) as [v|e] eqn:E; [by exists v|].
  by apply dict_get_Raise in E as [_ ?].
Qed.

Lemma dict_keys_set_in {V} (d : pydict V) k v :
  k ∈ dict_keys d → dict_keys (dict_set d k v) = dict_keys d.
Proof.
  induction d as [|[k0 v0] d IH]; simpl.
  - by intros H%elem_of_nil.
  - intros Hk. destruct (String.eqb_spec k0 k) as [->|Hne]; [done|].
    simpl. f_equal. apply IH.
    apply elem_of_cons in Hk as [?|?]; [congruence|done].
Qed.

Lemma dict_set_fresh_app {V} (d : pydict V) k v :
  k ∉ dict_keys d → dict_set d k v = d ++ [(k, v)].
Proof.
  induction d as [|[k' v'] d IH]; intros Hk; [done|]. simpl in *.
  apply not_elem_of_cons in Hk as [Hne Hk].
  destruct (String.eqb_spec k' k) as [->|_]; [done|]. by rewrite IH.
Qed.

(** A dict filled key by key with distinct keys *)
Lemma dict_fold_set {V} (f : string → V) (ks : list string) :
  ∀ acc : pydict V,
  NoDup (dict_keys acc ++ ks) →
  fold_left (fun d k => dict_set d k (f k)) ks acc
  = acc ++ ((fun k => (k, f k)) <$> ks).
Proof.
  induction ks as [|k ks IH]; intros acc Hnd; simpl.
  - by rewrite app_nil_r.
  - assert (Hk : k ∉ dict_keys acc).
    { apply NoDup_app in Hnd as (_ & Hdis & _). intros Hin.
      apply (Hdis k Hin). left. }
    rewrite (dict_set_fresh_app _ _ _ Hk), IH.
    + by rewrite <- app_assoc.
    + unfold dict_keys. rewrite fmap_app. simpl. by rewrite <- app_assoc.
Qed.

Lemma dict_keys_fmap_pair {V} (f : string → V) (ks : list string) :
  dict_keys ((fun k => (k, f k)) <$> ks) = ks.
Proof.
  unfold dict_keys.
  induction ks as [|k ks IH]; [done|]. cbn. f_equal. exact IH.
Qed.

End DictFacts.

Module SamplingFacts.
Import ForwardModel Sampling ResolverFacts DictFacts.

Section WithPriors.
Context {T S : Type} (value_of : string → result T).

(** The dict of hyperparameters binds every name to the sample drawn for
    it when there is one and to the value of the parameter otherwise. *)
Lemma for_name_spec names (samples : pydict T) : ∀ h0 h,
  for_name T value_of names samples h0 = Ret h →
  ∀ name, name ∈ names →
    dict_get h name
    = if Resolver.contains (dict_keys samples) name
      then dict_get samples name else value_of name.
Proof.
  induction names as [|n rest IH]; intros h0 h Hrun name Hin.
  - by apply elem_of_nil in Hin.
  - cbn [for_name] in Hrun.
    destruct (if Resolver.contains (dict_keys samples) n
              then dict_get samples n else value_of n) as [v|e] eqn:Ev;
      [|done].
    simpl in Hrun.
    destruct (decide (name ∈ rest)) as [Hr|Hr]; [by eapply IH|].
    apply elem_of_cons in Hin as [->|Hin]; [|done].
    rewrite Ev. clear IH Ev.
    assert (Hkeep : ∀ names h0 h,
      for_name T value_of names samples h0 = Ret h → n ∉ names →
      dict_get h n = dict_get h0 n).
    { clear. induction names as [|m names IH]; intros h0 h Hrun Hn.
      - simpl in Hrun. by simplify_eq.
      - cbn [for_name] in Hrun.
        destruct (if Resolver.contains (dict_keys samples) m
                  then dict_get samples m else value_of m) as [v|e]; [|done].
        simpl in Hrun. apply not_elem_of_cons in Hn as [Hne Hn].
        rewrite (IH _ _ Hrun Hn), dict_get_set.
        by destruct (String.eqb_spec m n) as [->|_]. }
    rewrite (Hkeep _ _ _ Hrun Hr), dict_get_set.
    by rewrite String.eqb_refl.
Qed.


(** The loop over the priors, started with the samples [acc] of the
    priors before [rest]. *)
Lemma for_prior_spec (rest : pydict (prior_obj T S)) : ∀ acc s samples s',
  NoDup (dict_keys acc ++ dict_keys rest) →
  for_prior T S value_of rest acc s = (Ret samples, s') →
  ∃ new, samples = acc ++ new ∧ dict_keys new = dict_keys rest ∧
    ∀ i ref_prm prior, rest !! i = Some (ref_prm, prior) →
      ∃ hyperprms_dict s_i v,
        new !! i = Some (ref_prm, v) ∧
        fst (sample prior hyperprms_dict s_i) = v ∧
        ∀ name, name ∈ hyperparameters prior →
          dict_get hyperprms_dict name
          = if Resolver.contains (dict_keys (acc ++ take i new)) name
            then dict_get (acc ++ take i new) name else value_of name.
Proof.
  induction rest as [|[ref prior] rest IH]; intros acc s samples s' Hnd Hrun.
  - simpl in Hrun. simplify_eq. exists []. rewrite app_nil_r.
    split_and!; done.
  - cbn [for_prior] in Hrun.
    destruct (for_name T value_of (hyperparameters prior) acc []) as [h|e]
      eqn:Eh; [|done].
    assert (Hfresh : ref ∉ dict_keys acc).
    { apply NoDup_app in Hnd as (_ & Hdis & _). intros Hin.
      apply (Hdis ref Hin). left. }
    rewrite (dict_set_fresh_app acc ref _ Hfresh) in Hrun.
    apply IH in Hrun as (new & -> & Hkeys & Hspec).
    2:{ unfold dict_keys in *. rewrite fmap_app. simpl.
        by rewrite <- app_assoc. }
    exists ((ref, fst (sample prior h s)) :: new).
    split_and!.
    + by rewrite <- app_assoc.
    + simpl. by rewrite Hkeys.
    + intros i ref' prior' Hi. destruct i as [|i]; simpl in Hi.
      * simplify_eq. exists h, s, (fst (sample prior' h s)).
        split_and!; try done. intros name Hname. simpl.
        rewrite app_nil_r. by eapply for_name_spec.
      * destruct (Hspec i ref' prior' Hi) as (h' & s_i & v & Hn & Hs & Hh).
        exists h', s_i, v. split_and!; try done.
        intros name Hname. rewrite (Hh name Hname). simpl.
        by rewrite <- !app_assoc.
Qed.


End WithPriors.

End SamplingFacts.

Module SamplingProperties.
Import ForwardModel Sampling ResolverFacts DictFacts SamplingFacts.

(** X9. [get_theta_samples] returns one sample per prior, in the order
    of [priors]. The sample of a prior is drawn from a dict that binds
    the name of each of its hyperparameters to the sample drawn for that
    name when it is the key of an earlier prior, and to
    [problem.parameters[name].value] in every other case, the key of a
    later prior included. *)
Theorem get_theta_samples_hyperprms {T S : Type}
        (value_of : string → result T) (priors : pydict (prior_obj T S))
        (s s' : S) (theta : list T) :
  NoDup (dict_keys priors) →
  get_theta_samples T S value_of priors s = (Ret theta, s') →
  length theta = length priors ∧
  ∀ i ref_prm prior, priors !! i = Some (ref_prm, prior) →
    ∃ hyperprms_dict s_i v,
      theta !! i = Some v ∧
      fst (sample prior hyperprms_dict s_i) = v ∧
      ∀ name, name ∈ hyperparameters prior →
        (∀ j, j < i → dict_keys priors !! j = Some name →
              ∃ t, theta !! j = Some t ∧
                   dict_get hyperprms_dict name = Ret t) ∧
        ((∀ j, j < i → dict_keys priors !! j ≠ Some name) →
         dict_get hyperprms_dict name = value_of name).
Proof.
  intros Hnd Hrun. unfold get_theta_samples in Hrun.
  destruct (for_prior T S value_of priors [] s) as [[samples|e] s1] eqn:E;
    [|done].
  simplify_eq.
  apply for_prior_spec in E as (new & -> & Hkeys & Hspec); [|done].
  simpl in *.
  assert (Hlen : length new = length priors).
  { apply (f_equal length) in Hkeys. unfold dict_keys in Hkeys.
    by rewrite !length_fmap in Hkeys. }
  split; [unfold dict_values; by rewrite length_fmap|].
  intros i ref prior Hi.
  destruct (Hspec i ref prior Hi) as (h & s_i & v & Hn & Hs & Hh).
  exists h, s_i, v. split_and!; [|done|].
  { unfold dict_values. by rewrite list_lookup_fmap, Hn. }
  assert (Hndn : NoDup (dict_keys new)) by (by rewrite Hkeys).
  assert (Hndt : NoDup (dict_keys (take i new))).
  { unfold dict_keys in *. rewrite fmap_take.
    eapply sublist_NoDup; [done|apply sublist_take]. }
  intros name Hname. rewrite (Hh name Hname). split.
  - intros j Hj Hkj. rewrite <- Hkeys in Hkj.
    unfold dict_keys in Hkj. rewrite list_lookup_fmap in Hkj.
    destruct (new !! j) as [[k t]|] eqn:Ej; [|done].
    simpl in Hkj. simplify_eq.
    exists t. split.
    { unfold dict_values. by rewrite list_lookup_fmap, Ej. }
    assert (Etake : take i new !! j = Some (name, t))
      by (by rewrite lookup_take_lt).
    assert (Hc : Resolver.contains (dict_keys (take i new)) name = true).
    { apply contains_elem_of, list_elem_of_fmap. exists (name, t).
      split; [done|]. by eapply list_elem_of_lookup_2. }
    rewrite Hc. by eapply dict_get_lookup.
  - intros Hnone.
    assert (Hc : Resolver.contains (dict_keys (take i new)) name = false).
    { apply not_true_is_false. intros Hc.
      apply contains_elem_of, list_elem_of_lookup_1 in Hc as [j Hj].
      unfold dict_keys in Hj. rewrite fmap_take in Hj.
      assert (Hlt : j < i).
      { apply lookup_lt_Some in Hj. rewrite length_take in Hj. lia. }
      rewrite lookup_take_lt in Hj by done.
      apply (Hnone j Hlt). rewrite <- Hkeys. exact Hj. }
    by rewrite Hc.
Qed.

Lemma get_theta_samples_hyperprms_witness :
  length [(1 # 2)%Q; ((1 # 2) + 2)%Q] = length SamplingInputs.priors ∧
  ∀ i ref_prm prior, SamplingInputs.priors !! i = Some (ref_prm, prior) →
    ∃ hyperprms_dict s_i v,
      [(1 # 2)%Q; ((1 # 2) + 2)%Q] !! i = Some v ∧
      fst (sample prior hyperprms_dict s_i) = v ∧
      ∀ name, name ∈ hyperparameters prior →
        (∀ j, j < i → dict_keys SamplingInputs.priors !! j = Some name →
              ∃ t, [(1 # 2)%Q; ((1 # 2) + 2)%Q] !! j = Some t ∧
                   dict_get hyperprms_dict name = Ret t) ∧
        ((∀ j, j < i → dict_keys SamplingInputs.priors !! j ≠ Some name) →
         dict_get hyperprms_dict name = SamplingInputs.value_of name).
Proof.
  apply (get_theta_samples_hyperprms SamplingInputs.value_of
           SamplingInputs.priors 0 2).
  - apply (bool_decide_unpack _). vm_compute. exact I.
  - reflexivity.
Defined.



End SamplingProperties.

Module JacobianFacts.
Import Heap ForwardModel JacobianSpec DictFacts.

Section WithModel.
Variable response : pydict (value Q) → result (pydict (value Q)).
Variable output_sensors : list string.

Lemma fresh_lookup (σ : heap) : σ !! fresh (dom σ) = None.
Proof. apply not_elem_of_dom, is_fresh. Qed.

Lemma run_bind {A B} (m : M A) (f : A → M B) (σ : heap) :
  (m ≫= f) σ = match m σ with
               | (Ret a, σ') => f a σ'
               | (Raise e, σ') => (Raise e, σ')
               end.
Proof. reflexivity. Qed.

Lemma run_deref (σ : heap) l d : σ !! l = Some d → deref l σ = (Ret d, σ).
Proof. intros H. unfold deref. by rewrite H. Qed.

Lemma run_cp_copy (σ : heap) l d :
  σ !! l = Some d →
  cp_copy l σ = (Ret (fresh (dom σ)), <[fresh (dom σ) := d]> σ).
Proof. intros H. unfold cp_copy. by rewrite run_bind, (run_deref σ l d). Qed.

Lemma run_getitem (σ : heap) l d k :
  σ !! l = Some d → getitem l k σ = (dict_get d k, σ).
Proof. intros H. unfold getitem. by rewrite run_bind, (run_deref σ l d). Qed.

Lemma run_setitem (σ : heap) l d k v :
  σ !! l = Some d → setitem l k v σ = (Ret tt, <[l := dict_set d k v]> σ).
Proof. intros H. unfold setitem. by rewrite run_bind, (run_deref σ l d). Qed.

(** The loop of [jacobian] reads [inp] and writes to its copies: what it
    returns is a function of the dict that [inp] refers to. *)
Lemma for_prm_turns (inp : loc) (d : pydict (value Q)) prm_names :
  ∀ jac_dict (σ : heap),
  σ !! inp = Some d →
  fst (for_prm response output_sensors inp prm_names jac_dict σ)
  = turns response output_sensors d prm_names jac_dict.
Proof.
  induction prm_names as [|prm_name rest IH]; intros jac_dict σ Hinp; [done|].
  cbn [for_prm turns]. unfold turn.
  set (l1 := fresh (dom σ)).
  set (σ1 := <[l1 := d]> σ).
  set (l2 := fresh (dom σ1)).
  set (σ2 := <[l2 := d]> σ1).
  assert (H1 : σ !! l1 = None) by apply fresh_lookup.
  assert (H2 : σ1 !! l2 = None) by apply fresh_lookup.
  assert (Hne1 : l1 ≠ inp) by (intros E; rewrite E in H1; congruence).
  assert (Hinp1 : σ1 !! inp = Some d)
    by (unfold σ1; by rewrite lookup_insert_ne).
  assert (Hne2 : l2 ≠ inp) by (intros E; rewrite E in H2; congruence).
  assert (Hne12 : l2 ≠ l1).
  { intros E. rewrite E in H2. unfold σ1 in H2.
    by rewrite lookup_insert_eq in H2. }
  assert (Hinp2 : σ2 !! inp = Some d)
    by (unfold σ2; by rewrite lookup_insert_ne).
  assert (Hl1 : σ2 !! l1 = Some d).
  { unfold σ2. rewrite lookup_insert_ne by done. unfold σ1.
    by rewrite lookup_insert_eq. }
  rewrite run_bind, (run_cp_copy σ inp d Hinp). fold l1 σ1.
  rewrite run_bind, (run_cp_copy σ1 inp d Hinp1). fold l2 σ2.
  rewrite run_bind, (run_getitem σ2 inp d _ Hinp2).
  destruct (dict_get d prm_name) as [x|e]; [|done].
  cbn [mbind result_bind].
  rewrite run_bind. unfold ret at 1. rewrite run_bind. unfold lift at 1.
  destruct (broadcast2 Qminus x (vmap step x)) as [x_minus_h|e]; [|done].
  cbn [mbind result_bind].
  rewrite run_bind, (run_setitem σ2 l1 d _ _ Hl1).
  set (σ3 := <[l1 := dict_set d prm_name x_minus_h]> σ2).
  assert (Hl2 : σ3 !! l2 = Some d).
  { unfold σ3. rewrite lookup_insert_ne by done. unfold σ2.
    by rewrite lookup_insert_eq. }
  rewrite run_bind. unfold lift at 1.
  destruct (broadcast2 Qplus x (vmap step x)) as [x_plus_h|e]; [|done].
  cbn [mbind result_bind].
  rewrite run_bind, (run_setitem σ3 l2 d _ _ Hl2).
  set (σ4 := <[l2 := dict_set d prm_name x_plus_h]> σ3).
  assert (Hl1' : σ4 !! l1 = Some (dict_set d prm_name x_minus_h)).
  { unfold σ4. rewrite lookup_insert_ne by done. unfold σ3.
    by rewrite lookup_insert_eq. }
  assert (Hl2' : σ4 !! l2 = Some (dict_set d prm_name x_plus_h)).
  { unfold σ4. by rewrite lookup_insert_eq. }
  assert (Hinp4 : σ4 !! inp = Some d).
  { unfold σ4, σ3. by rewrite !lookup_insert_ne. }
  rewrite run_bind. unfold ret at 1.
  rewrite run_bind, (run_deref σ4 l1 _ Hl1').
  rewrite run_bind. unfold lift at 1.
  destruct (response (dict_set d prm_name x_minus_h))
    as [response_dict_left|e]; [|done].
  cbn [mbind result_bind].
  rewrite run_bind, (run_deref σ4 l2 _ Hl2').
  rewrite run_bind. unfold lift at 1.
  destruct (response (dict_set d prm_name x_plus_h))
    as [response_dict_right|e]; [|done].
  cbn [mbind result_bind].
  rewrite run_bind. unfold lift at 1.
  destruct (for_output_sensor output_sensors prm_name response_dict_left
              response_dict_right (vmap (Qmult 2) (vmap step x)) jac_dict)
    as [jac_dict'|e]; [|done].
  cbn [mbind result_bind]. by apply IH.
Qed.

Lemma jac_set_spec (jac_dict : jac_dict_t) os_name prm_name v jac_dict' :
  jac_set jac_dict os_name prm_name v = Ret jac_dict' →
  ∃ row, dict_get jac_dict os_name = Ret row ∧
    dict_keys jac_dict' = dict_keys jac_dict ∧
    ∀ os, dict_get jac_dict' os
          = if String.eqb os_name os then Ret (dict_set row prm_name v)
            else dict_get jac_dict os.
Proof.
  unfold jac_set. destruct (dict_get jac_dict os_name) as [row|e] eqn:E; [|done].
  cbn. intros [= <-]. exists row. split_and!; [done| |].
  - apply dict_keys_set_in. apply dict_get_Ret in E.
    apply list_elem_of_fmap. by exists (os_name, row).
  - intros os. apply dict_get_set.
Qed.

(** Lines 178-181: the entry of [prm_name] is set in the row of every
    output sensor, the other entries stay. *)
Lemma for_output_sensor_spec prm_name response_dict_left response_dict_right
      dx oss : ∀ jac_dict jac_dict',
  NoDup oss →
  for_output_sensor oss prm_name response_dict_left response_dict_right dx
                    jac_dict = Ret jac_dict' →
  dict_keys jac_dict' = dict_keys jac_dict ∧
  (∀ os, os ∉ oss → dict_get jac_dict' os = dict_get jac_dict os) ∧
  ∀ os, os ∈ oss → ∃ row r l diff q,
    dict_get jac_dict os = Ret row ∧
    dict_get response_dict_right os = Ret r ∧
    dict_get response_dict_left os = Ret l ∧
    broadcast2 Qminus r l = Ret diff ∧
    broadcast2 divide diff dx = Ret q ∧
    dict_get jac_dict' os = Ret (dict_set row prm_name (Some q)).
Proof.
  induction oss as [|os_name rest IH]; intros jac_dict jac_dict' Hnd Hrun.
  - simpl in Hrun. simplify_eq. split_and!; try done.
    intros os H. by apply elem_of_nil in H.
  - apply NoDup_cons in Hnd as [Hfresh Hnd]. cbn [for_output_sensor] in Hrun.
    destruct (dict_get response_dict_right os_name) as [r|e] eqn:Er; [|done].
    destruct (dict_get response_dict_left os_name) as [l|e] eqn:El; [|done].
    cbn [mbind result_bind] in Hrun.
    destruct (broadcast2 Qminus r l) as [diff|e] eqn:Ed; [|done].
    cbn [mbind result_bind] in Hrun.
    destruct (broadcast2 divide diff dx) as [q|e] eqn:Eq; [|done].
    cbn [mbind result_bind] in Hrun.
    destruct (jac_set jac_dict os_name prm_name (Some q)) as [jd1|e] eqn:Ej;
      [|done].
    cbn [mbind result_bind] in Hrun.
    apply jac_set_spec in Ej as (row & Hrow & Hk1 & Hg1).
    destruct (IH _ _ Hnd Hrun) as (Hk & Hout & Hin).
    split_and!.
    + by rewrite Hk, Hk1.
    + intros os Hos. apply not_elem_of_cons in Hos as [Hne Hos].
      rewrite (Hout os Hos), Hg1.
      by destruct (String.eqb_spec os_name os) as [->|_].
    + intros os Hos. apply elem_of_cons in Hos as [->|Hos].
      * exists row, r, l, diff, q. split_and!; try done.
        rewrite (Hout os_name Hfresh), Hg1. by rewrite String.eqb_refl.
      * destruct (Hin os Hos) as (row' & r' & l' & diff' & q' & H1 & H2 & H3
                                  & H4 & H5 & H6).
        exists row', r', l', diff', q'. split_and!; try done.
        rewrite Hg1 in H1.
        destruct (String.eqb_spec os_name os) as [->|_]; [done|done].
Qed.

(** The loop over the parameters: the entries of the parameters gone
    through are central differences, the other entries stay. *)
Lemma turns_spec (d : pydict (value Q)) prm_names : ∀ jac_dict jac_dict',
  NoDup output_sensors → NoDup prm_names →
  (∀ os, os ∈ output_sensors → ∃ row, dict_get jac_dict os = Ret row) →
  turns response output_sensors d prm_names jac_dict = Ret jac_dict' →
  dict_keys jac_dict' = dict_keys jac_dict ∧
  ∀ os, os ∈ output_sensors → ∃ row row',
    dict_get jac_dict os = Ret row ∧ dict_get jac_dict' os = Ret row' ∧
    ((∀ p, p ∈ prm_names → p ∈ dict_keys row) →
     dict_keys row' = dict_keys row) ∧
    (∀ p, p ∉ prm_names → dict_get row' p = dict_get row p) ∧
    ∀ p, p ∈ prm_names →
      ∃ q, central_difference response d os p q ∧
           dict_get row' p = Ret (Some q).
Proof.
  induction prm_names as [|prm_name rest IH];
    intros jac_dict jac_dict' Hos Hnd Hrows Hrun.
  - simpl in Hrun. simplify_eq. split; [done|]. intros os Hin.
    destruct (Hrows os Hin) as [row Hrow]. exists row, row.
    split_and!; try done. intros p H. by apply elem_of_nil in H.
  - apply NoDup_cons in Hnd as [Hfresh Hnd]. cbn [turns] in Hrun.
    destruct (turn response output_sensors d prm_name jac_dict)
      as [jd1|e] eqn:Et; [|done].
    cbn [mbind result_bind] in Hrun. unfold turn in Et.
    destruct (dict_get d prm_name) as [x|e] eqn:Ex; [|done].
    cbn [mbind result_bind] in Et.
    destruct (broadcast2 Qminus x (vmap step x)) as [xm|e] eqn:Em; [|done].
    cbn [mbind result_bind] in Et.
    destruct (broadcast2 Qplus x (vmap step x)) as [xp|e] eqn:Ep; [|done].
    cbn [mbind result_bind] in Et.
    destruct (response (dict_set d prm_name xm)) as [left|e] eqn:El; [|done].
    cbn [mbind result_bind] in Et.
    destruct (response (dict_set d prm_name xp)) as [right|e] eqn:Er; [|done].
    cbn [mbind result_bind] in Et.
    destruct (for_output_sensor_spec _ _ _ _ _ _ _ Hos Et)
      as (Hk1 & _ & Hin1).
    assert (Hrows1 : ∀ os, os ∈ output_sensors →
                           ∃ row, dict_get jd1 os = Ret row).
    { intros os Hin. destruct (Hin1 os Hin) as (row & r & l & diff & q & H).
      eexists. apply H. }
    destruct (IH _ _ Hos Hnd Hrows1 Hrun) as (Hk & Hin).
    split; [by rewrite Hk, Hk1|]. intros os Hosin.
    destruct (Hin1 os Hosin)
      as (row & r & l & diff & q & Hrow & Hr & Hl & Hd & Hq & Hrow1).
    destruct (Hin os Hosin) as (row1 & row' & Hrow1' & Hrow' & Hkeys & Hkeep
                                & Hentries).
    rewrite Hrow1 in Hrow1'. simplify_eq.
    exists row, row'. split_and!; try done.
    + intros Hall. rewrite Hkeys.
      * apply dict_keys_set_in, Hall. left.
      * intros p Hp. rewrite dict_keys_set_in by (apply Hall; left).
        apply Hall. by right.
    + intros p Hp. apply not_elem_of_cons in Hp as [Hne Hp].
      rewrite (Hkeep p Hp), dict_get_set.
      by destruct (String.eqb_spec prm_name p) as [->|_].
    + intros p Hp. apply elem_of_cons in Hp as [->|Hp]; [|by apply Hentries].
      exists q. split.
      * by exists x, xm, xp, left, right, r, l, diff.
      * rewrite (Hkeep prm_name Hfresh), dict_get_set.
        by rewrite String.eqb_refl.
Qed.

(** Lines 155-160: a row of [None] entries for every output sensor. *)
Lemma jac_dict_init_spec (prm_names : list string) :
  NoDup output_sensors → NoDup prm_names →
  jac_dict_init output_sensors prm_names
  = (fun os_name =>
       (os_name,
        (fun prm_name => (prm_name, @None derivative)) <$> prm_names))
    <$> output_sensors.
Proof.
  intros Hos Hnd. unfold jac_dict_init.
  rewrite (dict_fold_set (fun _ => @None derivative) prm_names []) by done.
  simpl.
  by rewrite (dict_fold_set
                (fun _ => (fun prm_name => (prm_name, @None derivative))
                            <$> prm_names) output_sensors []).
Qed.

End WithModel.

End JacobianFacts.

Module JacobianProperties.
Import Heap ForwardModel JacobianSpec DictFacts JacobianFacts.

(** X11. When [jacobian] returns, the dict has one row per output sensor
    and every row has one entry per key of [inp], none of them left
    [None]: the entry of an output sensor and a key is the central
    difference of the responses at the contents of [inp] with that key
    alone moved by the step, whatever was done for the keys before. *)
Theorem jacobian_entries
        (response : pydict (value Q) → result (pydict (value Q)))
        (output_sensors : list string) (inp : loc) (σ : heap)
        (d : pydict (value Q)) (jac_dict : jac_dict_t) :
  σ !! inp = Some d → NoDup (dict_keys d) → NoDup output_sensors →
  fst (jacobian response output_sensors inp σ) = Ret jac_dict →
  dict_keys jac_dict = output_sensors ∧
  ∀ os_name, os_name ∈ output_sensors →
    ∃ row, dict_get jac_dict os_name = Ret row ∧
      dict_keys row = dict_keys d ∧
      ∀ prm_name, prm_name ∈ dict_keys d →
        ∃ q, central_difference response d os_name prm_name q ∧
             dict_get row prm_name = Ret (Some q).
Proof.
  intros Hinp Hnd Hos Hrun. unfold jacobian in Hrun.
  rewrite run_bind, (run_deref σ inp d Hinp) in Hrun.
  rewrite (for_prm_turns response output_sensors inp d _ _ σ Hinp) in Hrun.
  rewrite (jac_dict_init_spec output_sensors (dict_keys d) Hos Hnd) in Hrun.
  set (row0 := (fun prm_name => (prm_name, @None derivative))
                 <$> dict_keys d) in *.
  set (jd0 := (fun os_name : string => (os_name, row0)) <$> output_sensors)
    in *.
  assert (Hk0 : dict_keys jd0 = output_sensors)
    by apply (dict_keys_fmap_pair (fun _ => row0)).
  assert (Hrow0 : ∀ os, os ∈ output_sensors → dict_get jd0 os = Ret row0).
  { intros os Hin. destruct (dict_get_in jd0 os) as [row Hrow].
    - by rewrite Hk0.
    - rewrite Hrow. apply dict_get_Ret in Hrow.
      apply list_elem_of_fmap in Hrow as (os' & [= -> ->] & _). done. }
  destruct (turns_spec response output_sensors d (dict_keys d) jd0 jac_dict)
    as (Hk & Hin); try done.
  { intros os Hosin. exists row0. by apply Hrow0. }
  split; [by rewrite Hk|]. intros os Hosin.
  destruct (Hin os Hosin) as (row & row' & Hrow & Hrow' & Hkeys & _ & Hent).
  rewrite (Hrow0 os Hosin) in Hrow. injection Hrow as <-.
  exists row'. split_and!; [done| |done].
  rewrite Hkeys.
  - apply (dict_keys_fmap_pair (fun _ => @None derivative)).
  - intros p Hp. unfold row0.
    by rewrite (dict_keys_fmap_pair (fun _ => @None derivative)).
Qed.

Lemma jacobian_entries_witness :
  ∃ jac_dict,
    fst (jacobian ForwardModelInputs.linear ["y"] 0
                  ForwardModelInputs.linear_heap) = Ret jac_dict ∧
    dict_keys jac_dict = ["y"] ∧
    ∀ os_name, os_name ∈ ["y"] →
      ∃ row, dict_get jac_dict os_name = Ret row ∧
        dict_keys row = dict_keys ForwardModelInputs.linear_inp ∧
        ∀ prm_name, prm_name ∈ dict_keys ForwardModelInputs.linear_inp →
          ∃ q, central_difference ForwardModelInputs.linear
                 ForwardModelInputs.linear_inp os_name prm_name q ∧
               dict_get row prm_name = Ret (Some q).
Proof.
  eexists. split; [vm_compute; reflexivity|].
  apply (jacobian_entries ForwardModelInputs.linear ["y"] 0
           ForwardModelInputs.linear_heap ForwardModelInputs.linear_inp).
  - vm_compute. reflexivity.
  - apply (bool_decide_unpack _). vm_compute. exact I.
  - apply (bool_decide_unpack _). vm_compute. exact I.
  - vm_compute. reflexivity.
Defined.

(** X12. What [jacobian] returns or raises depends on the contents of
    [inp] alone: not on the place of [inp] in the store and not on any
    other object. *)
Theorem jacobian_reads_contents_only
        (response : pydict (value Q) → result (pydict (value Q)))
        (output_sensors : list string) (inp1 inp2 : loc) (σ1 σ2 : heap)
        (d : pydict (value Q)) :
  σ1 !! inp1 = Some d → σ2 !! inp2 = Some d →
  fst (jacobian response output_sensors inp1 σ1)
  = fst (jacobian response output_sensors inp2 σ2).
Proof.
  intros H1 H2. unfold jacobian.
  rewrite !run_bind, (run_deref σ1 inp1 d H1), (run_deref σ2 inp2 d H2).
  by rewrite !(for_prm_turns response output_sensors _ d).
Qed.

Lemma jacobian_reads_contents_only_witness :
  fst (jacobian ForwardModelInputs.linear ["y"] 0
                ForwardModelInputs.linear_heap)
  = fst (jacobian ForwardModelInputs.linear ["y"] 5
                  {[ 5 := ForwardModelInputs.linear_inp;
                     0 := [("x", Scalar 7%Q)] ]}).
Proof.
  apply (jacobian_reads_contents_only ForwardModelInputs.linear ["y"] 0 5
           ForwardModelInputs.linear_heap _ ForwardModelInputs.linear_inp).
  - vm_compute. reflexivity.
  - vm_compute. reflexivity.
Defined.

End JacobianProperties.

Module LinearProperties.
Import Heap ForwardModel JacobianSpec DictFacts JacobianFacts ForwardModelFacts.





End LinearProperties.

(** What [jacobian_dict_to_array] accepts. *)
Module ArrayCases.
Import ForwardModel ForwardModelSpec ArrayFacts.

Section WithNumbers.
Context {A : Type}.
Implicit Types (jac : ndarray3 A) (v : value A).

Lemma broadcast_to_Ret n v xs :
  broadcast_to n v = Ret xs → stretches n v ∧ length xs = n.
Proof.
  destruct v as [x|ys]; simpl.
  - intros [= <-]. split; [by right|by rewrite length_replicate].
  - destruct (Nat.eqb_spec (length ys) n) as [Heq|Hne].
    + intros [= <-]. split; [by left|done].
    + destruct ys as [|y [|y' ys]]; try done.
      intros [= <-]. split; [by right|by rewrite length_replicate].
Qed.

(** [jac[i, j, :] = v] returns only for a place inside the array and a
    value that numpy can stretch to the row. *)
Lemma assign_row_Ret jac n1 n2 n3 i j v jac' :
  dense jac n1 n2 n3 → assign_row jac i j v = Ret jac' →
  dense jac' n1 n2 n3 ∧ i < n1 ∧ j < n2 ∧ stretches n3 v.
Proof.
  intros Hd Hrun.
  assert (Hd' := Hd). destruct Hd' as (Hsh & Hlen & Hm & Hr).
  assert (Hrun0 := Hrun). unfold assign_row in Hrun.
  destruct (data jac !! i) as [m|] eqn:Em; [|done].
  destruct (m !! j) as [r0|] eqn:Er; [|done].
  rewrite Hsh in Hrun. simpl in Hrun.
  destruct (broadcast_to n3 v) as [xs|e] eqn:Eb; [|done].
  apply broadcast_to_Ret in Eb as [Hs Hxs].
  assert (Hi : i < n1) by (rewrite <- Hlen; by eapply lookup_lt_Some).
  assert (Hj : j < n2).
  { rewrite <- (Hm i m Em). by eapply lookup_lt_Some. }
  destruct (assign_row_spec jac n1 n2 n3 i j v Hd Hi Hj Hs)
    as (jac'' & E & Hd'' & _).
  rewrite Hrun0 in E. by simplify_eq.
Qed.

Lemma for_derivative_Ret n1 n2 n3 i derivatives : ∀ j0 jac jac',
  dense jac n1 n2 n3 →
  for_derivative i j0 derivatives jac = Ret jac' →
  dense jac' n1 n2 n3 ∧
  ∀ k v, derivatives !! k = Some v →
         i < n1 ∧ j0 + k < n2 ∧ stretches n3 v.
Proof.
  induction derivatives as [|v rest IH]; intros j0 jac jac' Hd Hrun.
  - simpl in Hrun. simplify_eq. split; [done|]. intros k v H. done.
  - cbn [for_derivative] in Hrun.
    destruct (assign_row jac i j0 v) as [jac1|e] eqn:E1; [|done].
    cbn [mbind result_bind] in Hrun.
    destruct (assign_row_Ret _ _ _ _ _ _ _ _ Hd E1) as (Hd1 & Hi & Hj & Hs).
    destruct (IH _ _ _ Hd1 Hrun) as (Hd' & Hrest).
    split; [done|]. intros [|k] v' Hk; simpl in Hk.
    + simplify_eq. split_and!; [done|lia|done].
    + destruct (Hrest k v' Hk) as (? & ? & ?). split_and!; [done|lia|done].
Qed.

Lemma for_prm_dict_Ret n1 n2 n3 prm_dicts : ∀ i0 jac jac',
  dense jac n1 n2 n3 →
  for_prm_dict i0 prm_dicts jac = Ret jac' →
  dense jac' n1 n2 n3 ∧
  ∀ i j (pd : pydict (value A)) v,
    prm_dicts !! i = Some pd → dict_values pd !! j = Some v →
    i0 + i < n1 ∧ j < n2 ∧ stretches n3 v.
Proof.
  induction prm_dicts as [|pd rest IH]; intros i0 jac jac' Hd Hrun.
  - simpl in Hrun. simplify_eq. split; [done|]. intros i j pd v H. done.
  - cbn [for_prm_dict] in Hrun.
    destruct (for_derivative i0 0 (dict_values pd) jac) as [jac1|e] eqn:E1;
      [|done].
    cbn [mbind result_bind] in Hrun.
    destruct (for_derivative_Ret _ _ _ _ _ _ _ _ Hd E1) as (Hd1 & Hpd).
    destruct (IH _ _ _ Hd1 Hrun) as (Hd' & Hrest).
    split; [done|]. intros [|i] j pd' v Hi Hj; simpl in Hi.
    + simplify_eq. destruct (Hpd j v Hj) as (? & ? & ?).
      split_and!; [lia|lia|done].
    + destruct (Hrest i j pd' v Hi Hj) as (? & ? & ?).
      split_and!; [lia|done|done].
Qed.

Lemma jacobian_dict_to_array_Ret {B} (zero : A)
      (output_sensors : list string) (inp : pydict (value B))
      (jac_dict : pydict (pydict (value A))) jac :
  jacobian_dict_to_array zero output_sensors inp jac_dict = Ret jac →
  ∃ n3, py_max (len_or_one <$> dict_values inp) = Ret n3 ∧
    dense jac (length output_sensors) (length inp) n3 ∧
    ∀ i j pd v,
      dict_values jac_dict !! i = Some pd → dict_values pd !! j = Some v →
      i < length output_sensors ∧ j < length inp ∧ stretches n3 v.
Proof.
  unfold jacobian_dict_to_array. intros Hrun.
  destruct (py_max (len_or_one <$> dict_values inp)) as [n3|e]; [|done].
  cbn [mbind result_bind] in Hrun. exists n3. split; [done|].
  destruct (np_zeros_dense zero (length output_sensors) (length inp) n3)
    as [Hd0 _].
  destruct (for_prm_dict_Ret _ _ _ _ _ _ _ Hd0 Hrun) as (Hd & Hall).
  split; [done|]. intros i j pd v Hi Hj.
  destruct (Hall i j pd v Hi Hj) as (? & ? & ?). split_and!; [lia|done..].
Qed.

End WithNumbers.

End ArrayCases.

Module ArrayProperties.
Import ForwardModel ForwardModelSpec ArrayFacts ArrayCases.

(** X14. [jacobian_dict_to_array] returns only when [inp] is not empty
    and every derivative of the dict has a place in the array and fits
    its row: its output sensor is one of the first [n1], its parameter
    one of the first [n2], and it has [n3] elements or one. The array
    then has the entries its shape announces. *)
Theorem jacobian_dict_to_array_returns_only_fitting {A B} (zero : A)
        (output_sensors : list string) (inp : pydict (value B))
        (jac_dict : pydict (pydict (value A))) (jac : ndarray3 A) :
  jacobian_dict_to_array zero output_sensors inp jac_dict = Ret jac →
  inp ≠ [] ∧
  ∃ n3, py_max (len_or_one <$> dict_values inp) = Ret n3 ∧
    dense jac (length output_sensors) (length inp) n3 ∧
    ∀ i j pd v,
      dict_values jac_dict !! i = Some pd → dict_values pd !! j = Some v →
      i < length output_sensors ∧ j < length inp ∧ stretches n3 v.
Proof.
  intros Hrun. split.
  - intros ->. done.
  - by eapply jacobian_dict_to_array_Ret.
Qed.

Lemma jacobian_dict_to_array_returns_only_fitting_witness :
  ForwardModelInputs.summary_inp ≠ [] ∧
  ∃ n3, py_max (len_or_one <$> dict_values ForwardModelInputs.summary_inp)
        = Ret n3 ∧
    dense {| shape := (1, 2, 3);
             data := [[[2%Q; 2%Q; 2%Q]; [5%Q; 5%Q; 5%Q]]] |}
          (length ["y"]) (length ForwardModelInputs.summary_inp) n3 ∧
    ∀ i j pd v,
      dict_values ForwardModelInputs.summary_jac_dict !! i = Some pd →
      dict_values pd !! j = Some v →
      i < length ["y"] ∧ j < length ForwardModelInputs.summary_inp ∧
      stretches n3 v.
Proof.
  apply (jacobian_dict_to_array_returns_only_fitting 0%Q ["y"]
           ForwardModelInputs.summary_inp
           ForwardModelInputs.summary_jac_dict).
  vm_compute. reflexivity.
Defined.

End ArrayProperties.

Module BridgeCases.
Import ForwardModel ForwardModelSpec Bridge BridgeSpec DictFacts ArrayCases.

Lemma slice_assign_length (a : list Q) s e v a' :
  slice_assign a s e v = Ret a' → length a' = length a.
Proof.
  unfold slice_assign. intros Hrun.
  destruct (broadcast_to (e `min` length a - s `min` length a) v)
    as [xs|err] eqn:Eb; [|done].
  cbn [mbind result_bind] in Hrun. simplify_eq.
  apply broadcast_to_Ret in Eb as [_ Hxs].
  rewrite !length_app, length_take, length_drop, Hxs. lia.
Qed.

(** Lines 176-181: the vector keeps its length, and the structure gets
    the count of every output. *)
Lemma for_response_Ret n3 (response_items : pydict (value Q)) :
  ∀ i y rs y' rs',
  for_response i n3 response_items (y, rs) = Ret (y', rs') →
  length y' = length y ∧
  (NoDup (dict_keys rs ++ dict_keys response_items) →
   rs' = rs ++ ((fun kv => (fst kv, len_or_one (snd kv)))
                  <$> response_items)).
Proof.
  induction response_items as [|[k v] rest IH]; intros i y rs y' rs' Hrun.
  - simpl in Hrun. simplify_eq. split; [done|]. intros _. simpl.
    by rewrite app_nil_r.
  - cbn [for_response fst snd] in Hrun.
    destruct (slice_assign y (i * n3) (i * n3 + len_or_one v) v)
      as [y1|e] eqn:E1; [|done].
    cbn [mbind result_bind] in Hrun.
    apply slice_assign_length in E1.
    destruct (IH _ _ _ _ _ Hrun) as [Hlen Hrs].
    split; [by rewrite Hlen|]. intros Hnd.
    assert (Hk : k ∉ dict_keys rs).
    { apply NoDup_app in Hnd as (_ & Hdis & _). intros Hin.
      apply (Hdis k Hin). left. }
    rewrite Hrs.
    + rewrite (dict_set_fresh_app rs k _ Hk). simpl.
      by rewrite <- app_assoc.
    + rewrite (dict_set_fresh_app rs k _ Hk).
      unfold dict_keys in *. rewrite fmap_app. simpl.
      by rewrite <- app_assoc.
Qed.

(** What a call of [forward] that returns has gone through. *)
Lemma forward_Ret (fm : forward_model) values r :
  forward fm values = Ret r →
  ∃ response_dict jac_dict n3,
    response fm (make_inp fm values) = Ret response_dict ∧
    jacobian fm (make_inp fm values) = Ret jac_dict ∧
    py_max (len_or_one <$> dict_values (make_inp fm values)) = Ret n3 ∧
    dense (saved_jacobian r) (length (output_sensors fm))
          (length (make_inp fm values)) n3 ∧
    length (y_torch r) = length (output_sensors fm) * n3 ∧
    (NoDup (dict_keys response_dict) →
     response_structure r
     = (fun kv => (fst kv, len_or_one (snd kv))) <$> response_dict).
Proof.
  unfold forward. intros Hrun.
  destruct (response fm (make_inp fm values)) as [response_dict|e] eqn:Er;
    [|done].
  cbn [mbind result_bind] in Hrun.
  destruct (jacobian fm (make_inp fm values)) as [jac_dict|e] eqn:Ej; [|done].
  cbn [mbind result_bind] in Hrun.
  destruct (jacobian_dict_to_array (Some 0%Q) (output_sensors fm)
              (make_inp fm values) jac_dict) as [jac|e] eqn:Ea; [|done].
  cbn [mbind result_bind] in Hrun.
  apply jacobian_dict_to_array_Ret in Ea as (n3 & Hmax & Hd & _).
  assert (Hsh := Hd). destruct Hsh as (Hsh & _). rewrite Hsh in Hrun.
  cbn [fst snd] in Hrun.
  destruct (for_response 0 n3 response_dict
              (replicate (length (output_sensors fm) * n3) 0%Q, []))
    as [[y rs]|e] eqn:Ef; [|done].
  cbn [mbind result_bind] in Hrun. simplify_eq. simpl.
  apply for_response_Ret in Ef as [Hlen Hrs].
  exists response_dict, jac_dict, n3. split_and!; try done.
  by rewrite Hlen, length_replicate.
Qed.

(** A dict filled from its own items *)
Lemma dict_of_items {V} (t : pydict V) : ∀ acc : pydict V,
  NoDup (dict_keys acc ++ dict_keys t) →
  fold_left (fun d kv => dict_set d (fst kv) (snd kv)) t acc = acc ++ t.
Proof.
  induction t as [|[k v] t IH]; intros acc Hnd; simpl.
  - by rewrite app_nil_r.
  - assert (Hk : k ∉ dict_keys acc).
    { apply NoDup_app in Hnd as (_ & Hdis & _). intros Hin.
      apply (Hdis k Hin). left. }
    rewrite (dict_set_fresh_app _ _ _ Hk), IH.
    + by rewrite <- app_assoc.
    + unfold dict_keys in *. rewrite fmap_app. simpl. by rewrite <- app_assoc.
Qed.

Lemma zip_keys_values {V} (d : pydict V) :
  zip (dict_keys d) (dict_values d) = d.
Proof.
  induction d as [|[k v] d IH]; [done|]. simpl. f_equal. exact IH.
Qed.

End BridgeCases.

Module BridgeProperties.
Import ForwardModel ForwardModelSpec Bridge BridgeSpec Wrapper.
Import DictFacts ArrayCases BridgeFacts BridgeCases.

(** X15. When [Autograd.forward] returns, the vector it returns has
    [n1 * n3] entries, [n1] the number of output sensors and [n3] the
    greatest element count of the inputs, however many values the
    response has; the saved Jacobian has the entries of its shape
    ([n1], number of inputs, [n3]); and [response_structure] holds for
    every output of the response the number of its elements. *)
Theorem forward_output_shape (fm : forward_model) (values : list (value Q))
        (r : forward_result) :
  (∀ inp response_dict, response fm inp = Ret response_dict →
                        NoDup (dict_keys response_dict)) →
  forward fm values = Ret r →
  ∃ response_dict n3,
    response fm (make_inp fm values) = Ret response_dict ∧
    py_max (len_or_one <$> dict_values (make_inp fm values)) = Ret n3 ∧
    length (y_torch r) = length (output_sensors fm) * n3 ∧
    dense (saved_jacobian r) (length (output_sensors fm))
          (length (make_inp fm values)) n3 ∧
    response_structure r
    = (fun kv => (fst kv, len_or_one (snd kv))) <$> response_dict.
Proof.
  intros Hdict Hrun.
  apply forward_Ret in Hrun
    as (response_dict & jac_dict & n3 & Hr & _ & Hmax & Hd & Hlen & Hrs).
  exists response_dict, n3. split_and!; try done.
  apply Hrs. by eapply Hdict.
Qed.

Lemma forward_output_shape_witness :
  ∃ r, forward BridgeInputs.summary_model BridgeInputs.summary_values = Ret r ∧
  ∃ response_dict n3,
    response BridgeInputs.summary_model
      (make_inp BridgeInputs.summary_model BridgeInputs.summary_values)
    = Ret response_dict ∧
    py_max (len_or_one <$> dict_values
              (make_inp BridgeInputs.summary_model
                        BridgeInputs.summary_values)) = Ret n3 ∧
    length (y_torch r)
    = length (output_sensors BridgeInputs.summary_model) * n3 ∧
    dense (saved_jacobian r)
          (length (output_sensors BridgeInputs.summary_model))
          (length (make_inp BridgeInputs.summary_model
                            BridgeInputs.summary_values)) n3 ∧
    response_structure r
    = (fun kv => (fst kv, len_or_one (snd kv))) <$> response_dict.
Proof.
  eexists. split; [vm_compute; reflexivity|].
  apply (forward_output_shape BridgeInputs.summary_model
           BridgeInputs.summary_values).
  - intros inp response_dict. simpl. unfold BridgeInputs.summary_response.
    destruct (dict_get inp "time") as [time|]; [|done].
    destruct (dict_get inp "A") as [[a|xs]|]; try done.
    intros [= <-]. apply (bool_decide_unpack _). vm_compute. exact I.
  - vm_compute. reflexivity.
Defined.

(** X16. The wrapper hands over the values of [inp] without their names,
    and [forward] names them again by position: when the keys of [inp]
    are the input sensors followed by the local parameter names, the
    dict that [forward] builds is [inp]. *)
Theorem only_values_rebuilds_inp (fm : forward_model)
        (inp : pydict (value Q)) :
  NoDup (dict_keys inp) →
  dict_keys inp = input_sensors fm ++ dict_values (prms_def fm) →
  only_values (make_inp fm) inp = inp.
Proof.
  intros Hnd Hkeys. unfold only_values, make_inp. rewrite <- Hkeys.
  rewrite zip_keys_values. by apply (dict_of_items inp []).
Qed.

Lemma only_values_rebuilds_inp_witness :
  only_values (make_inp BridgeInputs.summary_model)
              [("time", Array [1%Q; 2%Q; 3%Q]); ("A", Scalar 2%Q)]
  = [("time", Array [1%Q; 2%Q; 3%Q]); ("A", Scalar 2%Q)].
Proof.
  apply (only_values_rebuilds_inp BridgeInputs.summary_model).
  - apply (bool_decide_unpack _). vm_compute. exact I.
  - reflexivity.
Defined.

(** X17. [backward] accepts what [forward] leaves: for a gradient with
    as many entries as the vector [forward] returned, the reshaping
    succeeds, and there is one gradient per flag of [needs_input_grad]
    as far as there are inputs. *)
Theorem backward_accepts_forward (fm : forward_model)
        (values : list (value Q)) (r : forward_result)
        (zero : option Q) (add mul : option Q → option Q → option Q)
        (dl_dy_0 : list (option Q)) (needs_input_grad : list bool) :
  forward fm values = Ret r →
  length dl_dy_0 = length (y_torch r) →
  ∃ grads,
    backward zero add mul (saved_jacobian r) dl_dy_0 needs_input_grad
    = Ret grads ∧
    length grads
    = length needs_input_grad `min` length (make_inp fm values).
Proof.
  intros Hrun Hdl.
  apply forward_Ret in Hrun
    as (response_dict & jac_dict & n3 & _ & _ & _ & Hd & Hlen & _).
  destruct Hd as (Hsh & _).
  unfold backward, reshape. rewrite Hsh. cbn [fst snd].
  rewrite Hdl, Hlen, Nat.eqb_refl. cbn [mbind result_bind].
  eexists. split; [reflexivity|].
  rewrite length_zip_with. unfold sum_dim0. simpl.
  by rewrite app_nil_r, length_fmap, length_seq.
Qed.

Lemma backward_accepts_forward_witness :
  ∃ r, forward BridgeInputs.two_sensor_model BridgeInputs.two_sensor_values
       = Ret r ∧
  ∃ grads,
    backward None (fun _ _ => None) (fun _ _ => None) (saved_jacobian r)
             [Some 1%Q; Some 1%Q; Some 1%Q; Some 1%Q] [false; true]
    = Ret grads ∧
    length grads
    = length [false; true]
      `min` length (make_inp BridgeInputs.two_sensor_model
                             BridgeInputs.two_sensor_values).
Proof.
  eexists. split; [vm_compute; reflexivity|].
  apply (backward_accepts_forward BridgeInputs.two_sensor_model
           BridgeInputs.two_sensor_values).
  - vm_compute. reflexivity.
  - reflexivity.
Defined.

(** X18. [__call__] undoes the flattening of a response whose values
    follow one another without gaps: given the element counts as
    [response_structure] and the values one after the other as the
    vector, it returns the outputs under their names, a number as an
    array of one element. *)
Theorem call_dunder_contiguous (response_dict : pydict (value Q)) :
  call_dunder ((fun kv => (fst kv, len_or_one (snd kv))) <$> response_dict)
              (ResVector (concat ((fun kv => elements (snd kv))
                                    <$> response_dict)))
  = (fun kv => (fst kv, Array (elements (snd kv)))) <$> response_dict.
Proof.
  simpl.
  assert (Hgen : ∀ pre,
    reconstruct (length pre)
      ((fun kv => (fst kv, len_or_one (snd kv))) <$> response_dict)
      (pre ++ concat ((fun kv => elements (snd kv)) <$> response_dict))
    = (fun kv => (fst kv, Array (elements (snd kv)))) <$> response_dict).
  { induction response_dict as [|[k v] rest IH]; intros pre; [done|].
    cbn [fmap list_fmap reconstruct concat fst snd].
    assert (Hlen : len_or_one v = length (elements v)) by (by destruct v).
    rewrite drop_app_length, Hlen, take_app_length. f_equal.
    replace (length pre + length (elements v))
      with (length (pre ++ elements v)) by (by rewrite length_app).
    rewrite (app_assoc pre). apply IH. }
  apply (Hgen []).
Qed.


End BridgeProperties.

Module LayoutFacts.
Import ForwardModel ForwardModelSpec Bridge BridgeSpec LayoutSpec.
Import DictFacts ArrayCases BridgeCases.

Lemma length_elements {A} (v : value A) : length (elements v) = len_or_one v.
Proof. by destruct v. Qed.

Lemma broadcast_to_own_length {A} (v : value A) :
  broadcast_to (len_or_one v) v = Ret (elements v).
Proof.
  destruct v as [x|xs]; simpl; [done|]. by rewrite Nat.eqb_refl.
Qed.

(** Lines 176-181 when no output has more than [n3] values: output [i]
    goes to the entries from [i * n3] on, the rest of its row stays
    zero. *)
Lemma for_response_padded n3 (response_items : pydict (value Q)) :
  ∀ i pre (rs : pydict nat),
  length pre = i * n3 →
  Forall (fun kv => len_or_one (snd kv) ≤ n3) response_items →
  ∃ rs', for_response i n3 response_items
           (pre ++ replicate (length response_items * n3) 0%Q, rs)
         = Ret (pre ++ concat (padded n3 <$> response_items), rs').
Proof.
  induction response_items as [|[k v] rest IH]; intros i pre rs Hpre Hall.
  - exists rs. simpl. by rewrite !app_nil_r.
  - apply Forall_cons in Hall as [Hv Hall]. simpl in Hv.
    cbn [for_response]. unfold slice_assign. cbn [fst snd].
    assert (Hlen : length (pre ++ replicate (length ((k, v) :: rest) * n3) 0%Q)
                   = i * n3 + (n3 + length rest * n3)).
    { rewrite length_app, length_replicate. simpl. lia. }
    rewrite Hlen.
    replace ((i * n3) `min` (i * n3 + (n3 + length rest * n3)))
      with (i * n3) by lia.
    replace ((i * n3 + len_or_one v) `min` (i * n3 + (n3 + length rest * n3)))
      with (i * n3 + len_or_one v) by lia.
    replace (i * n3 + len_or_one v - i * n3) with (len_or_one v) by lia.
    rewrite broadcast_to_own_length. cbn [mbind result_bind].
    rewrite <- Hpre, take_app_length.
    replace (length ((k, v) :: rest) * n3)
      with (len_or_one v + ((n3 - len_or_one v) + length rest * n3))
      by (simpl; lia).
    rewrite replicate_add, (app_assoc pre (replicate (len_or_one v) 0%Q)).
    replace (length pre + len_or_one v)
      with (length (pre ++ replicate (len_or_one v) 0%Q))
      by (rewrite length_app, length_replicate; done).
    rewrite drop_app_length, replicate_add.
    destruct (IH (S i) (pre ++ padded n3 (k, v))
                 (dict_set rs k (len_or_one v))) as [rs' Hrs']; [|done|].
    { unfold padded. simpl.
      rewrite !length_app, length_replicate, length_elements. lia. }
    exists rs'. unfold padded in *. simpl in *.
    rewrite <- !app_assoc in Hrs'. rewrite <- !app_assoc. exact Hrs'.
Qed.

(** [__call__] reads the outputs one after the other from the start of
    the vector; what follows them is not read. *)
Lemma reconstruct_prefix (response_items : pydict (value Q)) :
  ∀ pre post,
  reconstruct (length pre)
    ((fun kv => (fst kv, len_or_one (snd kv))) <$> response_items)
    (pre ++ concat ((fun kv => elements (snd kv)) <$> response_items) ++ post)
  = as_array <$> response_items.
Proof.
  induction response_items as [|[k v] rest IH]; intros pre post; [done|].
  cbn [fmap list_fmap reconstruct concat fst snd].
  rewrite drop_app_length, <- app_assoc, <- length_elements, take_app_length.
  unfold as_array at 1. simpl. f_equal.
  replace (length pre + length (elements v))
    with (length (pre ++ elements v)) by (by rewrite length_app).
  rewrite (app_assoc pre). apply IH.
Qed.

Lemma padded_full n3 (full : pydict (value Q)) :
  Forall (full_row n3) full →
  concat (padded n3 <$> full)
  = concat ((fun kv => elements (snd kv)) <$> full).
Proof.
  induction full as [|[k v] rest IH]; intros Hall; [done|].
  apply Forall_cons in Hall as [(xs & Hv & Hxs) Hall]. simpl in Hv. subst v.
  cbn [fmap list_fmap concat]. rewrite (IH Hall).
  unfold padded. simpl. by rewrite Hxs, Nat.sub_diag, app_nil_r.
Qed.

(** What a call of [forward] that returns has computed in its loop *)
Lemma forward_Ret_loop (fm : forward_model) values r response_dict n3 :
  forward fm values = Ret r →
  response fm (make_inp fm values) = Ret response_dict →
  py_max (len_or_one <$> dict_values (make_inp fm values)) = Ret n3 →
  for_response 0 n3 response_dict
    (replicate (length (output_sensors fm) * n3) 0%Q, [])
  = Ret (y_torch r, response_structure r).
Proof.
  unfold forward. intros Hrun Hr Hmax. rewrite Hr in Hrun.
  cbn [mbind result_bind] in Hrun.
  destruct (jacobian fm (make_inp fm values)) as [jac_dict|e]; [|done].
  cbn [mbind result_bind] in Hrun.
  destruct (jacobian_dict_to_array (Some 0%Q) (output_sensors fm)
              (make_inp fm values) jac_dict) as [jac|e] eqn:Ea; [|done].
  cbn [mbind result_bind] in Hrun.
  apply jacobian_dict_to_array_Ret in Ea as (n3' & Hmax' & (Hsh & _) & _).
  rewrite Hmax in Hmax'. simplify_eq. rewrite Hsh in Hrun.
  cbn [fst snd] in Hrun.
  destruct (for_response 0 n3' response_dict
              (replicate (length (output_sensors fm) * n3') 0%Q, []))
    as [[y rs]|e] eqn:Ef; [|done].
  cbn [mbind result_bind] in Hrun. by simplify_eq.
Qed.

(** The vector that [forward] returns, when no output has more than
    [n3] values *)
Lemma forward_padded (fm : forward_model) values r response_dict n3 :
  forward fm values = Ret r →
  response fm (make_inp fm values) = Ret response_dict →
  py_max (len_or_one <$> dict_values (make_inp fm values)) = Ret n3 →
  length response_dict = length (output_sensors fm) →
  Forall (fun kv => len_or_one (snd kv) ≤ n3) response_dict →
  y_torch r = concat (padded n3 <$> response_dict).
Proof.
  intros Hrun Hr Hmax Hlen Hall.
  pose proof (forward_Ret_loop fm values r response_dict n3 Hrun Hr Hmax)
    as Hloop.
  destruct (for_response_padded n3 response_dict 0 [] [] eq_refl Hall)
    as [rs' Hpad].
  simpl in Hpad. rewrite Hlen in Hpad. rewrite Hpad in Hloop.
  by simplify_eq.
Qed.

End LayoutFacts.

Module LayoutProperties.
Import ForwardModel ForwardModelSpec Bridge BridgeSpec LayoutSpec.
Import DictFacts ArrayCases BridgeCases LayoutFacts.

(** X19. The layout of the vector of [forward]: when the response has
    one output per output sensor and no output has more values than
    [n3], the greatest element count of the inputs, the vector is the
    outputs in their order, each followed by zeros up to [n3] entries. *)
Theorem forward_vector_layout (fm : forward_model) (values : list (value Q))
        (r : forward_result) (response_dict : pydict (value Q)) (n3 : nat) :
  forward fm values = Ret r →
  response fm (make_inp fm values) = Ret response_dict →
  py_max (len_or_one <$> dict_values (make_inp fm values)) = Ret n3 →
  length response_dict = length (output_sensors fm) →
  Forall (fun kv => len_or_one (snd kv) ≤ n3) response_dict →
  y_torch r = concat (padded n3 <$> response_dict).
Proof.
  intros Hrun Hr Hmax Hlen Hall. by eapply forward_padded.
Qed.

Lemma forward_vector_layout_witness :
  ∃ r, forward BridgeInputs.summary_model BridgeInputs.summary_values = Ret r ∧
       y_torch r
       = concat (padded 3 <$> [("S1", Scalar 12%Q); ("S2", Scalar 4%Q)]).
Proof.
  eexists. split; [vm_compute; reflexivity|].
  apply (forward_vector_layout BridgeInputs.summary_model
           BridgeInputs.summary_values).
  - vm_compute. reflexivity.
  - vm_compute. reflexivity.
  - vm_compute. reflexivity.
  - reflexivity.
  - repeat constructor.
Defined.

(** X20. The round trip through the replaced [call] when every output
    but the last has exactly [n3] values and the last has at most [n3]:
    [__call__] gives back every output of the response under its name,
    a number as an array of one element. A model with one output
    sensor is the case of no output before the last. *)
Theorem round_trip_last_output_short (fm : forward_model)
        (values : list (value Q)) (r : forward_result)
        (full : pydict (value Q)) (k : string) (v : value Q) (n3 : nat) :
  forward fm values = Ret r →
  response fm (make_inp fm values) = Ret (full ++ [(k, v)]) →
  py_max (len_or_one <$> dict_values (make_inp fm values)) = Ret n3 →
  length (full ++ [(k, v)]) = length (output_sensors fm) →
  NoDup (dict_keys (full ++ [(k, v)])) →
  Forall (full_row n3) full → len_or_one v ≤ n3 →
  call_through_autograd fm values = Ret (as_array <$> (full ++ [(k, v)])).
Proof.
  intros Hrun Hr Hmax Hlen Hnd Hfull Hv.
  assert (Hall : Forall (fun kv => len_or_one (snd kv) ≤ n3)
                        (full ++ [(k, v)])).
  { apply Forall_app. split.
    - eapply Forall_impl; [exact Hfull|]. intros kv (xs & Hkv & Hxs).
      rewrite Hkv. simpl. lia.
    - by constructor. }
  pose proof (forward_padded fm values r _ n3 Hrun Hr Hmax Hlen Hall)
    as Hy.
  destruct (forward_Ret fm values r Hrun)
    as (rd & _ & _ & Hr' & _ & _ & _ & _ & Hrs).
  rewrite Hr in Hr'. simplify_eq. specialize (Hrs Hnd).
  unfold call_through_autograd. rewrite Hrun. cbn [mbind result_bind].
  f_equal. rewrite Hy, Hrs. unfold call_dunder.
  assert (Hc : concat (padded n3 <$> (full ++ [(k, v)]))
               = concat ((fun kv => elements (snd kv)) <$> (full ++ [(k, v)]))
                   ++ replicate (n3 - len_or_one v) 0%Q).
  { rewrite !fmap_app, !concat_app, (padded_full n3 full Hfull).
    cbn [fmap list_fmap concat]. unfold padded. cbn [fst snd].
    by rewrite !app_nil_r, <- app_assoc. }
  rewrite Hc.
  exact (reconstruct_prefix (full ++ [(k, v)]) []
           (replicate (n3 - len_or_one v) 0%Q)).
Qed.

Lemma round_trip_last_output_short_witness :
  call_through_autograd BridgeInputs.two_sensor_model
                        BridgeInputs.two_sensor_values
  = Ret (as_array <$> ([("S1", Array [3%Q; 6%Q])]
                         ++ [("S2", Array [4%Q; 5%Q])])).
Proof.
  assert (Hrun : ∃ r, forward BridgeInputs.two_sensor_model
                              BridgeInputs.two_sensor_values = Ret r).
  { eexists. vm_compute. reflexivity. }
  destruct Hrun as [r Hrun].
  apply (round_trip_last_output_short BridgeInputs.two_sensor_model
           BridgeInputs.two_sensor_values r _ _ _ 2).
  - exact Hrun.
  - vm_compute. reflexivity.
  - vm_compute. reflexivity.
  - reflexivity.
  - apply (bool_decide_unpack _). vm_compute. exact I.
  - repeat constructor. eexists. split; reflexivity.
  - simpl. lia.
Defined.

End LayoutProperties.

Module SolverProperties.
Import ForwardModel Solver.

(** X21. What [loglike] does: it goes through the noise models once, in
    their order, and hands every one the model response for its own
    experiments and its own parameters. When each of the noise models
    adds one log-probability to pyro's trace, the trace ends with these
    contributions in the order of the noise models, and [None] is
    returned. *)
Theorem loglike_contributions {Theta Response Prms : Type}
        (evaluate_model_response : Theta → list string → Response)
        (get_parameters : Theta → pydict string → Prms)
        (ll : noise_model Response Prms → Response → Prms → Q)
        (noise_models : list (noise_model Response Prms))
        (theta : Theta) (tr : trace) :
  (∀ nm r p tr', nm ∈ noise_models →
     sample_cond_likelihood _ _ nm r p tr' = tr' ++ [ll nm r p]) →
  loglike Theta Response Prms evaluate_model_response get_parameters
          noise_models theta tr
  = (PyNone,
     tr ++ ((fun nm => ll nm (evaluate_model_response theta
                                (experiment_names _ _ nm))
                          (get_parameters theta (nm_prms_def _ _ nm)))
              <$> noise_models)).
Proof.
  intros Hll. unfold loglike. f_equal. revert tr.
  induction noise_models as [|nm rest IH]; intros tr; simpl.
  - by rewrite app_nil_r.
  - rewrite IH.
    + rewrite Hll by left. by rewrite <- app_assoc.
    + intros nm' r p tr' Hin. apply Hll. by right.
Qed.

Lemma loglike_contributions_witness :
  loglike unit unit unit (fun _ _ => tt) (fun _ _ => tt)
          [SolverInputs.one_noise_model] tt [(-1 # 2)%Q]
  = (PyNone, [(-1 # 2)%Q] ++ ((fun _ => (-3 # 2)%Q)
                                <$> [SolverInputs.one_noise_model])).
Proof.
  apply (loglike_contributions (fun _ _ => tt) (fun _ _ => tt)
           (fun _ _ _ => (-3 # 2)%Q) [SolverInputs.one_noise_model] tt).
  intros nm r p tr' Hin. apply list_elem_of_singleton in Hin. subst nm.
  reflexivity.
Defined.

End SolverProperties.
